(** * Live audio conversation: capture encoding, playback scheduling, teardown

    Shallow embedding of [src/components/LiveConversation.tsx].

    Conventions of the model.
    - Time is counted in output frames (1/24000 s).  The output context is
      created at 24 kHz and every decoded buffer is a 24 kHz buffer, so both
      the context clock and the buffer durations are whole, non-negative
      numbers of frames; they are values of [N].  The rounding of the
      JavaScript doubles that carry these numbers is not modelled.
    - Every handler runs to completion before the next event is taken, as on
      the single-threaded event loop.  The two suspension points are
      [await getUserMedia], modelled by splitting [startConversation] in two
      steps, and [await decodeAudioData], which is taken to resume before any
      other handler runs (the helper does no asynchronous work of its own).
    - Calls made to the browser or to the transport are appended to a log of
      effects; React state and refs are fields of one record. *)

From Stdlib Require Import ZArith NArith List String Ascii Bool Lia.
From Stdlib Require Import Floats.SpecFloat.
Import ListNotations.

Local Open Scope string_scope.

(** ** The helpers imported from [../utils/audioUtils]

    That module is not among the sources, so its three functions are an
    interface here.  Bytes are 8-bit values of [Z]; an [AudioBuffer] is
    reduced to its duration in frames. *)

Record AudioBuffer := { duration : N }.

Class AudioUtils := {
  decode : string -> list Z;
  encode : list Z -> string;
  decodeAudioData : list Z -> AudioBuffer
}.

(** ** [createBlob]: Float32 samples to 16-bit PCM *)

Record Blob := { data : string; mimeType : string }.

(** A Float32 sample is a [spec_float]: [S754_finite s m e] is
    [(-1)^s * m * 2^e].  Multiplying a binary32 value by [32768 = 2^15] in
    binary64 is exact, so the product is the same mantissa with the exponent
    moved by 15. *)
Definition times32768 (x : spec_float) : spec_float :=
  match x with
  | S754_finite s m e => S754_finite s m (e + 15)
  | _ => x
  end.

(** Integer part, rounding toward zero; NaN, the infinities and the zeros
    give 0, as in the conversion a typed array applies on assignment. *)
Definition truncate (x : spec_float) : Z :=
  match x with
  | S754_finite s m e =>
      let magnitude := Z.shiftl (Z.pos m) e in
      if s then (- magnitude)%Z else magnitude
  | _ => 0%Z
  end.

(** The store [int16[i] = v] of an [Int16Array]. *)
Definition ToInt16 (x : spec_float) : Z :=
  let int16bit := (truncate x mod 2 ^ 16)%Z in
  if (2 ^ 15 <=? int16bit)%Z then (int16bit - 2 ^ 16)%Z else int16bit.

(** The two bytes of a 16-bit element as [new Uint8Array(int16.buffer)]
    shows them (little-endian). *)
Definition int16Bytes (v : Z) : list Z :=
  let u := (v mod 2 ^ 16)%Z in [(u mod 256)%Z; (u / 256)%Z].

Definition toInt16Array (data : list spec_float) : list Z :=
  map (fun sample => ToInt16 (times32768 sample)) data.

Definition createBlob `{AudioUtils} (data : list spec_float) : Blob :=
  let int16 := toInt16Array data in
  {| data := encode (flat_map int16Bytes int16);
     mimeType := "audio/pcm;rate=16000" |}.

(** The exact value [sample * 32768] as a fraction [scaledNum / scaledDen],
    and its integer part; used to state what [createBlob] computes. *)
Definition scaledNum (x : spec_float) : Z :=
  match x with
  | S754_finite s m e =>
      let n := (Z.pos m * 2 ^ Z.max 0 (e + 15))%Z in if s then (- n)%Z else n
  | _ => 0%Z
  end.

Definition scaledDen (x : spec_float) : Z :=
  match x with
  | S754_finite _ _ e => (2 ^ Z.max 0 (- (e + 15)))%Z
  | _ => 1%Z
  end.

Definition scaledTrunc (x : spec_float) : Z := Z.quot (scaledNum x) (scaledDen x).

(** ** Data of the component *)

Inductive ConversationState := idle | listening | connecting | error.

Record Transcription := { user : string; model : string }.

Definition noTranscription : Transcription := {| user := ""; model := "" |}.

(** [LiveServerMessage], with the fields the handler reads. *)
Record Part := { inlineData : option string }.

Record ServerContent := {
  inputTranscription : option string;
  outputTranscription : option string;
  turnComplete : bool;
  modelTurn : option (list Part);
  interrupted : bool
}.

Record LiveServerMessage := { serverContent : option ServerContent }.

Record MediaStream := { getTracks : list nat }.

Inductive AudioContextState := suspended | running | closed.

Record AudioContext := { ctxId : nat; state : AudioContextState }.

(** What the callbacks object handed to [ai.live.connect] closes over: the
    microphone stream and the [currentTranscription] of the render in which
    [startConversation] was created. *)
Record Callbacks := { cbStream : MediaStream; cbCurrentTranscription : Transcription }.

Inductive Effect :=
| GetUserMedia
| Connect (session : nat)
| SendRealtimeInput (session : nat) (media : Blob)
| SessionClose (session : nat)
| TrackStop (track : nat)
| Disconnect (node : nat)
| ContextClose (ctx : nat)
| SourceStart (source : nat) (when : N)
| SourceStop (source : nat)
| RequestAnimationFrame (id : positive)
| CancelAnimationFrame (id : positive).

(** React state, refs, and the part of the environment the handlers touch:
    [objects] counts the browser objects created so far (fresh identities),
    [pendingStarts] holds the [startConversation] calls waiting for
    [getUserMedia] (each with the [currentTranscription] it closed over),
    [callbacks] the callbacks of every session connected so far (a session
    is named by its index), [log] the calls made, oldest first. *)
Record World := {
  conversationState : ConversationState;
  transcriptions : list Transcription;
  currentTranscription : Transcription;
  sessionPromiseRef : option nat;
  mediaStreamRef : option MediaStream;
  audioContextRef : option AudioContext;
  scriptProcessorRef : option nat;
  outputAudioContextRef : option AudioContext;
  nextStartTimeRef : N;
  sourcesRef : list nat;
  analyserRef : option nat;
  visualizerRef : option nat;
  animationFrameRef : option positive;
  objects : nat;
  pendingStarts : list Transcription;
  callbacks : list Callbacks;
  log : list Effect
}.

Definition set_conversationState (v : ConversationState) (w : World) : World :=
  {| conversationState := v; transcriptions := transcriptions w;
     currentTranscription := currentTranscription w;
     sessionPromiseRef := sessionPromiseRef w; mediaStreamRef := mediaStreamRef w;
     audioContextRef := audioContextRef w; scriptProcessorRef := scriptProcessorRef w;
     outputAudioContextRef := outputAudioContextRef w;
     nextStartTimeRef := nextStartTimeRef w; sourcesRef := sourcesRef w;
     analyserRef := analyserRef w; visualizerRef := visualizerRef w;
     animationFrameRef := animationFrameRef w; objects := objects w;
     pendingStarts := pendingStarts w; callbacks := callbacks w; log := log w |}.

Definition set_transcriptions (v : list Transcription) (w : World) : World :=
  {| conversationState := conversationState w; transcriptions := v;
     currentTranscription := currentTranscription w;
     sessionPromiseRef := sessionPromiseRef w; mediaStreamRef := mediaStreamRef w;
     audioContextRef := audioContextRef w; scriptProcessorRef := scriptProcessorRef w;
     outputAudioContextRef := outputAudioContextRef w;
     nextStartTimeRef := nextStartTimeRef w; sourcesRef := sourcesRef w;
     analyserRef := analyserRef w; visualizerRef := visualizerRef w;
     animationFrameRef := animationFrameRef w; objects := objects w;
     pendingStarts := pendingStarts w; callbacks := callbacks w; log := log w |}.

Definition set_currentTranscription (v : Transcription) (w : World) : World :=
  {| conversationState := conversationState w; transcriptions := transcriptions w;
     currentTranscription := v; sessionPromiseRef := sessionPromiseRef w;
     mediaStreamRef := mediaStreamRef w; audioContextRef := audioContextRef w;
     scriptProcessorRef := scriptProcessorRef w;
     outputAudioContextRef := outputAudioContextRef w;
     nextStartTimeRef := nextStartTimeRef w; sourcesRef := sourcesRef w;
     analyserRef := analyserRef w; visualizerRef := visualizerRef w;
     animationFrameRef := animationFrameRef w; objects := objects w;
     pendingStarts := pendingStarts w; callbacks := callbacks w; log := log w |}.

Definition set_sessionPromiseRef (v : option nat) (w : World) : World :=
  {| conversationState := conversationState w; transcriptions := transcriptions w;
     currentTranscription := currentTranscription w; sessionPromiseRef := v;
     mediaStreamRef := mediaStreamRef w; audioContextRef := audioContextRef w;
     scriptProcessorRef := scriptProcessorRef w;
     outputAudioContextRef := outputAudioContextRef w;
     nextStartTimeRef := nextStartTimeRef w; sourcesRef := sourcesRef w;
     analyserRef := analyserRef w; visualizerRef := visualizerRef w;
     animationFrameRef := animationFrameRef w; objects := objects w;
     pendingStarts := pendingStarts w; callbacks := callbacks w; log := log w |}.

Definition set_mediaStreamRef (v : option MediaStream) (w : World) : World :=
  {| conversationState := conversationState w; transcriptions := transcriptions w;
     currentTranscription := currentTranscription w;
     sessionPromiseRef := sessionPromiseRef w; mediaStreamRef := v;
     audioContextRef := audioContextRef w; scriptProcessorRef := scriptProcessorRef w;
     outputAudioContextRef := outputAudioContextRef w;
     nextStartTimeRef := nextStartTimeRef w; sourcesRef := sourcesRef w;
     analyserRef := analyserRef w; visualizerRef := visualizerRef w;
     animationFrameRef := animationFrameRef w; objects := objects w;
     pendingStarts := pendingStarts w; callbacks := callbacks w; log := log w |}.

Definition set_audioContextRef (v : option AudioContext) (w : World) : World :=
  {| conversationState := conversationState w; transcriptions := transcriptions w;
     currentTranscription := currentTranscription w;
     sessionPromiseRef := sessionPromiseRef w; mediaStreamRef := mediaStreamRef w;
     audioContextRef := v; scriptProcessorRef := scriptProcessorRef w;
     outputAudioContextRef := outputAudioContextRef w;
     nextStartTimeRef := nextStartTimeRef w; sourcesRef := sourcesRef w;
     analyserRef := analyserRef w; visualizerRef := visualizerRef w;
     animationFrameRef := animationFrameRef w; objects := objects w;
     pendingStarts := pendingStarts w; callbacks := callbacks w; log := log w |}.

Definition set_scriptProcessorRef (v : option nat) (w : World) : World :=
  {| conversationState := conversationState w; transcriptions := transcriptions w;
     currentTranscription := currentTranscription w;
     sessionPromiseRef := sessionPromiseRef w; mediaStreamRef := mediaStreamRef w;
     audioContextRef := audioContextRef w; scriptProcessorRef := v;
     outputAudioContextRef := outputAudioContextRef w;
     nextStartTimeRef := nextStartTimeRef w; sourcesRef := sourcesRef w;
     analyserRef := analyserRef w; visualizerRef := visualizerRef w;
     animationFrameRef := animationFrameRef w; objects := objects w;
     pendingStarts := pendingStarts w; callbacks := callbacks w; log := log w |}.

Definition set_outputAudioContextRef (v : option AudioContext) (w : World) : World :=
  {| conversationState := conversationState w; transcriptions := transcriptions w;
     currentTranscription := currentTranscription w;
     sessionPromiseRef := sessionPromiseRef w; mediaStreamRef := mediaStreamRef w;
     audioContextRef := audioContextRef w; scriptProcessorRef := scriptProcessorRef w;
     outputAudioContextRef := v; nextStartTimeRef := nextStartTimeRef w;
     sourcesRef := sourcesRef w; analyserRef := analyserRef w;
     visualizerRef := visualizerRef w; animationFrameRef := animationFrameRef w;
     objects := objects w; pendingStarts := pendingStarts w; callbacks := callbacks w;
     log := log w |}.

Definition set_nextStartTimeRef (v : N) (w : World) : World :=
  {| conversationState := conversationState w; transcriptions := transcriptions w;
     currentTranscription := currentTranscription w;
     sessionPromiseRef := sessionPromiseRef w; mediaStreamRef := mediaStreamRef w;
     audioContextRef := audioContextRef w; scriptProcessorRef := scriptProcessorRef w;
     outputAudioContextRef := outputAudioContextRef w; nextStartTimeRef := v;
     sourcesRef := sourcesRef w; analyserRef := analyserRef w;
     visualizerRef := visualizerRef w; animationFrameRef := animationFrameRef w;
     objects := objects w; pendingStarts := pendingStarts w; callbacks := callbacks w;
     log := log w |}.

Definition set_sourcesRef (v : list nat) (w : World) : World :=
  {| conversationState := conversationState w; transcriptions := transcriptions w;
     currentTranscription := currentTranscription w;
     sessionPromiseRef := sessionPromiseRef w; mediaStreamRef := mediaStreamRef w;
     audioContextRef := audioContextRef w; scriptProcessorRef := scriptProcessorRef w;
     outputAudioContextRef := outputAudioContextRef w;
     nextStartTimeRef := nextStartTimeRef w; sourcesRef := v;
     analyserRef := analyserRef w; visualizerRef := visualizerRef w;
     animationFrameRef := animationFrameRef w; objects := objects w;
     pendingStarts := pendingStarts w; callbacks := callbacks w; log := log w |}.

Definition set_analyserRef (v : option nat) (w : World) : World :=
  {| conversationState := conversationState w; transcriptions := transcriptions w;
     currentTranscription := currentTranscription w;
     sessionPromiseRef := sessionPromiseRef w; mediaStreamRef := mediaStreamRef w;
     audioContextRef := audioContextRef w; scriptProcessorRef := scriptProcessorRef w;
     outputAudioContextRef := outputAudioContextRef w;
     nextStartTimeRef := nextStartTimeRef w; sourcesRef := sourcesRef w; analyserRef := v;
     visualizerRef := visualizerRef w; animationFrameRef := animationFrameRef w;
     objects := objects w; pendingStarts := pendingStarts w; callbacks := callbacks w;
     log := log w |}.

Definition set_visualizerRef (v : option nat) (w : World) : World :=
  {| conversationState := conversationState w; transcriptions := transcriptions w;
     currentTranscription := currentTranscription w;
     sessionPromiseRef := sessionPromiseRef w; mediaStreamRef := mediaStreamRef w;
     audioContextRef := audioContextRef w; scriptProcessorRef := scriptProcessorRef w;
     outputAudioContextRef := outputAudioContextRef w;
     nextStartTimeRef := nextStartTimeRef w; sourcesRef := sourcesRef w;
     analyserRef := analyserRef w; visualizerRef := v;
     animationFrameRef := animationFrameRef w; objects := objects w;
     pendingStarts := pendingStarts w; callbacks := callbacks w; log := log w |}.

Definition set_animationFrameRef (v : option positive) (w : World) : World :=
  {| conversationState := conversationState w; transcriptions := transcriptions w;
     currentTranscription := currentTranscription w;
     sessionPromiseRef := sessionPromiseRef w; mediaStreamRef := mediaStreamRef w;
     audioContextRef := audioContextRef w; scriptProcessorRef := scriptProcessorRef w;
     outputAudioContextRef := outputAudioContextRef w;
     nextStartTimeRef := nextStartTimeRef w; sourcesRef := sourcesRef w;
     analyserRef := analyserRef w; visualizerRef := visualizerRef w;
     animationFrameRef := v; objects := objects w; pendingStarts := pendingStarts w;
     callbacks := callbacks w; log := log w |}.

Definition set_objects (v : nat) (w : World) : World :=
  {| conversationState := conversationState w; transcriptions := transcriptions w;
     currentTranscription := currentTranscription w;
     sessionPromiseRef := sessionPromiseRef w; mediaStreamRef := mediaStreamRef w;
     audioContextRef := audioContextRef w; scriptProcessorRef := scriptProcessorRef w;
     outputAudioContextRef := outputAudioContextRef w;
     nextStartTimeRef := nextStartTimeRef w; sourcesRef := sourcesRef w;
     analyserRef := analyserRef w; visualizerRef := visualizerRef w;
     animationFrameRef := animationFrameRef w; objects := v;
     pendingStarts := pendingStarts w; callbacks := callbacks w; log := log w |}.

Definition set_pendingStarts (v : list Transcription) (w : World) : World :=
  {| conversationState := conversationState w; transcriptions := transcriptions w;
     currentTranscription := currentTranscription w;
     sessionPromiseRef := sessionPromiseRef w; mediaStreamRef := mediaStreamRef w;
     audioContextRef := audioContextRef w; scriptProcessorRef := scriptProcessorRef w;
     outputAudioContextRef := outputAudioContextRef w;
     nextStartTimeRef := nextStartTimeRef w; sourcesRef := sourcesRef w;
     analyserRef := analyserRef w; visualizerRef := visualizerRef w;
     animationFrameRef := animationFrameRef w; objects := objects w; pendingStarts := v;
     callbacks := callbacks w; log := log w |}.

Definition set_callbacks (v : list Callbacks) (w : World) : World :=
  {| conversationState := conversationState w; transcriptions := transcriptions w;
     currentTranscription := currentTranscription w;
     sessionPromiseRef := sessionPromiseRef w; mediaStreamRef := mediaStreamRef w;
     audioContextRef := audioContextRef w; scriptProcessorRef := scriptProcessorRef w;
     outputAudioContextRef := outputAudioContextRef w;
     nextStartTimeRef := nextStartTimeRef w; sourcesRef := sourcesRef w;
     analyserRef := analyserRef w; visualizerRef := visualizerRef w;
     animationFrameRef := animationFrameRef w; objects := objects w;
     pendingStarts := pendingStarts w; callbacks := v; log := log w |}.

Definition set_log (v : list Effect) (w : World) : World :=
  {| conversationState := conversationState w; transcriptions := transcriptions w;
     currentTranscription := currentTranscription w;
     sessionPromiseRef := sessionPromiseRef w; mediaStreamRef := mediaStreamRef w;
     audioContextRef := audioContextRef w; scriptProcessorRef := scriptProcessorRef w;
     outputAudioContextRef := outputAudioContextRef w;
     nextStartTimeRef := nextStartTimeRef w; sourcesRef := sourcesRef w;
     analyserRef := analyserRef w; visualizerRef := visualizerRef w;
     animationFrameRef := animationFrameRef w; objects := objects w;
     pendingStarts := pendingStarts w; callbacks := callbacks w; log := v |}.

Definition init : World :=
  {| conversationState := idle; transcriptions := [];
     currentTranscription := noTranscription;
     sessionPromiseRef := None; mediaStreamRef := None;
     audioContextRef := None; scriptProcessorRef := None;
     outputAudioContextRef := None; nextStartTimeRef := 0%N; sourcesRef := [];
     analyserRef := None; visualizerRef := None; animationFrameRef := None;
     objects := 0; pendingStarts := []; callbacks := []; log := [] |}.

Definition emit (es : list Effect) (w : World) : World :=
  set_log (log w ++ es) w.

(** A JavaScript [Set] of source nodes, in insertion order. *)
Definition setAdd (n : nat) (s : list nat) : list nat :=
  if existsb (Nat.eqb n) s then s else s ++ [n].

Definition setDelete (n : nat) (s : list nat) : list nat :=
  filter (fun x => negb (Nat.eqb n x)) s.

Definition isClosed (c : AudioContext) : bool :=
  match state c with closed => true | _ => false end.

(** ** Handlers *)

(** [session.close()] is called in a then-callback of the session promise,
    after the synchronous rest of the teardown; [SessionClose] is logged at
    the place where the teardown queues it. *)
Definition stopConversation (w : World) : World :=
  let w := match animationFrameRef w with
           | Some id => set_animationFrameRef None (emit [CancelAnimationFrame id] w)
           | None => w
           end in
  let w := match sessionPromiseRef w with
           | Some session => set_sessionPromiseRef None (emit [SessionClose session] w)
           | None => w
           end in
  let w := match mediaStreamRef w with
           | Some stream =>
               set_mediaStreamRef None (emit (map TrackStop (getTracks stream)) w)
           | None => w
           end in
  let w := match scriptProcessorRef w with
           | Some node => set_scriptProcessorRef None (emit [Disconnect node] w)
           | None => w
           end in
  let w := match audioContextRef w with
           | Some ctx => if isClosed ctx then w else emit [ContextClose (ctxId ctx)] w
           | None => w
           end in
  let w := set_audioContextRef None w in
  let w := match outputAudioContextRef w with
           | Some ctx =>
               if isClosed ctx then w
               else
                 let w := emit (map SourceStop (sourcesRef w)) w in
                 let w := set_sourcesRef [] w in
                 emit [ContextClose (ctxId ctx)] w
           | None => w
           end in
  let w := set_outputAudioContextRef None w in
  set_conversationState idle w.

Definition visualize (w : World) : World :=
  match analyserRef w, visualizerRef w with
  | Some _, Some _ =>
      let id := Pos.of_succ_nat (objects w) in
      let w := set_objects (S (objects w)) w in
      set_animationFrameRef (Some id) (emit [RequestAnimationFrame id] w)
  | _, _ => w
  end.

(** [startConversation] up to [await getUserMedia]. *)
Definition startConversation (w : World) : World :=
  match conversationState w with
  | idle =>
      let captured := currentTranscription w in
      let w := set_conversationState connecting w in
      let w := set_transcriptions [] w in
      let w := set_currentTranscription noTranscription w in
      set_pendingStarts (pendingStarts w ++ [captured]) (emit [GetUserMedia] w)
  | _ => w
  end.

(** How the awaited part of the [try] block goes: the request is rejected,
    or the stream is obtained and a later statement throws before the audio
    contexts exist, or everything up to [ai.live.connect] succeeds (the
    flags say whether each new context starts running). *)
Inductive MediaOutcome :=
| Rejected
| Threw (stream : MediaStream)
| Granted (stream : MediaStream) (inputRunning outputRunning : bool).

Definition newAudioContext (isRunning : bool) (w : World) : AudioContext * World :=
  ({| ctxId := objects w; state := if isRunning then running else suspended |},
   set_objects (S (objects w)) w).

(** The rest of [startConversation], for a call that closed over [captured]. *)
Definition startConversationResume (captured : Transcription) (o : MediaOutcome)
    (w : World) : World :=
  match o with
  | Rejected => stopConversation (set_conversationState error w)
  | Threw stream =>
      let w := set_mediaStreamRef (Some stream) w in
      stopConversation (set_conversationState error w)
  | Granted stream inputRunning outputRunning =>
      let w := set_mediaStreamRef (Some stream) w in
      let '(inputCtx, w) := newAudioContext inputRunning w in
      let w := set_audioContextRef (Some inputCtx) w in
      let '(outputCtx, w) := newAudioContext outputRunning w in
      let w := set_outputAudioContextRef (Some outputCtx) w in
      let w := set_nextStartTimeRef 0%N w in
      let session := List.length (callbacks w) in
      let w := set_callbacks
                 (callbacks w ++
                  [{| cbStream := stream; cbCurrentTranscription := captured |}]) w in
      set_sessionPromiseRef (Some session) (emit [Connect session] w)
  end.

(** [onopen].  [flushed] says whether React commits the state update before
    the callback goes on (a legacy root does, a batching root does not): the
    commit is what attaches [visualizerRef].  With no input context the
    non-null assertion fails and the callback stops there. *)
Definition onopen (flushed : bool) (cb : Callbacks) (w : World) : World :=
  let w := set_conversationState listening w in
  let w := if flushed then set_visualizerRef (Some 0) w else w in
  match audioContextRef w with
  | None => w
  | Some _ =>
      let processor := S (objects w) in
      let analyser := S (S (objects w)) in
      let w := set_objects (S (S (S (objects w)))) w in
      let w := set_scriptProcessorRef (Some processor) w in
      let w := set_analyserRef (Some analyser) w in
      visualize w
  end.

Definition onaudioprocess `{AudioUtils} (inputData : list spec_float) (w : World) : World :=
  let pcmBlob := createBlob inputData in
  match sessionPromiseRef w with
  | Some session => emit [SendRealtimeInput session pcmBlob] w
  | None => w
  end.

Definition base64Audio (message : LiveServerMessage) : option string :=
  match serverContent message with
  | Some content =>
      match modelTurn content with
      | Some (part :: _) => inlineData part
      | _ => None
      end
  | None => None
  end.

Definition truthy (s : option string) : option string :=
  match s with
  | Some "" => None
  | _ => s
  end.

Definition isInterrupted (message : LiveServerMessage) : bool :=
  match serverContent message with
  | Some content => interrupted content
  | None => false
  end.

(** The audio branch of [onmessage]; [currentTime] is the reading of
    [outputCtx.currentTime]. *)
Definition scheduleChunk `{AudioUtils} (base64 : string) (currentTime : N) (w : World) : World :=
  let w := set_nextStartTimeRef (N.max (nextStartTimeRef w) currentTime) w in
  let audioBuffer := decodeAudioData (decode base64) in
  let sourceNode := objects w in
  let w := set_objects (S (objects w)) w in
  let w := emit [SourceStart sourceNode (nextStartTimeRef w)] w in
  let w := set_nextStartTimeRef (nextStartTimeRef w + duration audioBuffer)%N w in
  set_sourcesRef (setAdd sourceNode (sourcesRef w)) w.

(** The five [if] blocks of [onmessage], in source order. *)
Definition inputTranscriptionBlock (message : LiveServerMessage) (w : World) : World :=
  match option_map inputTranscription (serverContent message) with
  | Some (Some text) =>
      let prev := currentTranscription w in
      set_currentTranscription {| user := user prev ++ text; model := model prev |} w
  | _ => w
  end.

Definition outputTranscriptionBlock (message : LiveServerMessage) (w : World) : World :=
  match option_map outputTranscription (serverContent message) with
  | Some (Some text) =>
      let prev := currentTranscription w in
      set_currentTranscription {| user := user prev; model := model prev ++ text |} w
  | _ => w
  end.

Definition turnCompleteBlock (cb : Callbacks) (message : LiveServerMessage)
    (w : World) : World :=
  match option_map turnComplete (serverContent message) with
  | Some true =>
      let w := set_transcriptions
                 (transcriptions w ++ [cbCurrentTranscription cb]) w in
      set_currentTranscription noTranscription w
  | _ => w
  end.

Definition audioBlock `{AudioUtils} (message : LiveServerMessage) (currentTime : N)
    (w : World) : World :=
  match truthy (base64Audio message), outputAudioContextRef w with
  | Some base64, Some _ => scheduleChunk base64 currentTime w
  | _, _ => w
  end.

Definition interruptedBlock (message : LiveServerMessage) (w : World) : World :=
  if isInterrupted message then
    let w := emit (map SourceStop (sourcesRef w)) w in
    let w := set_sourcesRef [] w in
    set_nextStartTimeRef 0%N w
  else w.

Definition onmessage `{AudioUtils} (cb : Callbacks) (message : LiveServerMessage)
    (currentTime : N) (w : World) : World :=
  let w := inputTranscriptionBlock message w in
  let w := outputTranscriptionBlock message w in
  let w := turnCompleteBlock cb message w in
  let w := audioBlock message currentTime w in
  interruptedBlock message w.

Definition onclose (w : World) : World := stopConversation w.

Definition onerror (w : World) : World :=
  stopConversation (set_conversationState error w).

(** ** The event loop *)

Inductive Event :=
| ClickStart
| ClickStop
| Unmount
| UserMedia (o : MediaOutcome)
| OnOpen (session : nat) (flushed : bool)
| OnMessage (session : nat) (message : LiveServerMessage) (currentTime : N)
| OnClose (session : nat)
| OnError (session : nat)
| AudioProcess (inputData : list spec_float)
| Ended (source : nat)
| AnimationFrame
| Render.

Definition withCallbacks (session : nat) (handler : Callbacks -> World -> World)
    (w : World) : World :=
  match nth_error (callbacks w) session with
  | Some cb => handler cb w
  | None => w
  end.

Definition step `{AudioUtils} (w : World) (e : Event) : World :=
  match e with
  | ClickStart => startConversation w
  | ClickStop | Unmount => stopConversation w
  | UserMedia o =>
      match pendingStarts w with
      | captured :: rest => startConversationResume captured o (set_pendingStarts rest w)
      | [] => w
      end
  | OnOpen session flushed => withCallbacks session (onopen flushed) w
  | OnMessage session message currentTime =>
      withCallbacks session (fun cb => onmessage cb message currentTime) w
  | OnClose session => withCallbacks session (fun _ => onclose) w
  | OnError session => withCallbacks session (fun _ => onerror) w
  | AudioProcess inputData =>
      match scriptProcessorRef w with
      | Some _ => onaudioprocess inputData w
      | None => w
      end
  | Ended source => set_sourcesRef (setDelete source (sourcesRef w)) w
  | AnimationFrame =>
      match animationFrameRef w with
      | Some _ => visualize w
      | None => w
      end
  | Render =>
      set_visualizerRef
        (match conversationState w with listening => Some 0 | _ => None end) w
  end.

Definition run `{AudioUtils} (events : list Event) (w : World) : World :=
  fold_left step events w.

Definition reachable `{AudioUtils} (w : World) : Prop :=
  exists events, w = run events init.

(** ** A concrete [AudioUtils], for running the model on examples *)

Module Base64.

Definition alphabet : string :=
  "ABCDEFGHIJKLMNOPQRSTUVWXYZabcdefghijklmnopqrstuvwxyz0123456789+/".

Fixpoint indexOf (c : ascii) (s : string) : option Z :=
  match s with
  | EmptyString => None
  | String d rest =>
      if Ascii.eqb c d then Some 0%Z else option_map Z.succ (indexOf c rest)
  end.

(** The 6-bit digits of a text; padding and foreign characters are skipped. *)
Fixpoint sextets (s : string) : list Z :=
  match s with
  | EmptyString => []
  | String c rest =>
      match indexOf c alphabet with
      | Some v => v :: sextets rest
      | None => sextets rest
      end
  end.

Fixpoint bytesOfSextets (l : list Z) : list Z :=
  match l with
  | a :: b :: c :: d :: rest =>
      (a * 4 + b / 16)%Z :: ((b mod 16) * 16 + c / 4)%Z :: ((c mod 4) * 64 + d)%Z
      :: bytesOfSextets rest
  | [a; b; c] => [(a * 4 + b / 16)%Z; ((b mod 16) * 16 + c / 4)%Z]
  | [a; b] => [(a * 4 + b / 16)%Z]
  | _ => []
  end.

Definition digit (v : Z) : ascii :=
  match get (Z.to_nat v) alphabet with
  | Some c => c
  | None => "="%char
  end.

Fixpoint textOfBytes (l : list Z) : string :=
  match l with
  | x :: y :: z :: rest =>
      String (digit (x / 4)) (String (digit ((x mod 4) * 16 + y / 16))
        (String (digit ((y mod 16) * 4 + z / 64)) (String (digit (z mod 64))
           (textOfBytes rest))))
  | [x; y] =>
      String (digit (x / 4)) (String (digit ((x mod 4) * 16 + y / 16))
        (String (digit ((y mod 16) * 4)) "="))
  | [x] => String (digit (x / 4)) (String (digit ((x mod 4) * 16)) "==")
  | [] => ""
  end.

End Base64.

(** Modelled from the spec: [utils/audioUtils] is missing from the sources;
    the spec describes the payloads as base64 text of mono 16-bit PCM, so
    [decode] and [encode] are base64 and a decoded buffer has one frame per
    two bytes. *)
Definition pcm16Utils : AudioUtils :=
  {| decode := fun text => Base64.bytesOfSextets (Base64.sextets text);
     encode := Base64.textOfBytes;
     decodeAudioData := fun bytes =>
       {| duration := N.of_nat (List.length bytes / 2) |} |}.

(** *** Messages and worlds used in the examples *)

Definition emptyContent : ServerContent :=
  {| inputTranscription := None; outputTranscription := None;
     turnComplete := false; modelTurn := None; interrupted := false |}.

Definition audioMessage (base64 : string) : LiveServerMessage :=
  {| serverContent :=
       Some {| inputTranscription := None; outputTranscription := None;
               turnComplete := false;
               modelTurn := Some [{| inlineData := Some base64 |}];
               interrupted := false |} |}.

Definition interruptedMessage : LiveServerMessage :=
  {| serverContent :=
       Some {| inputTranscription := None; outputTranscription := None;
               turnComplete := false; modelTurn := None; interrupted := true |} |}.

Definition inputMessage (text : string) : LiveServerMessage :=
  {| serverContent :=
       Some {| inputTranscription := Some text; outputTranscription := None;
               turnComplete := false; modelTurn := None; interrupted := false |} |}.

Definition outputMessage (text : string) : LiveServerMessage :=
  {| serverContent :=
       Some {| inputTranscription := None; outputTranscription := Some text;
               turnComplete := false; modelTurn := None; interrupted := false |} |}.

Definition turnCompleteMessage : LiveServerMessage :=
  {| serverContent :=
       Some {| inputTranscription := None; outputTranscription := None;
               turnComplete := true; modelTurn := None; interrupted := false |} |}.

Definition microphone : MediaStream := {| getTracks := [7] |}.

(** Start, microphone granted, transport open, render of the listening
    view. *)
Definition opening : list Event :=
  [ClickStart; UserMedia (Granted microphone true true); OnOpen 0 true; Render].

Definition listeningWorld : World := run (H := pcm16Utils) opening init.

(** ** Observations used in the statements *)

(** Start times handed to [sourceNode.start], in call order. *)
Definition startTimes (l : list Effect) : list N :=
  flat_map (fun e => match e with SourceStart _ t => [t] | _ => [] end) l.

(** The calls made between world [w] and a later world [w']. *)
Definition logSince (w w' : World) : list Effect :=
  skipn (List.length (log w)) (log w').

(** A run of messages of one session, each with the clock reading at its
    arrival. *)
Definition receive `{AudioUtils} (cb : Callbacks)
    (arrivals : list (LiveServerMessage * N)) (w : World) : World :=
  fold_left (fun w arrival => onmessage cb (fst arrival) (snd arrival) w) arrivals w.

Definition hasAudio (message : LiveServerMessage) : bool :=
  match truthy (base64Audio message) with Some _ => true | None => false end.

(** The messages of a run that carry audio. *)
Definition audioChunks (arrivals : list (LiveServerMessage * N))
  : list (LiveServerMessage * N) :=
  filter (fun arrival => hasAudio (fst arrival)) arrivals.

Definition chunkDuration `{AudioUtils} (message : LiveServerMessage) : N :=
  match truthy (base64Audio message) with
  | Some base64 => duration (decodeAudioData (decode base64))
  | None => 0%N
  end.

Definition sumN (l : list N) : N := fold_right N.add 0%N l.

(** How often [session.close()] was requested for a session. *)
Definition closes (session : nat) (l : list Effect) : nat :=
  List.length
    (filter (fun e => match e with
                      | SessionClose s => Nat.eqb session s
                      | _ => false
                      end) l).

(** Following the spec's alternative ("reset to 0 (or to current clock
    time)"): the handler with the interruption branch ending in
    [nextStartTimeRef.current = outputCtx.currentTime] instead of [= 0]. *)
Definition onmessageClockReset `{AudioUtils} (cb : Callbacks)
    (message : LiveServerMessage) (currentTime : N) (w : World) : World :=
  let w := onmessage cb message currentTime w in
  if isInterrupted message then set_nextStartTimeRef currentTime w else w.

Definition receiveClockReset `{AudioUtils} (cb : Callbacks)
    (arrivals : list (LiveServerMessage * N)) (w : World) : World :=
  fold_left
    (fun w arrival => onmessageClockReset cb (fst arrival) (snd arrival) w)
    arrivals w.

(** Clock readings that never go back. *)
Fixpoint nondecreasing (times : list N) : Prop :=
  match times with
  | t :: (t' :: _) as rest => (t <= t')%N /\ nondecreasing rest
  | _ => True
  end.

(** A world after two chunks were scheduled and a frame was requested. *)
Definition playingWorld : World :=
  run (H := pcm16Utils)
    [OnMessage 0 (audioMessage "AAA=") 0%N; OnMessage 0 (audioMessage "AAAAAA==") 0%N;
     AnimationFrame] listeningWorld.

(** The start times the scheduler gives to a run of chunks, computed from
    the arrival times and durations alone. *)
Fixpoint plan `{AudioUtils} (next : N) (arrivals : list (LiveServerMessage * N)) : list N :=
  match arrivals with
  | [] => []
  | (message, currentTime) :: rest =>
      N.max next currentTime
      :: plan (N.max next currentTime + chunkDuration message)%N rest
  end.

Definition arrivalTimes (arrivals : list (LiveServerMessage * N)) : list N :=
  map snd arrivals.

Definition durations `{AudioUtils} (arrivals : list (LiveServerMessage * N)) : list N :=
  map (fun arrival => chunkDuration (fst arrival)) arrivals.

(** The three transcript blocks together; they touch React state only. *)
Definition transcriptBlocks (cb : Callbacks) (message : LiveServerMessage)
    (w : World) : World :=
  turnCompleteBlock cb message
    (outputTranscriptionBlock message (inputTranscriptionBlock message w)).

(** Whether the audio block of [onmessage] schedules a buffer. *)
Definition schedules (message : LiveServerMessage) (w : World) : bool :=
  hasAudio message
  && match outputAudioContextRef w with Some _ => true | None => false end.

Definition noCallbacks : Callbacks :=
  {| cbStream := microphone; cbCurrentTranscription := noTranscription |}.

(** The active sources once the audio block of [onmessage] has run. *)
Definition activeAfterAudio (message : LiveServerMessage) (w : World) : list nat :=
  if schedules message w then setAdd (objects w) (sourcesRef w) else sourcesRef w.

(** Two worlds that differ at most in [nextStartTimeRef]. *)
Definition sameButNext (a b : World) : Prop :=
  set_nextStartTimeRef 0%N a = set_nextStartTimeRef 0%N b.

(** ** Teardown in closed form *)

Definition outputOpen (w : World) : bool :=
  match outputAudioContextRef w with
  | Some ctx => negb (isClosed ctx)
  | None => false
  end.

(** The calls one run of [stopConversation] makes, in order. *)
Definition teardownCalls (w : World) : list Effect :=
  (match animationFrameRef w with Some id => [CancelAnimationFrame id] | None => [] end)
  ++ (match sessionPromiseRef w with Some session => [SessionClose session] | None => [] end)
  ++ (match mediaStreamRef w with
      | Some stream => map TrackStop (getTracks stream)
      | None => []
      end)
  ++ (match scriptProcessorRef w with Some node => [Disconnect node] | None => [] end)
  ++ (match audioContextRef w with
      | Some ctx => if isClosed ctx then [] else [ContextClose (ctxId ctx)]
      | None => []
      end)
  ++ (match outputAudioContextRef w with
      | Some ctx =>
          if isClosed ctx then []
          else map SourceStop (sourcesRef w) ++ [ContextClose (ctxId ctx)]
      | None => []
      end).


(** ** Invariant of the reachable worlds

    A context held in [outputAudioContextRef] is not closed; sources are
    active only while that ref is set, and each of them has been started
    (so that [stop()] on it cannot throw); [session.close()] is requested at
    most once per session, and never for the session still held in
    [sessionPromiseRef], which is one of the sessions connected so far. *)
Record sound (w : World) : Prop := {
  output_not_closed :
    forall ctx, outputAudioContextRef w = Some ctx -> isClosed ctx = false;
  sources_need_output : outputAudioContextRef w = None -> sourcesRef w = [];
  sources_started :
    forall n, In n (sourcesRef w) -> exists t, In (SourceStart n t) (log w);
  closed_once : forall session, closes session (log w) <= 1;
  held_not_closed :
    forall session, sessionPromiseRef w = Some session -> closes session (log w) = 0;
  unknown_not_closed :
    forall session, List.length (callbacks w) <= session -> closes session (log w) = 0;
  held_is_known :
    forall session, sessionPromiseRef w = Some session ->
      session < List.length (callbacks w)
}.

(** The events that run the teardown on the world as it is: the Stop
    button, unmounting, and the [onclose] and [onerror] callbacks of a
    session that was connected.  (The catch of [startConversation] runs it
    too, within the [UserMedia] step of a request that was rejected or
    threw.) *)
Definition isTeardown (w : World) (e : Event) : bool :=
  match e with
  | ClickStop | Unmount => true
  | OnClose session | OnError session => Nat.ltb session (List.length (callbacks w))
  | _ => false
  end.

(** What relates the two runs after a message handled at clock [t0]. *)
Definition resetRelated (t0 : N) (a b : World) : Prop :=
  sameButNext a b
  /\ (nextStartTimeRef a = nextStartTimeRef b
      \/ (nextStartTimeRef a = 0%N /\ (nextStartTimeRef b <= t0)%N)).

(** * Further parts of the component *)

(** ** The rendered view (lines 191-227)

    The list of completed turns, the pending turn (shown when either of its
    texts is non-empty, each line only when its own text is), and the
    controls, one conditional per state. *)

Inductive Control := StartButton | ConnectingNotice | StopButton | ErrorNotice.

Inductive Line := You (text : string) | AI (text : string).

Record View := {
  turns : list (Line * Line);
  pendingTurn : option (list Line);
  controls : list Control
}.

Definition nonEmpty (s : string) : bool :=
  match s with EmptyString => false | _ => true end.

Definition render (w : World) : View :=
  let current := currentTranscription w in
  {| turns := map (fun t => (You (user t), AI (model t))) (transcriptions w);
     pendingTurn :=
       if nonEmpty (user current) || nonEmpty (model current)
       then Some ((if nonEmpty (user current) then [You (user current)] else [])
                  ++ (if nonEmpty (model current) then [AI (model current)] else []))%list
       else None;
     controls :=
       ((match conversationState w with idle => [StartButton] | _ => [] end)
        ++ (match conversationState w with connecting => [ConnectingNotice] | _ => [] end)
        ++ (match conversationState w with listening => [StopButton] | _ => [] end)
        ++ (match conversationState w with error => [ErrorNotice] | _ => [] end))%list |}.

(** ** Observations on messages and logs *)

Definition completesTurn (message : LiveServerMessage) : bool :=
  match option_map turnComplete (serverContent message) with
  | Some true => true
  | _ => false
  end.

Definition inputTexts (arrivals : list (LiveServerMessage * N)) : list string :=
  flat_map (fun arrival =>
              match option_map inputTranscription (serverContent (fst arrival)) with
              | Some (Some text) => [text]
              | _ => []
              end) arrivals.

Definition outputTexts (arrivals : list (LiveServerMessage * N)) : list string :=
  flat_map (fun arrival =>
              match option_map outputTranscription (serverContent (fst arrival)) with
              | Some (Some text) => [text]
              | _ => []
              end) arrivals.

Definition joined (texts : list string) : string :=
  fold_right append "" texts.

(** The events a running session produces, as opposed to the ones that
    start or end one. *)
Definition isSessionEvent (e : Event) : bool :=
  match e with
  | OnMessage _ _ _ | AudioProcess _ | Ended _ | AnimationFrame | Render => true
  | _ => false
  end.

Definition isFailure (o : MediaOutcome) : bool :=
  match o with
  | Granted _ _ _ => false
  | _ => true
  end.

Definition obtainedStream (o : MediaOutcome) : option MediaStream :=
  match o with
  | Rejected => None
  | Threw stream => Some stream
  | Granted stream _ _ => Some stream
  end.


(** How often a source node was started, and how often stopped. *)
Definition starts (source : nat) (l : list Effect) : nat :=
  List.length
    (filter (fun e => match e with
                      | SourceStart n _ => Nat.eqb source n
                      | _ => false
                      end) l).

Definition stops (source : nat) (l : list Effect) : nat :=
  List.length
    (filter (fun e => match e with
                      | SourceStop n => Nat.eqb source n
                      | _ => false
                      end) l).

(** Invariant of the reachable worlds, playback side: node identities in
    use are below the allocation counter; the active sources are distinct,
    started once and not stopped; no node is started twice, and none is
    stopped more often than it was started. *)
Record orderlyPlayback (w : World) : Prop := {
  started_are_known :
    forall n, objects w <= n -> starts n (log w) = 0;
  active_distinct : NoDup (sourcesRef w);
  active_started_not_stopped :
    forall n, In n (sourcesRef w) -> starts n (log w) = 1 /\ stops n (log w) = 0;
  started_once : forall n, starts n (log w) <= 1;
  stopped_if_started : forall n, stops n (log w) <= starts n (log w)
}.


(** The partial transcripts one message carries (empty when absent). *)
Definition inputText (message : LiveServerMessage) : string :=
  match option_map inputTranscription (serverContent message) with
  | Some (Some text) => text
  | _ => ""
  end.

Definition outputText (message : LiveServerMessage) : string :=
  match option_map outputTranscription (serverContent message) with
  | Some (Some text) => text
  | _ => ""
  end.

(** ** The calls of one step, in closed form *)

Definition knownSession (w : World) (session : nat) : bool :=
  match nth_error (callbacks w) session with Some _ => true | None => false end.

(** The source node a step creates and starts, if any. *)
Definition scheduledSource (w : World) (e : Event) : option nat :=
  match e with
  | OnMessage session message _ =>
      if knownSession w session && schedules message w then Some (objects w) else None
  | _ => None
  end.

Definition visualizeCalls (analyser visualizer : option nat) (counter : nat)
  : list Effect :=
  match analyser, visualizer with
  | Some _, Some _ => [RequestAnimationFrame (Pos.of_succ_nat counter)]
  | _, _ => []
  end.

Definition stepCalls `{AudioUtils} (w : World) (e : Event) : list Effect :=
  match e with
  | ClickStart =>
      match conversationState w with idle => [GetUserMedia] | _ => [] end
  | ClickStop | Unmount => teardownCalls w
  | UserMedia o =>
      match pendingStarts w with
      | [] => []
      | _ :: _ =>
          match o with
          | Rejected => teardownCalls w
          | Threw stream => teardownCalls (set_mediaStreamRef (Some stream) w)
          | Granted _ _ _ => [Connect (List.length (callbacks w))]
          end
      end
  | OnOpen session flushed =>
      if knownSession w session then
        match audioContextRef w with
        | Some _ =>
            visualizeCalls (Some (S (S (objects w))))
              (if flushed then Some 0 else visualizerRef w) (S (S (S (objects w))))
        | None => []
        end
      else []
  | OnMessage session message currentTime =>
      if knownSession w session then
        ((if schedules message w
          then [SourceStart (objects w) (N.max (nextStartTimeRef w) currentTime)]
          else [])
         ++ (if isInterrupted message
             then map SourceStop (activeAfterAudio message w) else []))%list
      else []
  | OnClose session | OnError session =>
      if knownSession w session then teardownCalls w else []
  | AudioProcess inputData =>
      match scriptProcessorRef w, sessionPromiseRef w with
      | Some _, Some session => [SendRealtimeInput session (createBlob inputData)]
      | _, _ => []
      end
  | Ended _ | Render => []
  | AnimationFrame =>
      match animationFrameRef w with
      | Some _ => visualizeCalls (analyserRef w) (visualizerRef w) (objects w)
      | None => []
      end
  end.

(** The steps that neither start nor stop a source. *)
Definition plainStep `{AudioUtils} (w : World) (e : Event) : Prop :=
  objects w <= objects (step w e)
  /\ scheduledSource w e = None
  /\ (forall n, starts n (stepCalls w e) = 0)
  /\ (forall n, stops n (stepCalls w e) = 0)
  /\ incl (sourcesRef (step w e)) (sourcesRef w)
  /\ (NoDup (sourcesRef w) -> NoDup (sourcesRef (step w e))).

(** What every step does to the sources. *)
Definition playbackStep `{AudioUtils} (w : World) (e : Event) : Prop :=
  objects w <= objects (step w e)
  /\ (forall n, scheduledSource w e = Some n ->
        n = objects w /\ objects w < objects (step w e))
  /\ (forall n, starts n (stepCalls w e)
                = match scheduledSource w e with
                  | Some f => if Nat.eqb n f then 1 else 0
                  | None => 0
                  end)
  /\ (forall n, In n (sourcesRef (step w e)) ->
        In n (sourcesRef w) \/ scheduledSource w e = Some n)
  /\ (forall n, stops n (stepCalls w e)
                <= count_occ Nat.eq_dec
                     (sourcesRef w
                      ++ match scheduledSource w e with Some f => [f] | None => [] end)
                     n)
  /\ (forall n, 0 < stops n (stepCalls w e) -> ~ In n (sourcesRef (step w e)))
  /\ (NoDup (sourcesRef w) -> NoDup (sourcesRef (step w e))).


(** The refs a session acquires. *)
Definition holds (w : World) (stream : MediaStream) (inputCtx outputCtx : AudioContext)
    (session processor : nat) : Prop :=
  mediaStreamRef w = Some stream
  /\ audioContextRef w = Some inputCtx
  /\ outputAudioContextRef w = Some outputCtx
  /\ sessionPromiseRef w = Some session
  /\ scriptProcessorRef w = Some processor.


(** The sample with its sign flipped (the unary minus of the language). *)
Definition negateSample (x : spec_float) : spec_float :=
  match x with
  | S754_zero s => S754_zero (negb s)
  | S754_infinity s => S754_infinity (negb s)
  | S754_nan => S754_nan
  | S754_finite s m e => S754_finite (negb s) m e
  end.

(** * [bufferToWave]: a decoded buffer as a WAV file

    The other consumer of [decodeAudioData] (the podcast view) writes the
    buffer out as 16-bit PCM itself.  The [DataView] is filled from offset 0
    without gaps, so the file is the list of the bytes written, in order.
    Sample rates are whole numbers of hertz. *)

Module Wave.

Record AudioBuffer := {
  numberOfChannels : nat;
  length : nat;
  sampleRate : Z;
  getChannelData : nat -> nat -> spec_float
}.

Record Blob := { bytes : list Z; type : string }.

(** [view.setUint16(pos, data, true)] and [view.setUint32(pos, data, true)]
    on whole numbers: the value modulo the width, low byte first. *)
Definition setUint16 (data : Z) : list Z :=
  let u := (data mod 2 ^ 16)%Z in [(u mod 256)%Z; (u / 256)%Z].

Definition setUint32 (data : Z) : list Z :=
  let u := (data mod 2 ^ 32)%Z in
  [(u mod 256)%Z; ((u / 256) mod 256)%Z; ((u / 65536) mod 256)%Z; (u / 16777216)%Z].

(** [view.setInt16(pos, sample, true)] on a number. *)
Definition setInt16 (sample : spec_float) : list Z := int16Bytes (ToInt16 sample).

Definition one : spec_float := S754_finite false 1 0.
Definition minusOne : spec_float := S754_finite true 1 0.

(** Whether [m * 2^e] is greater than 1. *)
Definition exceedsOne (m : positive) (e : Z) : bool :=
  if (0 <=? e)%Z then (1 <? Z.pos m * 2 ^ e)%Z else (2 ^ (- e) <? Z.pos m)%Z.

(** [Math.min(1, x)] and [Math.max(-1, x)]. *)
Definition min1 (x : spec_float) : spec_float :=
  match x with
  | S754_infinity false => one
  | S754_finite false m e => if exceedsOne m e then one else x
  | _ => x
  end.

Definition maxMinus1 (x : spec_float) : spec_float :=
  match x with
  | S754_infinity true => minusOne
  | S754_finite true m e => if exceedsOne m e then minusOne else x
  | _ => x
  end.

(** [x < 0]; false for the zeros and for NaN. *)
Definition isNegative (x : spec_float) : bool :=
  match x with
  | S754_infinity true | S754_finite true _ _ => true
  | _ => false
  end.

(** The product with 32767, exact in binary64 for a binary32 mantissa. *)
Definition times32767 (x : spec_float) : spec_float :=
  match x with
  | S754_finite s m e => S754_finite s (m * 32767) e
  | _ => x
  end.

Definition scaleSample (x : spec_float) : spec_float :=
  let sample := maxMinus1 (min1 x) in
  if isNegative sample then times32768 sample else times32767 sample.

Definition totalLength (abuffer : AudioBuffer) : nat :=
  length abuffer * numberOfChannels abuffer * 2 + 44.

Definition header (abuffer : AudioBuffer) : list Z :=
  let numOfChan := Z.of_nat (numberOfChannels abuffer) in
  let len := Z.of_nat (totalLength abuffer) in
  (setUint32 0x46464952
   ++ setUint32 (len - 8)
   ++ setUint32 0x45564157
   ++ setUint32 0x20746d66
   ++ setUint32 16
   ++ setUint16 1
   ++ setUint16 numOfChan
   ++ setUint32 (sampleRate abuffer)
   ++ setUint32 (sampleRate abuffer * 2 * numOfChan)
   ++ setUint16 (numOfChan * 2)
   ++ setUint16 16
   ++ setUint32 0x61746164
   ++ setUint32 (len - 40 - 4))%list.

(** The two nested loops: frames outside, channels inside. *)
Definition frameBytes (abuffer : AudioBuffer) (i : nat) : list Z :=
  flat_map (fun j => setInt16 (scaleSample (getChannelData abuffer j i)))
    (seq 0 (numberOfChannels abuffer)).

Definition sampleBytes (abuffer : AudioBuffer) : list Z :=
  flat_map (frameBytes abuffer) (seq 0 (length abuffer)).

Definition bufferToWave (abuffer : AudioBuffer) : Blob :=
  {| bytes := (header abuffer ++ sampleBytes abuffer)%list; type := "audio/wav" |}.

(** Reading the file back. *)
Definition byteAt (l : list Z) (offset : nat) : Z := nth offset l 0%Z.

Definition uint16At (l : list Z) (offset : nat) : Z :=
  (byteAt l offset + 256 * byteAt l (offset + 1))%Z.

Definition uint32At (l : list Z) (offset : nat) : Z :=
  (byteAt l offset + 256 * byteAt l (offset + 1) + 65536 * byteAt l (offset + 2)
   + 16777216 * byteAt l (offset + 3))%Z.

Definition int16At (l : list Z) (offset : nat) : Z :=
  let u := uint16At l offset in if (2 ^ 15 <=? u)%Z then (u - 2 ^ 16)%Z else u.

(** A two-channel buffer of three frames, for examples. *)
Definition sampleBuffer : AudioBuffer :=
  {| numberOfChannels := 2; length := 3; sampleRate := 24000;
     getChannelData := fun j i =>
       match j, i with
       | 0, 0 => S754_finite false 1 (-1)
       | 0, 1 => S754_finite false 3 0
       | 0, 2 => S754_nan
       | 1, 0 => S754_finite true 1 0
       | 1, 1 => S754_infinity true
       | _, _ => S754_zero true
       end |}.

End Wave.

(** * The PDF compressor: selection and result bookkeeping

    The page rendering and the PDF libraries are outside; what they give
    for a file is an input here, either a failure (any of the awaited
    calls throws) or the page count and the length of the saved document.
    While a compression runs no control of the view is rendered, so
    [handleCompress] is one step. *)

Module Pdf.

Record File := { name : string; type : string; size : N }.

Inductive CompressionLevel := low | medium | high.

Record Result := {
  resultName : string;
  url : nat;
  originalSize : N;
  newSize : N
}.

Record ProgressData := {
  currentFileNumber : nat;
  totalFiles : nat;
  fileName : string;
  currentPage : nat;
  totalPages : nat
}.

(** React state of the component, and the sizes of the blobs behind the
    object URLs created so far (an URL is the index of its blob). *)
Record State := {
  files : list File;
  compressionLevel : CompressionLevel;
  isLoading : bool;
  error : option string;
  progressData : option ProgressData;
  results : list Result;
  blobs : list N
}.

Definition init : State :=
  {| files := []; compressionLevel := medium; isLoading := false; error := None;
     progressData := None; results := []; blobs := [] |}.

Definition isPdf (f : File) : bool := String.eqb (type f) "application/pdf".

Definition handleFileChange (selectedFiles : list File) (st : State) : State :=
  let pdfFiles := filter isPdf selectedFiles in
  if Nat.eqb (List.length pdfFiles) 0 then
    {| files := files st; compressionLevel := compressionLevel st;
       isLoading := isLoading st;
       error := Some "No valid PDF files were selected.";
       progressData := progressData st; results := results st; blobs := blobs st |}
  else
    {| files := pdfFiles; compressionLevel := medium; isLoading := isLoading st;
       error := if Nat.ltb (List.length pdfFiles) (List.length selectedFiles)
                then Some "Some non-PDF files were ignored." else None;
       progressData := None; results := []; blobs := blobs st |}.

(** The upload control passes a selection on only when it is not empty. *)
Definition onFileUpload (selectedFiles : list File) (st : State) : State :=
  match selectedFiles with
  | [] => st
  | _ => handleFileChange selectedFiles st
  end.

Definition handleReset (st : State) : State :=
  {| files := []; compressionLevel := compressionLevel st; isLoading := isLoading st;
     error := None; progressData := None; results := []; blobs := blobs st |}.

Definition setCompressionLevel (level : CompressionLevel) (st : State) : State :=
  {| files := files st; compressionLevel := level; isLoading := isLoading st;
     error := error st; progressData := progressData st; results := results st;
     blobs := blobs st |}.

(** A failure carries what the progress display had reached when the call
    threw: nothing before the page count is known, else the page count and
    the page last announced. *)
Inductive Outcome :=
| Failed (reached : option (nat * nat))
| Compressed (numPages : nat) (pdfBytesLength : N).

Definition failureMessage (file : File) : string :=
  "Failed to compress " ++ name file ++ ". It may be corrupted or protected. Skipping.".

(** The loop over the files, from index [i]; [st] carries the state
    updates made so far and [newResults] the local array. *)
Fixpoint compressLoop (outcome : nat -> Outcome) (total : nat) (i : nat)
    (remaining : list File) (newResults : list Result) (st : State) : State :=
  match remaining with
  | [] => st
  | file :: rest =>
      match outcome i with
      | Failed reached =>
          compressLoop outcome total (S i) rest newResults
            {| files := files st; compressionLevel := compressionLevel st;
               isLoading := isLoading st; error := Some (failureMessage file);
               progressData :=
                 match reached with
                 | None => progressData st
                 | Some (numPages, pageNum) =>
                     Some {| currentFileNumber := i + 1; totalFiles := total;
                             fileName := name file; currentPage := pageNum;
                             totalPages := numPages |}
                 end;
               results := results st;
               blobs := blobs st |}
      | Compressed numPages pdfBytesLength =>
          let originalSize := size file in
          let newSize :=
            if (originalSize <=? pdfBytesLength)%N then originalSize
            else pdfBytesLength in
          let url := List.length (blobs st) in
          let newResults :=
            (newResults
             ++ [{| resultName := name file; url := url;
                    originalSize := originalSize; newSize := newSize |}])%list in
          compressLoop outcome total (S i) rest newResults
            {| files := files st; compressionLevel := compressionLevel st;
               isLoading := isLoading st; error := error st;
               progressData :=
                 Some {| currentFileNumber := i + 1; totalFiles := total;
                         fileName := name file; currentPage := numPages;
                         totalPages := numPages |};
               results := newResults;
               blobs := (blobs st ++ [newSize])%list |}
      end
  end.

Definition handleCompress (outcome : nat -> Outcome) (st : State) : State :=
  match files st with
  | [] => st
  | _ =>
      let started :=
        {| files := files st; compressionLevel := compressionLevel st;
           isLoading := true; error := None; progressData := None; results := [];
           blobs := blobs st |} in
      let finished :=
        compressLoop outcome (List.length (files st)) 0 (files st) [] started in
      {| files := files finished; compressionLevel := compressionLevel finished;
         isLoading := false; error := error finished; progressData := None;
         results := results finished; blobs := blobs finished |}
  end.

(** The totals shown above the table. *)
Definition totalOriginalSize (st : State) : N :=
  fold_left (fun acc res => (acc + originalSize res)%N) (results st) 0%N.

Definition totalNewSize (st : State) : N :=
  fold_left (fun acc res => (acc + newSize res)%N) (results st) 0%N.

Inductive Event :=
| Upload (selectedFiles : list File)
| Reset
| SetLevel (level : CompressionLevel)
| Compress (outcome : nat -> Outcome).

(** The three panels of the view: the upload control, the files ready to
    compress (level buttons, Clear, Compress) and the finished results
    (Compress More).  A handler runs only from a control that is rendered. *)
Definition uploadShown (st : State) : bool := Nat.eqb (List.length (files st)) 0.

Definition readyShown (st : State) : bool :=
  Nat.ltb 0 (List.length (files st)) && negb (isLoading st)
  && Nat.eqb (List.length (results st)) 0.

Definition completeShown (st : State) : bool :=
  Nat.ltb 0 (List.length (results st)) && negb (isLoading st).

Definition step (st : State) (e : Event) : State :=
  match e with
  | Upload selectedFiles =>
      if uploadShown st then onFileUpload selectedFiles st else st
  | Reset => if readyShown st || completeShown st then handleReset st else st
  | SetLevel level => if readyShown st then setCompressionLevel level st else st
  | Compress outcome => if readyShown st then handleCompress outcome st else st
  end.

Definition run (events : list Event) (st : State) : State := fold_left step events st.

(** The files of a list that came out compressed, in order, from index [i]. *)
Fixpoint succeeded (outcome : nat -> Outcome) (i : nat) (l : list File) : list File :=
  match l with
  | [] => []
  | file :: rest =>
      match outcome i with
      | Failed _ => succeeded outcome (S i) rest
      | Compressed _ _ => file :: succeeded outcome (S i) rest
      end
  end.

(** The same files, each with the length of its rebuilt document
    ([pdfBytes.length]). *)
Fixpoint rebuilt (outcome : nat -> Outcome) (i : nat) (l : list File) : list (File * N) :=
  match l with
  | [] => []
  | file :: rest =>
      match outcome i with
      | Failed _ => rebuilt outcome (S i) rest
      | Compressed _ pdfBytesLength => (file, pdfBytesLength) :: rebuilt outcome (S i) rest
      end
  end.

(** The results one run of the loop appends, in closed form; [base] is
    the number of blobs that exist before. *)
Fixpoint produced (outcome : nat -> Outcome) (i : nat) (l : list File) (base : nat)
  : list Result :=
  match l with
  | [] => []
  | file :: rest =>
      match outcome i with
      | Failed _ => produced outcome (S i) rest base
      | Compressed _ pdfBytesLength =>
          {| resultName := name file; url := base; originalSize := size file;
             newSize := if (size file <=? pdfBytesLength)%N then size file
                        else pdfBytesLength |}
          :: produced outcome (S i) rest (S base)
      end
  end.

(** A result row is for a listed file. *)
Definition listed (st : State) (r : Result) : Prop :=
  exists f, In f (files st) /\ name f = resultName r /\ size f = originalSize r.

(** What holds of the state between handlers. *)
Definition tidy (st : State) : Prop :=
  Forall (fun f => isPdf f = true) (files st)
  /\ isLoading st = false
  /\ progressData st = None
  /\ Forall (fun r => (newSize r <= originalSize r)%N) (results st)
  /\ Forall (listed st) (results st)
  /\ Forall (fun r => nth_error (blobs st) (url r) = Some (newSize r)) (results st).

(** Examples. *)
Definition report : File := {| name := "report.pdf"; type := "application/pdf"; size := 1000 |}.
Definition photo : File := {| name := "photo.png"; type := "image/png"; size := 300 |}.
Definition scan : File := {| name := "scan.pdf"; type := "application/pdf"; size := 200 |}.

Definition broken : File := {| name := "broken.pdf"; type := "application/pdf"; size := 50 |}.

Definition sampleOutcome (i : nat) : Outcome :=
  match i with
  | 0 => Compressed 3 400
  | 1 => Failed (Some (4, 2))
  | _ => Compressed 1 900
  end.

End Pdf.

(** ** Two starts in flight

    A session is stopped and a new one started; the close of the old
    session (line 173) arrives while the new start still waits for the
    microphone and sets the state back to idle, so the Start button is shown
    again and a second start is accepted; then both requests are granted,
    one after the other. *)
Definition firstStream : MediaStream := {| getTracks := [100; 101] |}.

Definition secondStream : MediaStream := {| getTracks := [102; 103] |}.

Definition overlappingStarts : list Event :=
  (opening
   ++ [ClickStop; Render; ClickStart; Render; OnClose 0; Render; ClickStart; Render;
       UserMedia (Granted firstStream true true);
       UserMedia (Granted secondStream true true)])%list.

(** Whether an event hands the component a stream that has this track. *)
Definition deliversTrack (track : nat) (e : Event) : bool :=
  match e with
  | UserMedia (Threw stream) | UserMedia (Granted stream _ _) =>
      existsb (Nat.eqb track) (getTracks stream)
  | _ => false
  end.

(** No stream held has the track and [stop()] was never called on it. *)
Definition neverStopped (track : nat) (w : World) : Prop :=
  (forall stream, mediaStreamRef w = Some stream -> ~ In track (getTracks stream))
  /\ ~ In (TrackStop track) (log w).
(** * Properties *)

Local Open Scope list_scope.

(** ** Frame lemmas for the blocks of [onmessage] *)

Lemma skipn_length_app {A} (l added : list A) :
  skipn (List.length l) (l ++ added) = added.
Proof. induction l; simpl; auto. Qed.

Lemma logSince_app w w' added :
  log w' = log w ++ added -> logSince w w' = added.
Proof. intros E. unfold logSince. rewrite E. apply skipn_length_app. Qed.

Lemma startTimes_app l l' : startTimes (l ++ l') = startTimes l ++ startTimes l'.
Proof. unfold startTimes. apply flat_map_app. Qed.

Lemma startTimes_stops l : startTimes (map SourceStop l) = [].
Proof. induction l; simpl; auto. Qed.

Section Scheduling.
Context {U : AudioUtils}.

Lemma onmessage_blocks cb m t w :
  onmessage cb m t w = interruptedBlock m (audioBlock m t (transcriptBlocks cb m w)).
Proof. reflexivity. Qed.

Ltac transcript_cases m :=
  unfold transcriptBlocks, turnCompleteBlock, outputTranscriptionBlock,
    inputTranscriptionBlock;
  destruct (option_map turnComplete (serverContent m)) as [[|]|];
  destruct (option_map outputTranscription (serverContent m)) as [[?|]|];
  destruct (option_map inputTranscription (serverContent m)) as [[?|]|];
  reflexivity.

Lemma transcriptBlocks_next cb m w :
  nextStartTimeRef (transcriptBlocks cb m w) = nextStartTimeRef w.
Proof. transcript_cases m. Qed.

Lemma transcriptBlocks_log cb m w : log (transcriptBlocks cb m w) = log w.
Proof. transcript_cases m. Qed.

Lemma transcriptBlocks_output cb m w :
  outputAudioContextRef (transcriptBlocks cb m w) = outputAudioContextRef w.
Proof. transcript_cases m. Qed.

Lemma transcriptBlocks_sources cb m w :
  sourcesRef (transcriptBlocks cb m w) = sourcesRef w.
Proof. transcript_cases m. Qed.

Lemma transcriptBlocks_objects cb m w : objects (transcriptBlocks cb m w) = objects w.
Proof. transcript_cases m. Qed.

Lemma transcriptBlocks_session cb m w :
  sessionPromiseRef (transcriptBlocks cb m w) = sessionPromiseRef w.
Proof. transcript_cases m. Qed.

Lemma transcriptBlocks_callbacks cb m w :
  callbacks (transcriptBlocks cb m w) = callbacks w.
Proof. transcript_cases m. Qed.

Lemma onmessage_session cb m t w :
  sessionPromiseRef (onmessage cb m t w) = sessionPromiseRef w.
Proof.
  rewrite onmessage_blocks. unfold interruptedBlock, audioBlock.
  destruct (isInterrupted m), (truthy (base64Audio m)),
    (outputAudioContextRef (transcriptBlocks cb m w));
    simpl; apply transcriptBlocks_session.
Qed.

Lemma onmessage_callbacks cb m t w :
  callbacks (onmessage cb m t w) = callbacks w.
Proof.
  rewrite onmessage_blocks. unfold interruptedBlock, audioBlock.
  destruct (isInterrupted m), (truthy (base64Audio m)),
    (outputAudioContextRef (transcriptBlocks cb m w));
    simpl; apply transcriptBlocks_callbacks.
Qed.

Lemma onmessage_output cb m t w :
  outputAudioContextRef (onmessage cb m t w) = outputAudioContextRef w.
Proof.
  rewrite onmessage_blocks. unfold interruptedBlock, audioBlock.
  rewrite transcriptBlocks_output.
  destruct (isInterrupted m), (truthy (base64Audio m)), (outputAudioContextRef w) eqn:E;
    simpl; rewrite ?transcriptBlocks_output; auto.
Qed.

Lemma onmessage_next cb m t w :
  nextStartTimeRef (onmessage cb m t w) =
  if isInterrupted m then 0%N
  else if schedules m w
       then (N.max (nextStartTimeRef w) t + chunkDuration m)%N
       else nextStartTimeRef w.
Proof.
  rewrite onmessage_blocks. unfold interruptedBlock, audioBlock, schedules, hasAudio, chunkDuration.
  rewrite transcriptBlocks_output.
  destruct (isInterrupted m), (truthy (base64Audio m)), (outputAudioContextRef w);
    simpl; rewrite ?transcriptBlocks_next; auto.
Qed.

Lemma onmessage_sources cb m t w :
  sourcesRef (onmessage cb m t w) =
  if isInterrupted m then [] else activeAfterAudio m w.
Proof.
  rewrite onmessage_blocks.
  unfold interruptedBlock, audioBlock, activeAfterAudio, schedules, hasAudio.
  rewrite transcriptBlocks_output.
  destruct (isInterrupted m), (truthy (base64Audio m)), (outputAudioContextRef w);
    simpl; rewrite ?transcriptBlocks_sources, ?transcriptBlocks_objects; auto.
Qed.

Lemma onmessage_log cb m t w :
  log (onmessage cb m t w) =
  log w
  ++ (if schedules m w
      then [SourceStart (objects w) (N.max (nextStartTimeRef w) t)] else [])
  ++ (if isInterrupted m then map SourceStop (activeAfterAudio m w) else []).
Proof.
  rewrite onmessage_blocks.
  unfold interruptedBlock, audioBlock, activeAfterAudio, schedules, hasAudio.
  rewrite transcriptBlocks_output.
  destruct (isInterrupted m), (truthy (base64Audio m)), (outputAudioContextRef w);
    simpl;
    rewrite ?transcriptBlocks_log, ?transcriptBlocks_next, ?transcriptBlocks_objects,
      ?transcriptBlocks_sources, <- ?app_assoc, ?app_nil_r; reflexivity.
Qed.

Lemma onmessage_startTimes cb m t w :
  startTimes (logSince w (onmessage cb m t w)) =
  if schedules m w then [N.max (nextStartTimeRef w) t] else [].
Proof.
  rewrite (logSince_app _ _ _ (onmessage_log cb m t w)), startTimes_app.
  destruct (schedules m w), (isInterrupted m);
    simpl; rewrite ?startTimes_stops; reflexivity.
Qed.

Lemma onmessage_log_extends cb m t w :
  log (onmessage cb m t w) = log w ++ logSince w (onmessage cb m t w).
Proof.
  rewrite (logSince_app _ _ _ (onmessage_log cb m t w)). apply onmessage_log.
Qed.

Lemma receive_log_extends cb arrivals w :
  log (receive cb arrivals w) = log w ++ logSince w (receive cb arrivals w).
Proof.
  revert w. induction arrivals as [|[m t] rest IH]; intros w; simpl.
  - unfold logSince. rewrite skipn_all. now rewrite app_nil_r.
  - rewrite IH at 1. rewrite onmessage_log_extends, <- app_assoc.
    symmetry. f_equal. apply logSince_app.
    rewrite IH at 1. rewrite onmessage_log_extends at 1. now rewrite <- app_assoc.
Qed.

Lemma receive_cons_since cb m t rest w :
  logSince w (receive cb ((m, t) :: rest) w) =
  logSince w (onmessage cb m t w)
  ++ logSince (onmessage cb m t w) (receive cb rest (onmessage cb m t w)).
Proof.
  apply logSince_app. simpl.
  rewrite receive_log_extends, onmessage_log_extends at 1. now rewrite <- app_assoc.
Qed.

Lemma receive_output cb arrivals w :
  outputAudioContextRef (receive cb arrivals w) = outputAudioContextRef w.
Proof.
  revert w. induction arrivals as [|[m t] rest IH]; intros w; simpl; auto.
  now rewrite IH, onmessage_output.
Qed.

Lemma receive_plan cb arrivals : forall w,
  Forall (fun arrival => isInterrupted (fst arrival) = false) arrivals ->
  outputAudioContextRef w <> None ->
  startTimes (logSince w (receive cb arrivals w))
  = plan (nextStartTimeRef w) (audioChunks arrivals).
Proof.
  induction arrivals as [|[m t] rest IH]; intros w Hall Hctx.
  - simpl. unfold logSince. now rewrite skipn_all.
  - inversion Hall as [|? ? Hm Hrest]; subst. simpl in Hm.
    rewrite receive_cons_since, startTimes_app, onmessage_startTimes.
    rewrite IH; auto; [|now rewrite onmessage_output].
    rewrite onmessage_next, Hm. unfold schedules, audioChunks. simpl.
    destruct (outputAudioContextRef w); [|congruence].
    rewrite andb_true_r. now destruct (hasAudio m).
Qed.

Lemma plan_length n arrivals : List.length (plan n arrivals) = List.length arrivals.
Proof.
  revert n. induction arrivals as [|[m t] rest IH]; intros n; simpl; auto.
Qed.

Lemma plan_head n arrivals :
  arrivals <> [] ->
  nth 0 (plan n arrivals) 0%N = N.max n (nth 0 (arrivalTimes arrivals) 0%N).
Proof. destruct arrivals as [|[m t] rest]; simpl; congruence. Qed.

Lemma plan_lower_bound arrivals : forall n k,
  k < List.length arrivals ->
  (N.max n (nth 0 (arrivalTimes arrivals) 0) + sumN (firstn k (durations arrivals))
   <= nth k (plan n arrivals) 0)%N.
Proof.
  induction arrivals as [|[m t] rest IH]; intros n k Hk; simpl in Hk; [lia|].
  destruct k as [|k]; simpl; [lia|].
  destruct rest as [|[m' t'] rest']; simpl in Hk; [lia|].
  specialize (IH (N.max n t + chunkDuration m)%N k ltac:(simpl; lia)).
  simpl in IH |- *. lia.
Qed.

Lemma plan_timely arrivals : forall n,
  (forall k, 0 < k < List.length arrivals ->
     (nth k (arrivalTimes arrivals) 0
      <= N.max n (nth 0 (arrivalTimes arrivals) 0)
         + sumN (firstn k (durations arrivals)))%N) ->
  forall k, k < List.length arrivals ->
    nth k (plan n arrivals) 0%N =
    (N.max n (nth 0 (arrivalTimes arrivals) 0)
     + sumN (firstn k (durations arrivals)))%N.
Proof.
  induction arrivals as [|[m t] rest IH]; intros n H k Hk; simpl in Hk; [lia|].
  destruct k as [|k]; simpl; [lia|].
  destruct rest as [|[m' t'] rest']; simpl in Hk; [lia|].
  assert (Ht' : (t' <= N.max n t + chunkDuration m)%N).
  { specialize (H 1 ltac:(simpl; lia)). simpl in H. lia. }
  rewrite (IH (N.max n t + chunkDuration m)%N); [simpl; lia| |simpl; lia].
  intros j Hj. specialize (H (S j) ltac:(simpl in *; lia)).
  simpl in H |- *. lia.
Qed.

Lemma plan_step arrivals : forall n k,
  S k < List.length arrivals ->
  nth (S k) (plan n arrivals) 0%N =
  N.max (nth k (plan n arrivals) 0 + nth k (durations arrivals) 0)%N
        (nth (S k) (arrivalTimes arrivals) 0%N).
Proof.
  induction arrivals as [|[m t] rest IH]; intros n k Hk; simpl in Hk; [lia|].
  destruct k as [|k].
  - destruct rest as [|[m' t'] rest']; simpl in Hk; [lia|]. reflexivity.
  - cbn [plan durations arrivalTimes map nth fst snd].
    apply (IH (N.max n t + chunkDuration m)%N k). lia.
Qed.
End Scheduling.

(** ** Gapless playback (C1) *)

(** C1, as stated, fails: a chunk that arrives after the audio scheduled
    before it has run out starts at the clock time of its arrival.  Two
    one-frame chunks arriving at clock 0 and clock 5 are started at 0 and 5,
    and 5 is not 0 + 1. *)
Lemma late_chunk_leaves_gap :
  let arrivals := [(audioMessage "AAA=", 0%N); (audioMessage "AAA=", 5%N)] in
  let scheduled :=
    startTimes (logSince listeningWorld
                  (receive (H := pcm16Utils) noCallbacks arrivals listeningWorld)) in
  Forall (fun arrival => isInterrupted (fst arrival) = false) arrivals
  /\ audioChunks arrivals = arrivals
  /\ durations (H := pcm16Utils) arrivals = [1%N; 1%N]
  /\ scheduled = [0%N; 5%N]
  /\ nth 1 scheduled 0%N
     <> (nth 0 scheduled 0 + sumN (firstn 1 (durations (H := pcm16Utils) arrivals)))%N.
Proof.
  cbv zeta. repeat split.
  - repeat constructor.
  - vm_compute. discriminate.
Qed.

(** C1 (amended): in a run of messages none of which is an interruption,
    the audio chunks are each scheduled once, in arrival order; chunk [k]
    never starts before the start of the first chunk plus the durations of
    the chunks before it, and it starts exactly then when every chunk after
    the first arrives no later than the end of the audio scheduled before
    it.  In general the first chunk starts at the later of
    [nextStartTimeRef] and the clock reading at its arrival, and every
    further chunk at the later of the end of the chunk before it (that
    chunk's start plus its duration) and the clock reading at its own
    arrival: a chunk that arrives after the chunk before it has ended starts
    at the clock reading of its arrival, and a chunk that arrives no later
    than that end starts at that end. *)
Theorem chunks_play_back_to_back {U : AudioUtils} cb arrivals w :
  let chunks := audioChunks arrivals in
  let scheduled := startTimes (logSince w (receive cb arrivals w)) in
  Forall (fun arrival => isInterrupted (fst arrival) = false) arrivals ->
  outputAudioContextRef w <> None ->
  List.length scheduled = List.length chunks
  /\ (forall k, k < List.length chunks ->
        (nth 0 scheduled 0 + sumN (firstn k (durations chunks))
         <= nth k scheduled 0)%N)
  /\ ((forall k, 0 < k < List.length chunks ->
         (nth k (arrivalTimes chunks) 0
          <= nth 0 scheduled 0 + sumN (firstn k (durations chunks)))%N) ->
      forall k, k < List.length chunks ->
        nth k scheduled 0%N
        = (nth 0 scheduled 0 + sumN (firstn k (durations chunks)))%N)
  /\ (chunks <> [] ->
      nth 0 scheduled 0%N = N.max (nextStartTimeRef w) (nth 0 (arrivalTimes chunks) 0%N))
  /\ (forall k, S k < List.length chunks ->
        let ends := (nth k scheduled 0 + nth k (durations chunks) 0)%N in
        let arrives := nth (S k) (arrivalTimes chunks) 0%N in
        nth (S k) scheduled 0%N = N.max ends arrives
        /\ ((ends < arrives)%N -> nth (S k) scheduled 0%N = arrives)
        /\ ((arrives <= ends)%N -> nth (S k) scheduled 0%N = ends)).
Proof.
  intros chunks scheduled Hquiet Hctx. subst scheduled.
  rewrite (receive_plan cb arrivals w Hquiet Hctx). fold chunks.
  split; [apply plan_length|].
  assert (Hstep : forall k, S k < List.length chunks ->
            let ends := (nth k (plan (nextStartTimeRef w) chunks) 0
                         + nth k (durations chunks) 0)%N in
            let arrives := nth (S k) (arrivalTimes chunks) 0%N in
            nth (S k) (plan (nextStartTimeRef w) chunks) 0%N = N.max ends arrives
            /\ ((ends < arrives)%N ->
                nth (S k) (plan (nextStartTimeRef w) chunks) 0%N = arrives)
            /\ ((arrives <= ends)%N ->
                nth (S k) (plan (nextStartTimeRef w) chunks) 0%N = ends)).
  { intros k Hk ends arrives. subst ends arrives.
    rewrite (plan_step chunks (nextStartTimeRef w) k Hk).
    split; [reflexivity|]. split; intros Hcmp; lia. }
  destruct chunks as [|a rest] eqn:Echunks.
  { simpl. repeat split; try (intros; simpl in *; lia). congruence. }
  rewrite plan_head by discriminate.
  split; [intros k Hk; now apply plan_lower_bound|].
  split; [intros Htimely k Hk; now apply plan_timely|].
  split; [intros _; reflexivity|].
  exact Hstep.
Qed.

Lemma chunks_play_back_to_back_witness :
  let arrivals := [(audioMessage "AAA=", 0%N); (inputMessage "hi", 0%N);
                   (audioMessage "AAAAAA==", 1%N); (audioMessage "AAA=", 2%N)] in
  let chunks := audioChunks arrivals in
  let scheduled :=
    startTimes (logSince listeningWorld
                  (receive (H := pcm16Utils) noCallbacks arrivals listeningWorld)) in
  Forall (fun arrival => isInterrupted (fst arrival) = false) arrivals
  /\ outputAudioContextRef listeningWorld <> None
  /\ (forall k, 0 < k < 3 ->
        (nth k (arrivalTimes chunks) 0
         <= nth 0 scheduled 0
            + sumN (firstn k (durations (H := pcm16Utils) chunks)))%N)
  /\ scheduled = [0%N; 1%N; 3%N]
  /\ (forall k, k < 3 ->
        nth k scheduled 0%N
        = (nth 0 scheduled 0 + sumN (firstn k (durations (H := pcm16Utils) chunks)))%N)
  /\ nth 0 scheduled 0%N
     = N.max (nextStartTimeRef listeningWorld) (nth 0 (arrivalTimes chunks) 0%N).
Proof.
  intros arrivals chunks scheduled.
  assert (Hquiet : Forall (fun arrival => isInterrupted (fst arrival) = false) arrivals)
    by (repeat constructor).
  assert (Hctx : outputAudioContextRef listeningWorld <> None)
    by (vm_compute; discriminate).
  assert (Htimely : forall k, 0 < k < 3 ->
            (nth k (arrivalTimes chunks) 0
             <= nth 0 scheduled 0
                + sumN (firstn k (durations (H := pcm16Utils) chunks)))%N).
  { intros k Hk. destruct k as [|[|[|k]]]; try lia; vm_compute; discriminate. }
  split; [exact Hquiet|]. split; [exact Hctx|]. split; [exact Htimely|].
  split; [vm_compute; reflexivity|].
  pose proof (chunks_play_back_to_back (U := pcm16Utils) noCallbacks
                arrivals listeningWorld Hquiet Hctx) as (_ & _ & Hgapless & Hfirst & _).
  split; [exact (Hgapless Htimely)|].
  apply Hfirst. subst chunks. vm_compute. discriminate.
Defined.

(** ** Interruption (C2) *)

Section Interruption.
Context {U : AudioUtils}.

Lemma quiet_keeps_reset cb quiet : forall w,
  Forall (fun arrival => hasAudio (fst arrival) = false) quiet ->
  nextStartTimeRef w = 0%N ->
  nextStartTimeRef (receive cb quiet w) = 0%N.
Proof.
  induction quiet as [|[m t] rest IH]; intros w Hq Hw; simpl; auto.
  inversion Hq as [|? ? Hm Hrest]; subst. simpl in Hm.
  apply IH; auto. rewrite onmessage_next. unfold schedules. rewrite Hm. simpl.
  now destruct (isInterrupted m).
Qed.

Lemma scheduled_not_before_clock cb m t w s :
  In s (startTimes (logSince w (onmessage cb m t w))) -> (t <= s)%N.
Proof.
  rewrite onmessage_startTimes. destruct (schedules m w); simpl; [|tauto].
  intros [<-|[]]. lia.
Qed.
End Interruption.

(** C2: an interrupted event stops every active buffer (one scheduled by
    the same message included), empties the set and resets
    [nextStartTimeRef] to 0; the next chunk after it, whatever came before
    the interruption and whatever audio-free messages come between, is
    started exactly at the clock reading of its own arrival, and no chunk is
    ever started before the clock reading at which it is scheduled. *)
Theorem interruption_resets_playback {U : AudioUtils} cb m t w :
  isInterrupted m = true ->
  let w' := onmessage cb m t w in
  sourcesRef w' = []
  /\ nextStartTimeRef w' = 0%N
  /\ (forall n, In n (activeAfterAudio m w) -> In (SourceStop n) (logSince w w'))
  /\ (forall n, In n (sourcesRef w) -> In (SourceStop n) (logSince w w'))
  /\ (forall cb' quiet m' t',
        Forall (fun arrival => hasAudio (fst arrival) = false) quiet ->
        hasAudio m' = true ->
        outputAudioContextRef w <> None ->
        let before := receive cb' quiet w' in
        startTimes (logSince before (onmessage cb' m' t' before)) = [t'])
  /\ (forall cb' m' t' w0 s,
        In s (startTimes (logSince w0 (onmessage cb' m' t' w0))) -> (t' <= s)%N).
Proof.
  intros Hi w'. subst w'.
  assert (Hstops : forall n, In n (activeAfterAudio m w) ->
                     In (SourceStop n) (logSince w (onmessage cb m t w))).
  { intros n Hn. rewrite (logSince_app _ _ _ (onmessage_log cb m t w)), Hi.
    apply in_or_app. right. now apply in_map. }
  split; [rewrite onmessage_sources, Hi; reflexivity|].
  split; [rewrite onmessage_next, Hi; reflexivity|].
  split; [exact Hstops|].
  split.
  - intros n Hn. apply Hstops. unfold activeAfterAudio, setAdd.
    destruct (schedules m w); auto. destruct (existsb _ _); auto.
    apply in_or_app; auto.
  - split; [|intros cb' m' t' w0 s; apply scheduled_not_before_clock].
    intros cb' quiet m' t' Hq Hm' Hctx before. subst before.
    rewrite onmessage_startTimes. unfold schedules.
    rewrite Hm', receive_output, onmessage_output.
    destruct (outputAudioContextRef w); [|congruence]. simpl.
    rewrite quiet_keeps_reset; auto.
    + f_equal. lia.
    + rewrite onmessage_next, Hi. reflexivity.
Qed.

Lemma interruption_resets_playback_witness :
  let w' := onmessage (H := pcm16Utils) noCallbacks interruptedMessage 2%N playingWorld in
  isInterrupted interruptedMessage = true
  /\ sourcesRef playingWorld = [6; 7]
  /\ nextStartTimeRef playingWorld = 3%N
  /\ sourcesRef w' = []
  /\ nextStartTimeRef w' = 0%N.
Proof.
  intros w'.
  assert (Hi : isInterrupted interruptedMessage = true) by reflexivity.
  pose proof (interruption_resets_playback (U := pcm16Utils) noCallbacks
                interruptedMessage 2%N playingWorld Hi) as (Hs & Hn & _).
  repeat split; assumption.
Defined.
(** ** Reset to 0 or to the clock (C10) *)

Section ResetChoice.
Context {U : AudioUtils}.

Lemma sameButNext_refl w : sameButNext w w.
Proof. reflexivity. Qed.

Lemma sameButNext_set a b n : sameButNext a b -> sameButNext a (set_nextStartTimeRef n b).
Proof. unfold sameButNext. intros ->. reflexivity. Qed.

Lemma sameButNext_log a b : sameButNext a b -> log a = log b.
Proof. intros H. apply (f_equal log) in H. exact H. Qed.

(** A world is its [nextStartTimeRef]-free part plus that field. *)
Lemma sameButNext_split a b :
  sameButNext a b -> b = set_nextStartTimeRef (nextStartTimeRef b) a.
Proof.
  unfold sameButNext. destruct a, b. unfold set_nextStartTimeRef. simpl.
  intros H. injection H as -> -> -> -> -> -> -> -> -> -> -> -> -> -> -> ->.
  reflexivity.
Qed.

Lemma transcriptBlocks_set_next cb m n w :
  transcriptBlocks cb m (set_nextStartTimeRef n w)
  = set_nextStartTimeRef n (transcriptBlocks cb m w).
Proof.
  unfold transcriptBlocks, turnCompleteBlock, outputTranscriptionBlock,
    inputTranscriptionBlock.
  destruct (option_map turnComplete (serverContent m)) as [[|]|];
  destruct (option_map outputTranscription (serverContent m)) as [[?|]|];
  destruct (option_map inputTranscription (serverContent m)) as [[?|]|];
  reflexivity.
Qed.

Lemma scheduleChunk_set_next base64 t n w :
  N.max n t = N.max (nextStartTimeRef w) t ->
  scheduleChunk base64 t (set_nextStartTimeRef n w) = scheduleChunk base64 t w.
Proof. intros H. unfold scheduleChunk. simpl. rewrite H. reflexivity. Qed.

Lemma audioBlock_set_next m t n w :
  N.max n t = N.max (nextStartTimeRef w) t ->
  sameButNext (audioBlock m t w) (audioBlock m t (set_nextStartTimeRef n w)).
Proof.
  intros H. unfold audioBlock. simpl.
  destruct (truthy (base64Audio m)), (outputAudioContextRef w);
    try reflexivity.
  now rewrite scheduleChunk_set_next.
Qed.

Lemma interruptedBlock_sameButNext m a b :
  sameButNext a b -> sameButNext (interruptedBlock m a) (interruptedBlock m b).
Proof.
  intros H. rewrite (sameButNext_split a b H).
  unfold interruptedBlock. destruct (isInterrupted m); reflexivity.
Qed.

Lemma onmessage_sameButNext cb m t a b :
  sameButNext a b ->
  N.max (nextStartTimeRef a) t = N.max (nextStartTimeRef b) t ->
  sameButNext (onmessage cb m t a) (onmessage cb m t b).
Proof.
  intros Hab Hmax. rewrite (sameButNext_split a b Hab), !onmessage_blocks.
  rewrite transcriptBlocks_set_next.
  apply interruptedBlock_sameButNext, audioBlock_set_next.
  rewrite transcriptBlocks_next. now symmetry.
Qed.

Lemma resetRelated_step cb m t t0 a b :
  resetRelated t0 a b -> (t0 <= t)%N ->
  resetRelated t (onmessage cb m t a) (onmessageClockReset cb m t b).
Proof.
  intros [Hab Hnext] Ht.
  assert (Hmax : N.max (nextStartTimeRef a) t = N.max (nextStartTimeRef b) t) by lia.
  pose proof (onmessage_sameButNext cb m t a b Hab Hmax) as Hstep.
  assert (Hout : outputAudioContextRef a = outputAudioContextRef b).
  { apply (f_equal outputAudioContextRef) in Hab. exact Hab. }
  unfold onmessageClockReset, resetRelated.
  destruct (isInterrupted m) eqn:Hi.
  - split; [now apply sameButNext_set|]. right.
    rewrite onmessage_next, Hi. simpl. split; [reflexivity|lia].
  - split; [exact Hstep|].
    rewrite !onmessage_next, Hi. unfold schedules. rewrite Hout, Hmax.
    destruct (hasAudio m && _); [now left|].
    destruct Hnext as [Heq|[Ha Hb]]; [now left|right; split; [exact Ha|lia]].
Qed.

Lemma resetRelated_run cb arrivals : forall t0 a b,
  resetRelated t0 a b ->
  nondecreasing (t0 :: arrivalTimes arrivals) ->
  sameButNext (receive cb arrivals a) (receiveClockReset cb arrivals b).
Proof.
  induction arrivals as [|[m t] rest IH]; intros t0 a b Hr Hsorted.
  - exact (proj1 Hr).
  - simpl in Hsorted. destruct Hsorted as [Ht Hrest].
    simpl. apply (IH t); [|exact Hrest].
    now apply resetRelated_step with (t0 := t0).
Qed.

Lemma nondecreasing_from_zero times :
  nondecreasing times -> nondecreasing (0%N :: times).
Proof. destruct times; simpl; auto. intros H. split; [lia|exact H]. Qed.
End ResetChoice.

(** C10: with clock readings that never go back, the handler that resets
    [nextStartTimeRef] to the clock reading on an interruption makes exactly
    the calls the source's handler (which resets it to 0) makes, so every
    chunk gets the same start time; the two runs end in worlds that differ at
    most in the value of [nextStartTimeRef]. *)
Theorem reset_to_zero_or_clock_same_schedule {U : AudioUtils} cb arrivals w :
  nondecreasing (arrivalTimes arrivals) ->
  log (receiveClockReset cb arrivals w) = log (receive cb arrivals w)
  /\ startTimes (logSince w (receiveClockReset cb arrivals w))
     = startTimes (logSince w (receive cb arrivals w))
  /\ sameButNext (receive cb arrivals w) (receiveClockReset cb arrivals w).
Proof.
  intros Hsorted.
  assert (Hsame : sameButNext (receive cb arrivals w) (receiveClockReset cb arrivals w)).
  { apply resetRelated_run with (t0 := 0%N).
    - split; [apply sameButNext_refl|now left].
    - now apply nondecreasing_from_zero. }
  pose proof (sameButNext_log _ _ Hsame) as Hlog.
  repeat split; auto. unfold logSince. now rewrite Hlog.
Qed.

Lemma reset_to_zero_or_clock_same_schedule_witness :
  let arrivals := [(audioMessage "AAAAAA==", 0%N); (interruptedMessage, 1%N);
                   (audioMessage "AAA=", 4%N); (audioMessage "AAA=", 4%N)] in
  nondecreasing (arrivalTimes arrivals)
  /\ startTimes (logSince listeningWorld
                   (receive (H := pcm16Utils) noCallbacks arrivals listeningWorld))
     = [0%N; 4%N; 5%N]
  /\ startTimes (logSince listeningWorld
                   (receiveClockReset (H := pcm16Utils) noCallbacks arrivals listeningWorld))
     = startTimes (logSince listeningWorld
                     (receive (H := pcm16Utils) noCallbacks arrivals listeningWorld)).
Proof.
  intros arrivals.
  assert (Hsorted : nondecreasing (arrivalTimes arrivals))
    by (simpl; repeat split; lia).
  split; [exact Hsorted|]. split; [reflexivity|].
  exact (proj1 (proj2 (reset_to_zero_or_clock_same_schedule (U := pcm16Utils)
                         noCallbacks arrivals listeningWorld Hsorted))).
Defined.
(** ** Teardown *)

Lemma stopConversation_closed_form w :
  stopConversation w =
  {| conversationState := idle;
     transcriptions := transcriptions w;
     currentTranscription := currentTranscription w;
     sessionPromiseRef := None; mediaStreamRef := None;
     audioContextRef := None; scriptProcessorRef := None;
     outputAudioContextRef := None;
     nextStartTimeRef := nextStartTimeRef w;
     sourcesRef := if outputOpen w then [] else sourcesRef w;
     analyserRef := analyserRef w; visualizerRef := visualizerRef w;
     animationFrameRef := None; objects := objects w;
     pendingStarts := pendingStarts w; callbacks := callbacks w;
     log := log w ++ teardownCalls w |}.
Proof.
  destruct w as [cs ts ct sp ms ac pr oc nx so an vi af ob pe cbs lg].
  destruct af, sp, ms, pr; destruct ac as [[? []]|]; destruct oc as [[? []]|];
    cbv - [app map]; rewrite <- ?app_assoc, ?app_nil_r; reflexivity.
Qed.

(** Reading a field off a record written out in full. *)
Ltac fields :=
  cbn [conversationState transcriptions currentTranscription sessionPromiseRef
       mediaStreamRef audioContextRef scriptProcessorRef outputAudioContextRef
       nextStartTimeRef sourcesRef analyserRef visualizerRef animationFrameRef
       objects pendingStarts callbacks log].

Lemma stopConversation_idempotent w :
  stopConversation (stopConversation w) = stopConversation w.
Proof.
  rewrite (stopConversation_closed_form w).
  rewrite stopConversation_closed_form.
  unfold teardownCalls at 1, outputOpen at 1. fields.
  cbn [app]. rewrite app_nil_r. reflexivity.
Qed.

Lemma onerror_is_stop w : onerror w = stopConversation w.
Proof.
  unfold onerror. rewrite !stopConversation_closed_form. reflexivity.
Qed.

Lemma stopConversation_since w :
  logSince w (stopConversation w) = teardownCalls w.
Proof. apply logSince_app. now rewrite stopConversation_closed_form. Qed.

Lemma teardown_stops w n :
  In (SourceStop n) (teardownCalls w) -> In n (sourcesRef w).
Proof.
  unfold teardownCalls. intros H.
  repeat (apply in_app_or in H as [H|H]).
  - destruct (animationFrameRef w); simpl in H; intuition discriminate.
  - destruct (sessionPromiseRef w); simpl in H; intuition discriminate.
  - destruct (mediaStreamRef w); [|destruct H].
    apply in_map_iff in H as (track & Ht & _). discriminate.
  - destruct (scriptProcessorRef w); simpl in H; intuition discriminate.
  - destruct (audioContextRef w) as [ctx|]; [|destruct H].
    destruct (isClosed ctx); simpl in H; intuition discriminate.
  - destruct (outputAudioContextRef w) as [ctx|]; [|destruct H].
    destruct (isClosed ctx); [destruct H|].
    apply in_app_or in H as [H|H]; [|simpl in H; intuition discriminate].
    apply in_map_iff in H as (source & [= ->] & Hsource). exact Hsource.
Qed.

(** ** Counting [session.close()] requests *)

Lemma closes_app session l l' :
  closes session (l ++ l') = closes session l + closes session l'.
Proof. unfold closes. now rewrite filter_app, length_app. Qed.

Lemma closes_teardown session w :
  closes session (teardownCalls w) =
  if match sessionPromiseRef w with
     | Some held => Nat.eqb session held
     | None => false
     end
  then 1 else 0.
Proof.
  assert (Htracks : forall l, closes session (map TrackStop l) = 0)
    by (induction l; simpl; auto).
  assert (Hstops : forall l, closes session (map SourceStop l) = 0)
    by (induction l; simpl; auto).
  unfold teardownCalls. rewrite !closes_app.
  destruct (animationFrameRef w), (sessionPromiseRef w) as [held|],
    (mediaStreamRef w), (scriptProcessorRef w), (audioContextRef w) as [ac|],
    (outputAudioContextRef w) as [oc|];
    try destruct (isClosed ac); try destruct (isClosed oc);
    rewrite ?closes_app, ?Hstops, ?Htracks; unfold closes; simpl;
    try destruct (Nat.eqb session held); reflexivity.
Qed.

(** ** The invariant holds in every reachable world *)

Lemma sound_init : sound init.
Proof.
  split; simpl; auto; try discriminate. intros n [].
Qed.

(** A handler that keeps the session fields, adds no source without
    logging its start, never leaves sources behind without an output
    context, and requests no close, keeps the invariant. *)
Lemma sound_frame w w' added :
  sound w ->
  outputAudioContextRef w' = outputAudioContextRef w ->
  (sourcesRef w = [] -> outputAudioContextRef w = None -> sourcesRef w' = []) ->
  (forall n, In n (sourcesRef w') ->
     In n (sourcesRef w) \/ exists t, In (SourceStart n t) added) ->
  sessionPromiseRef w' = sessionPromiseRef w ->
  callbacks w' = callbacks w ->
  log w' = log w ++ added ->
  (forall session, closes session added = 0) ->
  sound w'.
Proof.
  intros [P1 P2 P3 I1 I2 I3 I4] Hout Hsrc Hnew Hsess Hcb Hlog Hadded.
  split; rewrite ?Hout, ?Hsess, ?Hcb, ?Hlog; auto.
  - intros n Hn. destruct (Hnew n Hn) as [Hold|[t Ht]].
    + destruct (P3 n Hold) as [t Ht]. exists t. apply in_or_app. now left.
    + exists t. apply in_or_app. now right.
  - intros session. rewrite closes_app, Hadded. specialize (I1 session). lia.
  - intros session Hs. rewrite closes_app, Hadded, (I2 _ Hs). reflexivity.
  - intros session Hs. rewrite closes_app, Hadded, (I3 _ Hs). reflexivity.
Qed.

(** The same for a handler that does not touch the sources. *)
Lemma sound_frame_same w w' added :
  sound w ->
  outputAudioContextRef w' = outputAudioContextRef w ->
  sourcesRef w' = sourcesRef w ->
  sessionPromiseRef w' = sessionPromiseRef w ->
  callbacks w' = callbacks w ->
  log w' = log w ++ added ->
  (forall session, closes session added = 0) ->
  sound w'.
Proof.
  intros Hs Hout Hsrc. apply sound_frame; auto.
  - now rewrite Hsrc.
  - intros n Hn. left. now rewrite <- Hsrc.
Qed.

Lemma sound_silent w w' :
  sound w ->
  outputAudioContextRef w' = outputAudioContextRef w ->
  sourcesRef w' = sourcesRef w ->
  sessionPromiseRef w' = sessionPromiseRef w ->
  callbacks w' = callbacks w ->
  log w' = log w ->
  sound w'.
Proof.
  intros Hs Hout Hsrc Hsess Hcb Hlog.
  apply sound_frame_same with (w := w) (added := []); auto.
  now rewrite app_nil_r.
Qed.

Lemma sound_stopConversation w : sound w -> sound (stopConversation w).
Proof.
  intros [P1 P2 P3 I1 I2 I3 I4]. rewrite stopConversation_closed_form.
  split; simpl; try discriminate.
  - intros _. unfold outputOpen.
    destruct (outputAudioContextRef w) as [ctx|] eqn:E; [|now apply P2].
    now rewrite (P1 ctx eq_refl).
  - intros n Hn. destruct (outputOpen w); [destruct Hn|].
    destruct (P3 n Hn) as [t Ht]. exists t. apply in_or_app. now left.
  - intros session. rewrite closes_app, closes_teardown.
    destruct (sessionPromiseRef w) as [held|] eqn:E.
    + destruct (Nat.eqb_spec session held) as [->|].
      * rewrite (I2 _ eq_refl). lia.
      * specialize (I1 session). lia.
    + specialize (I1 session); lia.
  - intros session Hs. rewrite closes_app, closes_teardown, (I3 _ Hs).
    destruct (sessionPromiseRef w) as [held|] eqn:E; auto.
    destruct (Nat.eqb_spec session held) as [->|]; auto.
    specialize (I4 _ eq_refl). lia.
Qed.

Section Reachable.
Context {U : AudioUtils}.

Lemma sound_visualize w : sound w -> sound (visualize w).
Proof.
  intros Hs. unfold visualize.
  destruct (analyserRef w), (visualizerRef w); auto.
  eapply sound_frame_same with (added := [_]); eauto; reflexivity.
Qed.

Lemma sound_onmessage cb m t w : sound w -> sound (onmessage cb m t w).
Proof.
  intros Hs.
  apply sound_frame with (w := w)
    (added := (if schedules m w
               then [SourceStart (objects w) (N.max (nextStartTimeRef w) t)] else [])
              ++ (if isInterrupted m
                  then map SourceStop (activeAfterAudio m w) else [])); auto.
  - apply onmessage_output.
  - intros Hsrc Hout. rewrite onmessage_sources. unfold activeAfterAudio, schedules.
    rewrite Hout, andb_false_r. now destruct (isInterrupted m).
  - intros n. rewrite onmessage_sources. unfold activeAfterAudio, setAdd.
    destruct (isInterrupted m); [intros []|].
    destruct (schedules m w); [|intros Hn; now left].
    destruct (existsb _ _); [intros Hn; now left|].
    intros Hn. apply in_app_or in Hn as [Hn|[<-|[]]]; [now left|].
    right. eexists. simpl. now left.
  - apply onmessage_session.
  - apply onmessage_callbacks.
  - apply onmessage_log.
  - intros session. rewrite closes_app.
    assert (Hstops : forall l, closes session (map SourceStop l) = 0)
      by (induction l; simpl; auto).
    destruct (schedules m w), (isInterrupted m); rewrite ?Hstops; reflexivity.
Qed.

Lemma sound_resume captured o w :
  sound w -> sound (startConversationResume captured o w).
Proof.
  intros Hs. destruct o as [|stream|stream inputRunning outputRunning];
    cbn [startConversationResume].
  - apply sound_stopConversation. now apply sound_silent with (w := w).
  - apply sound_stopConversation. now apply sound_silent with (w := w).
  - destruct Hs as [P1 P2 P3 I1 I2 I3 I4]. split; simpl.
    + intros ctx [= <-]. now destruct outputRunning.
    + discriminate.
    + intros n Hn. destruct (P3 n Hn) as [t Ht]. exists t.
      apply in_or_app. now left.
    + intros session. rewrite closes_app.
      change (closes session [Connect _]) with 0. specialize (I1 session). lia.
    + intros session [= <-]. rewrite closes_app, I3; auto.
    + intros session Hlen. rewrite length_app in Hlen. simpl in Hlen.
      rewrite closes_app, I3; [reflexivity|lia].
    + intros session [= <-]. rewrite length_app. simpl. lia.
Qed.

Lemma sound_onopen flushed cb w : sound w -> sound (onopen flushed cb w).
Proof.
  intros Hs. unfold onopen.
  destruct flushed; simpl; destruct (audioContextRef w);
    try apply sound_visualize; now apply sound_silent with (w := w).
Qed.

Lemma sound_step w e : sound w -> sound (step w e).
Proof.
  intros Hs. destruct e as [| | |o|session flushed|session m t|session|session|
                            inputData|source| |]; cbn [step].
  - unfold startConversation. destruct (conversationState w); auto.
    now apply sound_frame_same with (w := w) (added := [GetUserMedia]).
  - now apply sound_stopConversation.
  - now apply sound_stopConversation.
  - destruct (pendingStarts w) as [|captured rest]; auto.
    apply sound_resume. now apply sound_silent with (w := w).
  - unfold withCallbacks. destruct (nth_error _ _) as [cb|]; auto.
    now apply sound_onopen.
  - unfold withCallbacks. destruct (nth_error _ _) as [cb|]; auto.
    now apply sound_onmessage.
  - unfold withCallbacks. destruct (nth_error _ _) as [cb|]; auto.
    now apply sound_stopConversation.
  - unfold withCallbacks. destruct (nth_error _ _) as [cb|]; auto.
    rewrite onerror_is_stop. now apply sound_stopConversation.
  - destruct (scriptProcessorRef w); auto. unfold onaudioprocess.
    destruct (sessionPromiseRef w) eqn:E; auto.
    eapply sound_frame_same with (added := [_]); eauto; reflexivity.
  - apply sound_frame with (w := w) (added := []); auto.
    + simpl. now intros ->.
    + simpl. intros n Hn. left. unfold setDelete in Hn.
      now apply filter_In in Hn.
    + simpl. now rewrite app_nil_r.
  - destruct (animationFrameRef w); auto. now apply sound_visualize.
  - now apply sound_silent with (w := w).
Qed.

Lemma sound_run events : forall w, sound w -> sound (run events w).
Proof.
  induction events as [|e rest IH]; intros w Hs; simpl; auto.
  apply IH. now apply sound_step.
Qed.

Lemma reachable_sound w : reachable w -> sound w.
Proof. intros [events ->]. apply sound_run, sound_init. Qed.

Lemma reachable_outputOpen w :
  reachable w -> sourcesRef w <> [] -> outputOpen w = true.
Proof.
  intros Hr Hsrc. destruct (reachable_sound w Hr) as [P1 P2 _ _ _ _ _].
  unfold outputOpen. destruct (outputAudioContextRef w) as [ctx|] eqn:E.
  - now rewrite (P1 ctx eq_refl).
  - now specialize (P2 eq_refl).
Qed.

Lemma reachable_stop_sources w :
  reachable w -> sourcesRef (stopConversation w) = [].
Proof.
  intros Hr. rewrite stopConversation_closed_form. simpl.
  destruct (sourcesRef w) eqn:E; [now destruct (outputOpen w)|].
  rewrite reachable_outputOpen; auto. congruence.
Qed.
End Reachable.
(** ** Claims about the session lifecycle *)

Section Lifecycle.
Context {U : AudioUtils}.

Lemma teardown_step w e : isTeardown w e = true -> step w e = stopConversation w.
Proof.
  destruct e; simpl; try discriminate; auto; intros H;
    apply Nat.ltb_lt, nth_error_Some in H; unfold withCallbacks;
    destruct (nth_error _ _); try congruence; auto using onerror_is_stop.
Qed.




End Lifecycle.



(** C4: [stopConversation] is a total function of the world, so it can be
    called in any state; calling it again right after itself changes nothing
    and makes no call; from any reachable world, the only call of the
    teardown that can throw, [stop()] on a source, goes to sources that were
    started, and after the second call there is no active source, session
    handle, media stream, audio context, script processor or pending
    animation frame. *)
Theorem stop_twice_is_safe {U : AudioUtils} w :
  reachable w ->
  let once := stopConversation w in
  let twice := stopConversation once in
  (forall any, stopConversation (stopConversation any) = stopConversation any)
  /\ (forall n, In (SourceStop n) (logSince w once) ->
        exists t, In (SourceStart n t) (log w))
  /\ twice = once
  /\ logSince once twice = []
  /\ sourcesRef twice = []
  /\ sessionPromiseRef twice = None
  /\ mediaStreamRef twice = None
  /\ audioContextRef twice = None
  /\ outputAudioContextRef twice = None
  /\ scriptProcessorRef twice = None
  /\ animationFrameRef twice = None
  /\ conversationState twice = idle.
Proof.
  intros Hr once twice. subst once twice.
  split; [exact stopConversation_idempotent|].
  split.
  { intros n Hn. rewrite stopConversation_since in Hn.
    apply (sources_started w (reachable_sound w Hr)). now apply teardown_stops. }
  rewrite stopConversation_idempotent.
  split; [reflexivity|].
  split; [unfold logSince; apply skipn_all|].
  split; [now apply reachable_stop_sources|].
  rewrite stopConversation_closed_form. repeat split.
Qed.

Lemma playingWorld_reachable : reachable (H := pcm16Utils) playingWorld.
Proof.
  exists (opening ++ [OnMessage 0 (audioMessage "AAA=") 0%N;
                      OnMessage 0 (audioMessage "AAAAAA==") 0%N; AnimationFrame]).
  vm_compute. reflexivity.
Defined.

Lemma stop_twice_is_safe_witness :
  sourcesRef playingWorld = [6; 7]
  /\ stopConversation (stopConversation playingWorld) = stopConversation playingWorld
  /\ sourcesRef (stopConversation (stopConversation playingWorld)) = [].
Proof.
  pose proof (stop_twice_is_safe (U := pcm16Utils) playingWorld playingWorld_reachable)
    as (_ & _ & Hsame & _ & Hsources & _).
  split; [reflexivity|]. split; [exact Hsame|exact Hsources].
Defined.

(** What a teardown releases of the refs: after the teardown run by the
    Stop button, by unmounting, by a remote close or by a transport error,
    from any reachable world, no source is active and no stream is held;
    every source that was active and every track of the stream held in
    [mediaStreamRef] has been stopped. *)
Lemma teardown_releases_held_stream {U : AudioUtils} w e :
  reachable w ->
  isTeardown w e = true ->
  let w' := step w e in
  sourcesRef w' = []
  /\ mediaStreamRef w' = None
  /\ (forall n, In n (sourcesRef w) -> In (SourceStop n) (logSince w w'))
  /\ (forall stream track,
        mediaStreamRef w = Some stream -> In track (getTracks stream) ->
        In (TrackStop track) (logSince w w')).
Proof.
  intros Hr He w'. subst w'. rewrite (teardown_step w e He).
  split; [now apply reachable_stop_sources|].
  split; [now rewrite stopConversation_closed_form|].
  rewrite stopConversation_since. unfold teardownCalls. split.
  - intros n Hn.
    assert (Hopen : outputOpen w = true).
    { apply reachable_outputOpen; auto. intros E. now rewrite E in Hn. }
    unfold outputOpen in Hopen.
    destruct (outputAudioContextRef w) as [ctx|]; [|discriminate].
    destruct (isClosed ctx); [discriminate|].
    do 5 (apply in_or_app; right). apply in_or_app; left. now apply in_map.
  - intros stream track -> Ht.
    do 2 (apply in_or_app; right). apply in_or_app; left. now apply in_map.
Qed.

(** C6: [startConversation] called while the state is not idle returns at
    its first line: the world is unchanged, so no call is logged (no
    [getUserMedia], no connect) and no continuation is left waiting. *)
Theorem start_while_busy_is_noop {U : AudioUtils} w :
  conversationState w <> idle ->
  startConversation w = w
  /\ step w ClickStart = w
  /\ logSince w (step w ClickStart) = []
  /\ pendingStarts (step w ClickStart) = pendingStarts w.
Proof.
  intros Hbusy.
  assert (H : startConversation w = w).
  { unfold startConversation. destruct (conversationState w); congruence. }
  simpl. rewrite H. repeat split. unfold logSince. apply skipn_all.
Qed.

Lemma start_while_busy_is_noop_witness :
  conversationState listeningWorld = listening
  /\ step (H := pcm16Utils) listeningWorld ClickStart = listeningWorld.
Proof.
  split; [reflexivity|].
  apply (start_while_busy_is_noop (U := pcm16Utils) listeningWorld).
  vm_compute. discriminate.
Defined.



(** ** Turn completion (C9) *)

(** What the turn-complete block does: it appends the pair the callbacks
    closed over when the session was started, not the pair accumulated in
    [currentTranscription]. *)
Lemma turn_complete_appends_captured {U : AudioUtils} cb m t w :
  option_map turnComplete (serverContent m) = Some true ->
  transcriptions (onmessage cb m t w) = transcriptions w ++ [cbCurrentTranscription cb]
  /\ currentTranscription (onmessage cb m t w) = noTranscription.
Proof.
  intros Ht. rewrite onmessage_blocks.
  assert (Hkeep : forall x,
            transcriptions (interruptedBlock m (audioBlock m t x)) = transcriptions x
            /\ currentTranscription (interruptedBlock m (audioBlock m t x))
               = currentTranscription x).
  { intros x. unfold interruptedBlock, audioBlock.
    destruct (isInterrupted m), (truthy (base64Audio m)), (outputAudioContextRef x);
      split; reflexivity. }
  destruct (Hkeep (transcriptBlocks cb m w)) as [-> ->].
  unfold transcriptBlocks, turnCompleteBlock. rewrite Ht.
  unfold outputTranscriptionBlock, inputTranscriptionBlock.
  destruct (option_map outputTranscription (serverContent m)) as [[?|]|];
    destruct (option_map inputTranscription (serverContent m)) as [[?|]|];
    split; reflexivity.
Qed.

(** C9 fails on the code: in a first session the user says "hi", the model
    answers "hello", and the turn completes; the pending pair holds both
    texts, yet the entry appended to the log is the empty pair captured when
    the session was started. *)
Lemma turn_complete_loses_transcripts :
  let heard := opening ++ [OnMessage 0 (inputMessage "hi") 0%N;
                           OnMessage 0 (outputMessage "hello") 0%N] in
  let completed := heard ++ [OnMessage 0 turnCompleteMessage 0%N] in
  currentTranscription (run (H := pcm16Utils) heard init)
  = {| user := "hi"; model := "hello" |}
  /\ transcriptions (run (H := pcm16Utils) heard init) = []
  /\ transcriptions (run (H := pcm16Utils) completed init)
     = [{| user := ""; model := "" |}]
  /\ currentTranscription (run (H := pcm16Utils) completed init) = noTranscription.
Proof. repeat split. Qed.
(** ** PCM encoding of captured blocks (C7) *)

Local Open Scope Z_scope.

Lemma truncate_times32768 x : truncate (times32768 x) = scaledTrunc x.
Proof.
  destruct x as [s|s| |s m e]; try reflexivity.
  unfold scaledTrunc, scaledNum, scaledDen, times32768, truncate.
  destruct (Z_le_gt_dec 0 (e + 15)) as [Hk|Hk].
  - rewrite Z.shiftl_mul_pow2 by lia.
    rewrite (Z.max_r 0 (e + 15)), (Z.max_l 0 (- (e + 15))) by lia.
    change (2 ^ 0) with 1. now rewrite Z.quot_1_r.
  - rewrite Z.shiftl_div_pow2 by lia.
    rewrite (Z.max_l 0 (e + 15)), (Z.max_r 0 (- (e + 15))) by lia.
    change (2 ^ 0) with 1. rewrite Z.mul_1_r.
    assert (Hpos : 0 < 2 ^ (- (e + 15))) by (apply Z.pow_pos_nonneg; lia).
    destruct s.
    + rewrite Z.quot_opp_l by lia. now rewrite Z.quot_div_nonneg by lia.
    + now rewrite Z.quot_div_nonneg by lia.
Qed.

Lemma ToInt16_range x : - 2 ^ 15 <= ToInt16 x < 2 ^ 15.
Proof.
  unfold ToInt16.
  pose proof (Z.mod_pos_bound (truncate x) (2 ^ 16) ltac:(reflexivity)) as H.
  change (2 ^ 16) with 65536 in *. change (2 ^ 15) with 32768.
  destruct (Z.leb_spec 32768 (truncate x mod 65536)); lia.
Qed.

Lemma ToInt16_congruent x : ToInt16 x mod 2 ^ 16 = truncate x mod 2 ^ 16.
Proof.
  unfold ToInt16. destruct (Z.leb_spec (2 ^ 15) (truncate x mod 2 ^ 16)).
  - replace (truncate x mod 2 ^ 16 - 2 ^ 16)
      with (truncate x mod 2 ^ 16 + (-1) * 2 ^ 16) by ring.
    now rewrite Z_mod_plus_full, Z.mod_mod.
  - now rewrite Z.mod_mod.
Qed.

Lemma ToInt16_exact x :
  - 2 ^ 15 <= truncate x < 2 ^ 15 -> ToInt16 x = truncate x.
Proof.
  intros H. unfold ToInt16.
  change (2 ^ 16) with 65536 in *. change (2 ^ 15) with 32768 in *.
  destruct (Z_lt_le_dec (truncate x) 0) as [Hneg|Hpos].
  - assert (E : truncate x mod 65536 = truncate x + 65536).
    { symmetry. apply (Z.mod_unique _ _ (-1)); lia. }
    rewrite E. destruct (Z.leb_spec 32768 (truncate x + 65536)); lia.
  - rewrite Z.mod_small by lia.
    destruct (Z.leb_spec 32768 (truncate x)); lia.
Qed.

Lemma toInt16Array_nth inputData i sample :
  nth_error inputData i = Some sample ->
  nth_error (toInt16Array inputData) i = Some (ToInt16 (times32768 sample)).
Proof. intros H. unfold toInt16Array. now rewrite nth_error_map, H. Qed.

(** Element [i] of the 16-bit array occupies bytes [2i] and [2i+1]. *)
Lemma int16Bytes_nth int16 : forall i v,
  nth_error int16 i = Some v ->
  nth_error (flat_map int16Bytes int16) (2 * i) = Some ((v mod 2 ^ 16) mod 256)
  /\ nth_error (flat_map int16Bytes int16) (2 * i + 1) = Some ((v mod 2 ^ 16) / 256).
Proof.
  induction int16 as [|x rest IH]; intros [|i] v H; simpl in H; try discriminate.
  - injection H as ->. split; reflexivity.
  - replace (2 * S i)%nat with (S (S (2 * i))) by lia.
    replace (S (S (2 * i)) + 1)%nat with (S (S (2 * i + 1))) by lia.
    simpl. now apply IH.
Qed.

(** C7: the blob is tagged [audio/pcm;rate=16000]; its payload encodes two
    bytes per sample, low byte first, of the 16-bit value stored for it;
    that value is the integer part of [sample * 32768] reduced modulo 2^16
    into the signed range, equal to it whenever it fits, with no clamping:
    the sample 1.0 scales to 32768 and is stored as -32768. *)
Theorem createBlob_scales_without_clamping {U : AudioUtils}
    (inputData : list spec_float) :
  let int16 := toInt16Array inputData in
  let bytes := flat_map int16Bytes int16 in
  mimeType (createBlob inputData) = "audio/pcm;rate=16000"%string
  /\ data (createBlob inputData) = encode bytes
  /\ List.length int16 = List.length inputData
  /\ (forall i sample,
        nth_error inputData i = Some sample ->
        exists v,
          nth_error int16 i = Some v
          /\ - 2 ^ 15 <= v < 2 ^ 15
          /\ v mod 2 ^ 16 = scaledTrunc sample mod 2 ^ 16
          /\ (- 2 ^ 15 <= scaledTrunc sample < 2 ^ 15 -> v = scaledTrunc sample)
          /\ nth_error bytes (2 * i) = Some ((v mod 2 ^ 16) mod 256)
          /\ nth_error bytes (2 * i + 1) = Some ((v mod 2 ^ 16) / 256))
  /\ scaledTrunc (S754_finite false 1 0) = 32768
  /\ toInt16Array [S754_finite false 1 0] = [-32768].
Proof.
  intros int16 bytes. subst int16 bytes.
  split; [reflexivity|]. split; [reflexivity|].
  split; [unfold toInt16Array; apply length_map|].
  split; [|split; reflexivity].
  intros i sample Hi. exists (ToInt16 (times32768 sample)).
  pose proof (toInt16Array_nth _ _ _ Hi) as Hv.
  split; [exact Hv|]. split; [apply ToInt16_range|].
  split; [rewrite ToInt16_congruent; now rewrite truncate_times32768|].
  split.
  - intros Hfit. rewrite <- truncate_times32768 in *. now apply ToInt16_exact.
  - now apply int16Bytes_nth.
Qed.

Lemma createBlob_scales_without_clamping_witness :
  let inputData := [S754_finite false 1 (-1); S754_finite true 3 (-2);
                    S754_finite false 1 0; S754_finite false 3 (-1)] in
  nth_error inputData 3 = Some (S754_finite false 3 (-1))
  /\ scaledTrunc (S754_finite false 3 (-1)) = 49152
  /\ toInt16Array inputData = [16384; -24576; -32768; -16384]
  /\ exists v, nth_error (toInt16Array inputData) 3 = Some v
               /\ v mod 2 ^ 16 = 49152 mod 2 ^ 16.
Proof.
  intros inputData.
  assert (Hi : nth_error inputData 3 = Some (S754_finite false 3 (-1))) by reflexivity.
  destruct (proj1 (proj2 (proj2 (proj2
              (createBlob_scales_without_clamping (U := pcm16Utils) inputData))))
              3%nat _ Hi) as (v & Hv & _ & Hmod & _).
  split; [exact Hi|]. split; [reflexivity|]. split; [reflexivity|].
  exists v. split; [exact Hv|exact Hmod].
Defined.

Local Close Scope Z_scope.
(** * Further properties of the component *)

(** ** Strings *)

Lemma append_nil_r (s : string) : (s ++ "")%string = s.
Proof. induction s as [|c s IH]; simpl; congruence. Qed.

Lemma append_assoc (a b c : string) :
  ((a ++ b) ++ c)%string = (a ++ (b ++ c))%string.
Proof. induction a as [|x a IH]; simpl; congruence. Qed.

Lemma joined_app l l' : joined (l ++ l') = (joined l ++ joined l')%string.
Proof.
  induction l as [|x l IH]; simpl; auto. now rewrite IH, append_assoc.
Qed.

(** ** What [onmessage] leaves alone *)

Lemma transcriptBlocks_closed_form cb m w :
  transcriptBlocks cb m w =
  set_currentTranscription
    (if completesTurn m then noTranscription
     else {| user := user (currentTranscription w) ++ inputText m;
             model := model (currentTranscription w) ++ outputText m |})
    (set_transcriptions
       (transcriptions w
        ++ (if completesTurn m then [cbCurrentTranscription cb] else [])) w).
Proof.
  unfold transcriptBlocks, turnCompleteBlock, outputTranscriptionBlock,
    inputTranscriptionBlock, completesTurn, inputText, outputText.
  destruct w as [cs ts [u v] sp ms ac pr oc nx so an vi af ob pe cbs lg].
  destruct (option_map inputTranscription (serverContent m)) as [[?|]|];
  destruct (option_map outputTranscription (serverContent m)) as [[?|]|];
  destruct (option_map turnComplete (serverContent m)) as [[|]|];
  cbv - [app append]; rewrite ?append_nil_r, ?app_nil_r; reflexivity.
Qed.

Ltac message_frame m w :=
  rewrite onmessage_blocks, transcriptBlocks_closed_form;
  unfold interruptedBlock, audioBlock, scheduleChunk, schedules, hasAudio;
  cbn [outputAudioContextRef set_currentTranscription set_transcriptions];
  destruct (truthy (base64Audio m)), (outputAudioContextRef w), (isInterrupted m);
  reflexivity.

Section MessageFrame.
Context {U : AudioUtils}.

Lemma onmessage_state cb m t w :
  conversationState (onmessage cb m t w) = conversationState w.
Proof. message_frame m w. Qed.

Lemma onmessage_mediaStream cb m t w :
  mediaStreamRef (onmessage cb m t w) = mediaStreamRef w.
Proof. message_frame m w. Qed.

Lemma onmessage_audioContext cb m t w :
  audioContextRef (onmessage cb m t w) = audioContextRef w.
Proof. message_frame m w. Qed.

Lemma onmessage_scriptProcessor cb m t w :
  scriptProcessorRef (onmessage cb m t w) = scriptProcessorRef w.
Proof. message_frame m w. Qed.

Lemma onmessage_pendingStarts cb m t w :
  pendingStarts (onmessage cb m t w) = pendingStarts w.
Proof. message_frame m w. Qed.

Lemma onmessage_objects cb m t w :
  objects (onmessage cb m t w) = if schedules m w then S (objects w) else objects w.
Proof. message_frame m w. Qed.

Lemma onmessage_current cb m t w :
  currentTranscription (onmessage cb m t w) =
  if completesTurn m then noTranscription
  else {| user := user (currentTranscription w) ++ inputText m;
          model := model (currentTranscription w) ++ outputText m |}.
Proof. message_frame m w. Qed.

Lemma onmessage_transcriptions cb m t w :
  transcriptions (onmessage cb m t w) =
  transcriptions w ++ (if completesTurn m then [cbCurrentTranscription cb] else []).
Proof. message_frame m w. Qed.

Lemma receive_app cb l l' w :
  receive cb (l ++ l') w = receive cb l' (receive cb l w).
Proof. unfold receive. apply fold_left_app. Qed.
End MessageFrame.

(** ** The error state never survives a handler *)

Section ErrorState.
Context {U : AudioUtils}.

Lemma visualize_state w : conversationState (visualize w) = conversationState w.
Proof. unfold visualize. now destruct (analyserRef w), (visualizerRef w). Qed.

Lemma onopen_state flushed cb w : conversationState (onopen flushed cb w) = listening.
Proof.
  unfold onopen. destruct flushed; simpl; destruct (audioContextRef w);
    rewrite ?visualize_state; reflexivity.
Qed.

Lemma stopConversation_state w : conversationState (stopConversation w) = idle.
Proof. now rewrite stopConversation_closed_form. Qed.

Lemma step_not_error w e :
  conversationState w <> error -> conversationState (step w e) <> error.
Proof.
  intros Hw.
  destruct e as [| | |o|session flushed|session m t|session|session|
                 inputData|source| |]; cbn [step].
  - unfold startConversation. destruct (conversationState w) eqn:E; simpl; congruence.
  - rewrite stopConversation_state. discriminate.
  - rewrite stopConversation_state. discriminate.
  - destruct (pendingStarts w); auto.
    destruct o; unfold startConversationResume;
      [rewrite stopConversation_state; discriminate ..|exact Hw].
  - unfold withCallbacks. destruct (nth_error _ _); auto.
    rewrite onopen_state. discriminate.
  - unfold withCallbacks. destruct (nth_error _ _); auto.
    now rewrite onmessage_state.
  - unfold withCallbacks. destruct (nth_error _ _); auto.
    unfold onclose. rewrite stopConversation_state. discriminate.
  - unfold withCallbacks. destruct (nth_error _ _); auto.
    rewrite onerror_is_stop, stopConversation_state. discriminate.
  - destruct (scriptProcessorRef w); auto. unfold onaudioprocess.
    now destruct (sessionPromiseRef w).
  - exact Hw.
  - destruct (animationFrameRef w); auto. now rewrite visualize_state.
  - exact Hw.
Qed.

Lemma run_not_error events : forall w,
  conversationState w <> error -> conversationState (run events w) <> error.
Proof.
  induction events as [|e rest IH]; intros w Hw; simpl; auto.
  apply IH. now apply step_not_error.
Qed.
End ErrorState.

(** X1: between handlers the component is never in the [error] state: the
    two places that set it (the [onerror] callback and the [catch] of
    [startConversation]) run the teardown next, which sets [idle].  So the
    view always shows exactly one control and it is never the error
    notice. *)
Theorem error_notice_is_never_shown {U : AudioUtils} w :
  reachable w ->
  conversationState w <> error
  /\ ~ In ErrorNotice (controls (render w))
  /\ List.length (controls (render w)) = 1.
Proof.
  intros [events ->].
  assert (H : conversationState (run events init) <> error)
    by (apply run_not_error; discriminate).
  unfold render. cbn [controls].
  destruct (conversationState (run events init)); simpl; intuition congruence.
Qed.

Lemma error_notice_is_never_shown_witness :
  let w := run (H := pcm16Utils) (opening ++ [OnError 0]) init in
  controls (render w) = [StartButton] /\ ~ In ErrorNotice (controls (render w)).
Proof.
  intros w. split; [reflexivity|].
  assert (Hr : reachable (H := pcm16Utils) w) by (eexists; reflexivity).
  exact (proj1 (proj2 (error_notice_is_never_shown (U := pcm16Utils) w Hr))).
Defined.

(** ** Transcripts *)

Section Transcripts.
Context {U : AudioUtils}.

Lemma inputTexts_cons m t rest :
  joined (inputTexts ((m, t) :: rest)) = (inputText m ++ joined (inputTexts rest))%string.
Proof.
  unfold inputTexts, inputText. cbn [flat_map fst].
  now destruct (option_map inputTranscription (serverContent m)) as [[?|]|].
Qed.

Lemma outputTexts_cons m t rest :
  joined (outputTexts ((m, t) :: rest))
  = (outputText m ++ joined (outputTexts rest))%string.
Proof.
  unfold outputTexts, outputText. cbn [flat_map fst].
  now destruct (option_map outputTranscription (serverContent m)) as [[?|]|].
Qed.

Lemma receive_pending cb arrivals : forall w,
  Forall (fun arrival => completesTurn (fst arrival) = false) arrivals ->
  currentTranscription (receive cb arrivals w) =
  {| user := user (currentTranscription w) ++ joined (inputTexts arrivals);
     model := model (currentTranscription w) ++ joined (outputTexts arrivals) |}.
Proof.
  induction arrivals as [|[m t] rest IH]; intros w Hall.
  - simpl. rewrite !append_nil_r. now destruct (currentTranscription w).
  - inversion Hall as [|? ? Hm Hrest]; subst. simpl in Hm.
    cbn [receive fold_left fst snd]. fold (receive cb rest (onmessage cb m t w)).
    rewrite IH by assumption. rewrite onmessage_current, Hm. cbn [user model].
    now rewrite inputTexts_cons, outputTexts_cons, !append_assoc.
Qed.

Lemma receive_transcriptions cb arrivals : forall w,
  transcriptions (receive cb arrivals w) =
  transcriptions w
  ++ repeat (cbCurrentTranscription cb)
       (List.length (filter (fun arrival => completesTurn (fst arrival)) arrivals)).
Proof.
  induction arrivals as [|[m t] rest IH]; intros w.
  - simpl. now rewrite app_nil_r.
  - cbn [receive fold_left fst snd]. fold (receive cb rest (onmessage cb m t w)).
    rewrite IH, onmessage_transcriptions. cbn [filter fst].
    destruct (completesTurn m); simpl; rewrite <- ?app_assoc, ?app_nil_r; reflexivity.
Qed.
End Transcripts.

(** X2: the pending turn holds exactly the partial transcripts received
    since the last turn completion, concatenated in arrival order: with no
    completion in the run they extend what was pending before, and after a
    completion only the texts of the later messages remain (the texts of the
    completing message itself are dropped). *)
Theorem pending_turn_accumulates_since_last_completion {U : AudioUtils} cb arrivals w :
  (Forall (fun arrival => completesTurn (fst arrival) = false) arrivals ->
   currentTranscription (receive cb arrivals w) =
   {| user := user (currentTranscription w) ++ joined (inputTexts arrivals);
      model := model (currentTranscription w) ++ joined (outputTexts arrivals) |})
  /\ (forall before last after,
        arrivals = before ++ last :: after ->
        completesTurn (fst last) = true ->
        Forall (fun arrival => completesTurn (fst arrival) = false) after ->
        currentTranscription (receive cb arrivals w) =
        {| user := joined (inputTexts after); model := joined (outputTexts after) |}).
Proof.
  split; [apply receive_pending|].
  intros before [m t] after -> Hlast Hafter. simpl in Hlast.
  rewrite receive_app. cbn [receive fold_left fst snd].
  fold (receive cb before w).
  fold (receive cb after (onmessage cb m t (receive cb before w))).
  rewrite receive_pending by assumption.
  now rewrite onmessage_current, Hlast.
Qed.

Lemma pending_turn_accumulates_since_last_completion_witness :
  let before := [(inputMessage "old", 0%N)] in
  let after := [(inputMessage "how ", 1%N); (outputMessage "fine", 2%N);
                (inputMessage "are you", 3%N)] in
  let arrivals := before ++ (turnCompleteMessage, 0%N) :: after in
  Forall (fun arrival => completesTurn (fst arrival) = false) after
  /\ currentTranscription (receive (H := pcm16Utils) noCallbacks arrivals listeningWorld)
     = {| user := "how are you"; model := "fine" |}.
Proof.
  intros before after arrivals.
  assert (Hafter : Forall (fun arrival => completesTurn (fst arrival) = false) after)
    by (repeat constructor).
  split; [exact Hafter|].
  exact (proj2 (pending_turn_accumulates_since_last_completion (U := pcm16Utils)
                  noCallbacks arrivals listeningWorld)
           before (turnCompleteMessage, 0%N) after eq_refl eq_refl Hafter).
Defined.

(** ** The log of completed turns *)

Section TurnLog.
Context {U : AudioUtils}.

Lemma visualize_transcriptions w : transcriptions (visualize w) = transcriptions w.
Proof. unfold visualize. now destruct (analyserRef w), (visualizerRef w). Qed.

Lemma onopen_transcriptions flushed cb w :
  transcriptions (onopen flushed cb w) = transcriptions w.
Proof.
  unfold onopen. destruct flushed; simpl; destruct (audioContextRef w);
    rewrite ?visualize_transcriptions; reflexivity.
Qed.

Lemma stopConversation_transcriptions w :
  transcriptions (stopConversation w) = transcriptions w.
Proof. now rewrite stopConversation_closed_form. Qed.

Lemma step_extends_transcriptions w e :
  (e = ClickStart -> conversationState w <> idle) ->
  exists added,
    transcriptions (step w e) = transcriptions w ++ added /\ List.length added <= 1.
Proof.
  intros He.
  assert (Hsame : forall w', transcriptions w' = transcriptions w ->
            exists added,
              transcriptions w' = transcriptions w ++ added /\ List.length added <= 1).
  { intros w' ->. exists []. rewrite app_nil_r. simpl. auto. }
  destruct e as [| | |o|session flushed|session m t|session|session|
                 inputData|source| |]; cbn [step].
  - apply Hsame. unfold startConversation.
    destruct (conversationState w) eqn:E; auto. now specialize (He eq_refl).
  - apply Hsame, stopConversation_transcriptions.
  - apply Hsame, stopConversation_transcriptions.
  - apply Hsame. destruct (pendingStarts w); auto.
    destruct o; unfold startConversationResume;
      rewrite ?stopConversation_transcriptions; reflexivity.
  - apply Hsame. unfold withCallbacks. destruct (nth_error _ _); auto.
    apply onopen_transcriptions.
  - unfold withCallbacks. destruct (nth_error _ _) as [cb|]; [|now apply Hsame].
    rewrite onmessage_transcriptions. eexists. split; [reflexivity|].
    destruct (completesTurn m); simpl; auto.
  - apply Hsame. unfold withCallbacks. destruct (nth_error _ _); auto.
    apply stopConversation_transcriptions.
  - apply Hsame. unfold withCallbacks. destruct (nth_error _ _); auto.
    rewrite onerror_is_stop. apply stopConversation_transcriptions.
  - apply Hsame. destruct (scriptProcessorRef w); auto. unfold onaudioprocess.
    now destruct (sessionPromiseRef w).
  - now apply Hsame.
  - apply Hsame. destruct (animationFrameRef w); auto. apply visualize_transcriptions.
  - now apply Hsame.
Qed.
End TurnLog.

(** X3: the log of completed turns is append-only.  Every event other than
    a Start click accepted in the idle state keeps the entries already
    logged, in order, and adds at most one; that click is the only thing that
    empties the log.  Over a run of messages of one session the log grows by
    one entry per message flagged turn-complete, each entry being the pair
    the callbacks of that session closed over. *)
Theorem turn_log_is_append_only {U : AudioUtils} w e :
  (e = ClickStart -> conversationState w <> idle) ->
  (exists added,
     transcriptions (step w e) = transcriptions w ++ added /\ List.length added <= 1)
  /\ (forall idleWorld,
        conversationState idleWorld = idle ->
        transcriptions (step idleWorld ClickStart) = []
        /\ currentTranscription (step idleWorld ClickStart) = noTranscription)
  /\ (forall cb arrivals,
        transcriptions (receive cb arrivals w) =
        transcriptions w
        ++ repeat (cbCurrentTranscription cb)
             (List.length
                (filter (fun arrival => completesTurn (fst arrival)) arrivals))).
Proof.
  intros He. split; [now apply step_extends_transcriptions|]. split.
  - intros idleWorld Hidle. cbn [step]. unfold startConversation. rewrite Hidle.
    split; reflexivity.
  - intros cb arrivals. apply receive_transcriptions.
Qed.

Lemma turn_log_is_append_only_witness :
  let w := run (H := pcm16Utils) [OnMessage 0 turnCompleteMessage 0%N] listeningWorld in
  transcriptions w = [noTranscription]
  /\ exists added,
       transcriptions (step (H := pcm16Utils) w (OnMessage 0 turnCompleteMessage 1%N))
       = transcriptions w ++ added
       /\ List.length added <= 1.
Proof.
  intros w. split; [reflexivity|].
  apply (turn_log_is_append_only (U := pcm16Utils) w
           (OnMessage 0 turnCompleteMessage 1%N)).
  discriminate.
Defined.

(** ** A start that fails *)

Lemma teardownCalls_kinds w e :
  In e (teardownCalls w) ->
  match e with
  | CancelAnimationFrame _ | SessionClose _ | TrackStop _ | Disconnect _
  | ContextClose _ | SourceStop _ => True
  | _ => False
  end.
Proof.
  unfold teardownCalls. intros H.
  repeat (apply in_app_or in H as [H|H]).
  - destruct (animationFrameRef w); simpl in H; [destruct H as [<-|[]]|destruct H]; exact I.
  - destruct (sessionPromiseRef w); simpl in H; [destruct H as [<-|[]]|destruct H]; exact I.
  - destruct (mediaStreamRef w); [|destruct H].
    apply in_map_iff in H as (track & <- & _). exact I.
  - destruct (scriptProcessorRef w); simpl in H; [destruct H as [<-|[]]|destruct H]; exact I.
  - destruct (audioContextRef w) as [ctx|]; [|destruct H].
    destruct (isClosed ctx); simpl in H; [destruct H|destruct H as [<-|[]]]; exact I.
  - destruct (outputAudioContextRef w) as [ctx|]; [|destruct H].
    destruct (isClosed ctx); [destruct H|].
    apply in_app_or in H as [H|[<-|[]]]; [|exact I].
    apply in_map_iff in H as (source & <- & _). exact I.
Qed.

(** X4: when the awaited part of [startConversation] fails (the request is
    rejected, or a later statement throws once the stream is there), the
    [catch] leaves the component idle with no session, stream, context,
    processor or animation frame held, connects nothing, and stops every
    track of a stream it had obtained. *)
Theorem failed_start_releases_everything {U : AudioUtils} w captured rest o :
  pendingStarts w = captured :: rest ->
  isFailure o = true ->
  let w' := step w (UserMedia o) in
  conversationState w' = idle
  /\ sessionPromiseRef w' = None /\ mediaStreamRef w' = None
  /\ audioContextRef w' = None /\ outputAudioContextRef w' = None
  /\ scriptProcessorRef w' = None /\ animationFrameRef w' = None
  /\ pendingStarts w' = rest
  /\ (forall session, ~ In (Connect session) (logSince w w'))
  /\ (forall stream track,
        obtainedStream o = Some stream -> In track (getTracks stream) ->
        In (TrackStop track) (logSince w w')).
Proof.
  intros Hp Ho w'. subst w'. cbn [step]. rewrite Hp.
  destruct o as [|stream|stream inputRunning outputRunning]; [| |discriminate Ho];
    unfold startConversationResume;
    match goal with |- context [stopConversation ?x] => set (failing := x) end;
    assert (Hlog : logSince w (stopConversation failing) = teardownCalls failing)
      by (apply logSince_app; rewrite stopConversation_closed_form; reflexivity);
    rewrite Hlog, stopConversation_closed_form; cbn [conversationState
      sessionPromiseRef mediaStreamRef audioContextRef outputAudioContextRef
      scriptProcessorRef animationFrameRef pendingStarts];
    repeat (split; [reflexivity|]); split;
    try (intros session Hin; apply teardownCalls_kinds in Hin; exact Hin).
  - intros stream track [=].
  - intros stream' track [= <-] Ht. unfold teardownCalls.
    do 2 (apply in_or_app; right). apply in_or_app; left.
    subst failing. cbn [mediaStreamRef set_conversationState set_mediaStreamRef].
    now apply in_map.
Qed.

Lemma failed_start_releases_everything_witness :
  let w := step (H := pcm16Utils) init ClickStart in
  let w' := step (H := pcm16Utils) w (UserMedia (Threw microphone)) in
  pendingStarts w = [noTranscription]
  /\ conversationState w' = idle
  /\ In (TrackStop 7) (logSince w w').
Proof.
  intros w w'.
  assert (Hp : pendingStarts w = [noTranscription]) by reflexivity.
  pose proof (failed_start_releases_everything (U := pcm16Utils) w noTranscription []
                (Threw microphone) Hp eq_refl)
    as (Hidle & _ & _ & _ & _ & _ & _ & _ & _ & Htracks).
  split; [exact Hp|]. split; [exact Hidle|].
  apply (Htracks microphone 7); [reflexivity|simpl; auto].
Defined.

(** ** Messages that arrive without an output context *)

Section LateMessages.
Context {U : AudioUtils}.

Lemma late_messages cb arrivals : forall w,
  outputAudioContextRef w = None ->
  (forall e, In e (logSince w (receive cb arrivals w)) -> exists n, e = SourceStop n)
  /\ objects (receive cb arrivals w) = objects w
  /\ incl (sourcesRef (receive cb arrivals w)) (sourcesRef w).
Proof.
  induction arrivals as [|[m t] rest IH]; intros w Hctx.
  - simpl. unfold logSince. rewrite skipn_all. repeat split; [intros e []|apply incl_refl].
  - assert (Hs : schedules m w = false)
      by (unfold schedules; rewrite Hctx; apply andb_false_r).
    assert (Hctx' : outputAudioContextRef (onmessage cb m t w) = None)
      by (now rewrite onmessage_output).
    destruct (IH _ Hctx') as (Hlog & Hobj & Hsrc).
    rewrite receive_cons_since. cbn [receive fold_left fst snd].
    fold (receive cb rest (onmessage cb m t w)).
    split; [|split].
    + intros e He. apply in_app_or in He as [He|He]; [|now apply Hlog].
      rewrite (logSince_app _ _ _ (onmessage_log cb m t w)), Hs in He.
      simpl in He. destruct (isInterrupted m); [|destruct He].
      apply in_map_iff in He as (n & <- & _). now exists n.
    + now rewrite Hobj, onmessage_objects, Hs.
    + intros n Hn. apply Hsrc in Hn. rewrite onmessage_sources in Hn.
      unfold activeAfterAudio in Hn. rewrite Hs in Hn.
      now destruct (isInterrupted m).
Qed.

Lemma late_messages_calls cb arrivals : forall w,
  outputAudioContextRef w = None ->
  let barges := existsb (fun arrival => isInterrupted (fst arrival)) arrivals in
  logSince w (receive cb arrivals w)
  = (if barges then map SourceStop (sourcesRef w) else [])
  /\ sourcesRef (receive cb arrivals w) = (if barges then [] else sourcesRef w).
Proof.
  induction arrivals as [|[m t] rest IH]; intros w Hctx barges; subst barges.
  - simpl. unfold logSince. rewrite skipn_all. auto.
  - assert (Hs : schedules m w = false)
      by (unfold schedules; rewrite Hctx; apply andb_false_r).
    assert (Hctx' : outputAudioContextRef (onmessage cb m t w) = None)
      by (now rewrite onmessage_output).
    destruct (IH _ Hctx') as (Hlog & Hsrc).
    rewrite receive_cons_since. cbn [receive fold_left fst snd existsb].
    fold (receive cb rest (onmessage cb m t w)).
    rewrite Hlog, Hsrc, onmessage_sources.
    rewrite (logSince_app _ _ _ (onmessage_log cb m t w)), Hs.
    unfold activeAfterAudio. rewrite Hs.
    destruct (isInterrupted m),
      (existsb (fun arrival => isInterrupted (fst arrival)) rest);
      simpl; rewrite ?app_nil_r; auto.
Qed.
End LateMessages.

(** X5: while no output context is held (before a session, and after any
    teardown) the handler starts no playback whatever the messages carry:
    no source node is created or started, the active set only loses members,
    and the only calls made are [stop()] on sources still in it.  Exactly:
    the run makes no call unless one of its messages is an interruption, and
    then it calls [stop()] once on each source that was in the set, in set
    order, and the set is empty afterwards.  In a reachable world the set is
    empty whenever no output context is held, so no call is made at all. *)
Theorem messages_without_output_context_start_nothing {U : AudioUtils} cb arrivals w :
  outputAudioContextRef w = None ->
  let w' := receive cb arrivals w in
  let barges := existsb (fun arrival => isInterrupted (fst arrival)) arrivals in
  startTimes (logSince w w') = []
  /\ (forall n when, ~ In (SourceStart n when) (logSince w w'))
  /\ objects w' = objects w
  /\ incl (sourcesRef w') (sourcesRef w)
  /\ outputAudioContextRef w' = None
  /\ (forall e, In e (logSince w w') -> exists n, e = SourceStop n /\ In n (sourcesRef w))
  /\ logSince w w' = (if barges then map SourceStop (sourcesRef w) else [])
  /\ sourcesRef w' = (if barges then [] else sourcesRef w)
  /\ (reachable w -> logSince w w' = [] /\ sourcesRef w' = []).
Proof.
  intros Hctx w' barges. subst w' barges.
  destruct (late_messages cb arrivals w Hctx) as (Hlog & Hobj & Hsrc).
  destruct (late_messages_calls cb arrivals w Hctx) as (Hcalls & Hset).
  cbv zeta in Hcalls, Hset.
  assert (Hnone : forall n when,
            ~ In (SourceStart n when) (logSince w (receive cb arrivals w))).
  { intros n when Hin. destruct (Hlog _ Hin) as [x Hx]. discriminate. }
  split.
  - destruct (startTimes _) as [|s rest] eqn:E; auto.
    assert (Hin : In s (startTimes (logSince w (receive cb arrivals w))))
      by (rewrite E; now left).
    unfold startTimes in Hin. apply in_flat_map in Hin as (e & He & Hs).
    destruct (Hlog _ He) as [x ->]. destruct Hs.
  - split; [exact Hnone|]. split; [exact Hobj|]. split; [exact Hsrc|].
    split; [now rewrite receive_output|].
    split.
    { intros e He. rewrite Hcalls in He.
      destruct (existsb _ arrivals); [|destruct He].
      apply in_map_iff in He as (n & <- & Hn). now exists n. }
    split; [exact Hcalls|]. split; [exact Hset|].
    intros Hr. rewrite Hcalls, Hset.
    rewrite (sources_need_output w (reachable_sound w Hr) Hctx).
    now destruct (existsb _ arrivals).
Qed.

Lemma messages_without_output_context_start_nothing_witness :
  let w := stopConversation playingWorld in
  let w' := receive (H := pcm16Utils) noCallbacks
              [(audioMessage "AAA=", 9%N); (interruptedMessage, 9%N)] w in
  outputAudioContextRef w = None
  /\ startTimes (logSince w w') = []
  /\ log w' = log w
  /\ logSince w w' = map SourceStop (sourcesRef w).
Proof.
  intros w w'.
  assert (Hctx : outputAudioContextRef w = None) by reflexivity.
  pose proof (messages_without_output_context_start_nothing (U := pcm16Utils)
                noCallbacks [(audioMessage "AAA=", 9%N); (interruptedMessage, 9%N)]
                w Hctx) as (Hnone & _ & _ & _ & _ & _ & Hcalls & _).
  split; [exact Hctx|]. split; [exact Hnone|]. split; [vm_compute; reflexivity|].
  exact Hcalls.
Defined.

(** ** The calls of one step *)

Section StepCalls.
Context {U : AudioUtils}.

Lemma visualize_log w :
  log (visualize w)
  = log w ++ visualizeCalls (analyserRef w) (visualizerRef w) (objects w).
Proof.
  unfold visualize, visualizeCalls.
  destruct (analyserRef w), (visualizerRef w); simpl; now rewrite ?app_nil_r.
Qed.

Lemma step_log w e : log (step w e) = log w ++ stepCalls w e.
Proof.
  destruct e as [| | |o|session flushed|session m t|session|session|
                 inputData|source| |]; cbn [step stepCalls];
    unfold withCallbacks, knownSession.
  - unfold startConversation. destruct (conversationState w); simpl;
      now rewrite ?app_nil_r.
  - now rewrite stopConversation_closed_form.
  - now rewrite stopConversation_closed_form.
  - destruct (pendingStarts w); [now rewrite app_nil_r|].
    destruct o; unfold startConversationResume;
      rewrite ?stopConversation_closed_form; reflexivity.
  - destruct (nth_error _ _); [|now rewrite app_nil_r].
    unfold onopen. destruct flushed; simpl;
      destruct (audioContextRef w); rewrite ?visualize_log; simpl;
      now rewrite ?app_nil_r.
  - destruct (nth_error _ _); [|now rewrite app_nil_r]. apply onmessage_log.
  - destruct (nth_error _ _); [|now rewrite app_nil_r].
    unfold onclose. now rewrite stopConversation_closed_form.
  - destruct (nth_error _ _); [|now rewrite app_nil_r].
    rewrite onerror_is_stop. now rewrite stopConversation_closed_form.
  - destruct (scriptProcessorRef w); [|now rewrite app_nil_r].
    unfold onaudioprocess. destruct (sessionPromiseRef w); simpl;
      now rewrite ?app_nil_r.
  - simpl. now rewrite app_nil_r.
  - destruct (animationFrameRef w); [|now rewrite app_nil_r]. apply visualize_log.
  - simpl. now rewrite app_nil_r.
Qed.

Lemma run_snoc events e w : run (events ++ [e]) w = step (run events w) e.
Proof. unfold run. now rewrite fold_left_app. Qed.
End StepCalls.

(** ** Counting starts and stops of source nodes *)

Lemma starts_app n l l' : starts n (l ++ l') = starts n l + starts n l'.
Proof. unfold starts. now rewrite filter_app, length_app. Qed.

Lemma stops_app n l l' : stops n (l ++ l') = stops n l + stops n l'.
Proof. unfold stops. now rewrite filter_app, length_app. Qed.

Lemma starts_map_stop n l : starts n (map SourceStop l) = 0.
Proof. induction l; simpl; auto. Qed.

Lemma stops_map_stop n l : stops n (map SourceStop l) = count_occ Nat.eq_dec l n.
Proof.
  induction l as [|x l IH]; simpl; auto.
  unfold stops in *. simpl.
  destruct (Nat.eqb_spec n x) as [Heq|Hne]; destruct (Nat.eq_dec x n) as [E|E];
    simpl; try congruence; now rewrite IH.
Qed.

Lemma starts_map_track n l : starts n (map TrackStop l) = 0.
Proof. induction l; simpl; auto. Qed.

Lemma stops_map_track n l : stops n (map TrackStop l) = 0.
Proof. induction l; simpl; auto. Qed.

Lemma starts_teardown n w : starts n (teardownCalls w) = 0.
Proof.
  unfold teardownCalls. rewrite !starts_app.
  destruct (animationFrameRef w), (sessionPromiseRef w), (mediaStreamRef w),
    (scriptProcessorRef w), (audioContextRef w) as [ac|],
    (outputAudioContextRef w) as [oc|];
    try destruct (isClosed ac); try destruct (isClosed oc);
    rewrite ?starts_app, ?starts_map_stop, ?starts_map_track; reflexivity.
Qed.

Lemma stops_teardown n w :
  stops n (teardownCalls w)
  = if outputOpen w then count_occ Nat.eq_dec (sourcesRef w) n else 0.
Proof.
  unfold teardownCalls, outputOpen. rewrite !stops_app.
  destruct (animationFrameRef w), (sessionPromiseRef w), (mediaStreamRef w),
    (scriptProcessorRef w), (audioContextRef w) as [ac|],
    (outputAudioContextRef w) as [oc|];
    try destruct (isClosed ac); try destruct (isClosed oc);
    rewrite ?stops_app, ?stops_map_stop, ?stops_map_track;
    cbn [negb]; change (stops n []) with 0; change (stops n [_]) with 0; lia.
Qed.

Lemma starts_visualize n a v c : starts n (visualizeCalls a v c) = 0.
Proof. unfold visualizeCalls. now destruct a, v. Qed.

Lemma stops_visualize n a v c : stops n (visualizeCalls a v c) = 0.
Proof. unfold visualizeCalls. now destruct a, v. Qed.

Lemma count_occ_setAdd f l n :
  count_occ Nat.eq_dec (setAdd f l) n <= count_occ Nat.eq_dec (l ++ [f]) n.
Proof.
  unfold setAdd. rewrite count_occ_app. destruct (existsb _ _); [lia|].
  now rewrite count_occ_app.
Qed.

Lemma NoDup_setAdd f l : NoDup l -> NoDup (setAdd f l).
Proof.
  intros H. unfold setAdd. destruct (existsb (Nat.eqb f) l) eqn:E; auto.
  apply NoDup_app; auto.
  - repeat constructor. intros [].
  - intros x Hx [Hf|[]]. subst x.
    assert (existsb (Nat.eqb f) l = true); [|congruence].
    apply existsb_exists. exists f. split; auto. apply Nat.eqb_refl.
Qed.

Lemma in_setAdd f l n : In n (setAdd f l) -> In n l \/ n = f.
Proof.
  unfold setAdd. destruct (existsb _ _); auto.
  intros H. apply in_app_or in H as [H|[<-|[]]]; auto.
Qed.

Section PlaybackStep.
Context {U : AudioUtils}.

Lemma visualize_sources w : sourcesRef (visualize w) = sourcesRef w.
Proof. unfold visualize. now destruct (analyserRef w), (visualizerRef w). Qed.

Lemma visualize_objects w : objects w <= objects (visualize w).
Proof. unfold visualize. destruct (analyserRef w), (visualizerRef w); simpl; lia. Qed.

Lemma onopen_sources flushed cb w : sourcesRef (onopen flushed cb w) = sourcesRef w.
Proof.
  unfold onopen. destruct flushed; simpl; destruct (audioContextRef w);
    rewrite ?visualize_sources; reflexivity.
Qed.

Lemma onopen_objects flushed cb w : objects w <= objects (onopen flushed cb w).
Proof.
  unfold onopen. destruct flushed; simpl; destruct (audioContextRef w);
    try (etransitivity; [|apply visualize_objects]); simpl; lia.
Qed.

Lemma plain_is_playbackStep w e : plainStep w e -> playbackStep w e.
Proof.
  intros (Hobj & Hsched & Hstarts & Hstops & Hincl & Hnodup).
  unfold playbackStep. rewrite Hsched.
  repeat split; auto; try discriminate.
  - intros n. rewrite Hstops. lia.
  - intros n. rewrite Hstops. lia.
Qed.

Lemma teardown_is_playbackStep w e x :
  scheduledSource w e = None ->
  stepCalls w e = teardownCalls x ->
  objects (step w e) = objects w ->
  sourcesRef (step w e) = (if outputOpen x then [] else sourcesRef x) ->
  sourcesRef x = sourcesRef w ->
  playbackStep w e.
Proof.
  intros Hsched Hcalls Hobj Hsrc Hx. unfold playbackStep.
  rewrite Hsched, Hcalls, Hobj, Hsrc, Hx, app_nil_r.
  split; [lia|]. split; [discriminate|].
  split; [intros n; apply starts_teardown|].
  split; [intros n Hn; left; now destruct (outputOpen x)|].
  split; [intros n; rewrite stops_teardown, Hx; destruct (outputOpen x); lia|].
  split.
  - intros n. rewrite stops_teardown. destruct (outputOpen x); [intros _ []|lia].
  - intros Hnd. destruct (outputOpen x); [constructor|exact Hnd].
Qed.

Lemma stop_is_playbackStep w e :
  scheduledSource w e = None ->
  stepCalls w e = teardownCalls w ->
  step w e = stopConversation w ->
  playbackStep w e.
Proof.
  intros Hsched Hcalls Hstep.
  apply teardown_is_playbackStep with (x := w); auto;
    rewrite Hstep, stopConversation_closed_form; reflexivity.
Qed.

Lemma message_is_playbackStep cb m t w session :
  nth_error (callbacks w) session = Some cb ->
  playbackStep w (OnMessage session m t).
Proof.
  intros Hcb. unfold playbackStep.
  cbn [step stepCalls scheduledSource]. unfold withCallbacks, knownSession.
  rewrite Hcb. cbn [andb].
  rewrite onmessage_objects, onmessage_sources. unfold activeAfterAudio.
  destruct (schedules m w) eqn:Hs, (isInterrupted m) eqn:Hi.
  - split; [lia|]. split; [intros n [= <-]; split; [reflexivity|lia]|].
    split.
    { intros n. rewrite starts_app, starts_map_stop. unfold starts. simpl.
      destruct (Nat.eqb n (objects w)); reflexivity. }
    split; [intros n []|].
    split.
    { intros n. rewrite stops_app, stops_map_stop.
      change (stops n [SourceStart _ _]) with 0. apply count_occ_setAdd. }
    split; [intros n _ []|]. intros _. constructor.
  - split; [lia|]. split; [intros n [= <-]; split; [reflexivity|lia]|].
    split.
    { intros n. rewrite app_nil_r. unfold starts. simpl.
      destruct (Nat.eqb n (objects w)); reflexivity. }
    split.
    { intros n Hn. apply in_setAdd in Hn as [Hn| ->]; auto. }
    split; [intros n; rewrite app_nil_r; change (stops n [SourceStart _ _]) with 0; lia|].
    split; [intros n; rewrite app_nil_r; change (stops n [SourceStart _ _]) with 0; lia|].
    apply NoDup_setAdd.
  - split; [lia|]. split; [discriminate|].
    split; [intros n; cbn [app]; apply starts_map_stop|].
    split; [intros n []|].
    split; [intros n; cbn [app]; rewrite stops_map_stop, app_nil_r; lia|].
    split; [intros n _ []|]. intros _. constructor.
  - split; [lia|]. split; [discriminate|].
    split; [reflexivity|]. split; [auto|].
    split; [intros n; cbn [app]; change (stops n []) with 0; lia|].
    split; [intros n; cbn [app]; change (stops n []) with 0; lia|]. auto.
Qed.

Lemma step_is_playbackStep w e : playbackStep w e.
Proof.
  destruct e as [| | |o|session flushed|session m t|session|session|
                 inputData|source| |].
  - apply plain_is_playbackStep. unfold plainStep. cbn [step stepCalls scheduledSource].
    unfold startConversation.
    destruct (conversationState w); simpl; repeat split; auto using incl_refl.
  - now apply stop_is_playbackStep.
  - now apply stop_is_playbackStep.
  - destruct (pendingStarts w) as [|captured rest] eqn:Hp.
    + apply plain_is_playbackStep. unfold plainStep. cbn [step stepCalls scheduledSource].
      rewrite Hp. repeat split; auto using incl_refl.
    + destruct o as [|stream|stream inputRunning outputRunning].
      * apply teardown_is_playbackStep with (x := w); auto;
          cbn [step stepCalls]; rewrite Hp; auto;
          unfold startConversationResume; rewrite stopConversation_closed_form;
          reflexivity.
      * apply teardown_is_playbackStep
          with (x := set_mediaStreamRef (Some stream) w); auto;
          cbn [step stepCalls]; rewrite Hp; auto;
          unfold startConversationResume; rewrite stopConversation_closed_form;
          reflexivity.
      * apply plain_is_playbackStep. unfold plainStep.
        cbn [step stepCalls scheduledSource]. rewrite Hp. simpl.
        repeat split; auto using incl_refl.
  - apply plain_is_playbackStep. unfold plainStep. cbn [step stepCalls scheduledSource].
    unfold withCallbacks, knownSession.
    destruct (nth_error _ _); [|repeat split; auto using incl_refl].
    rewrite onopen_sources.
    split; [apply onopen_objects|]. split; [reflexivity|].
    destruct (audioContextRef w);
      repeat split; auto using incl_refl, starts_visualize, stops_visualize.
  - destruct (nth_error (callbacks w) session) as [cb|] eqn:Hcb.
    + now apply message_is_playbackStep with (cb := cb).
    + apply plain_is_playbackStep. unfold plainStep.
      cbn [step stepCalls scheduledSource]. unfold withCallbacks, knownSession.
      rewrite Hcb. repeat split; auto using incl_refl.
  - destruct (nth_error (callbacks w) session) as [cb|] eqn:Hcb.
    + apply stop_is_playbackStep; auto; cbn [step stepCalls];
        unfold withCallbacks, knownSession; now rewrite Hcb.
    + apply plain_is_playbackStep. unfold plainStep.
      cbn [step stepCalls scheduledSource]. unfold withCallbacks, knownSession.
      rewrite Hcb. repeat split; auto using incl_refl.
  - destruct (nth_error (callbacks w) session) as [cb|] eqn:Hcb.
    + apply stop_is_playbackStep; auto; cbn [step stepCalls];
        unfold withCallbacks, knownSession; rewrite Hcb; auto using onerror_is_stop.
    + apply plain_is_playbackStep. unfold plainStep.
      cbn [step stepCalls scheduledSource]. unfold withCallbacks, knownSession.
      rewrite Hcb. repeat split; auto using incl_refl.
  - apply plain_is_playbackStep. unfold plainStep. cbn [step stepCalls scheduledSource].
    unfold onaudioprocess.
    destruct (scriptProcessorRef w), (sessionPromiseRef w); simpl;
      repeat split; auto using incl_refl.
  - apply plain_is_playbackStep. unfold plainStep. cbn [step stepCalls scheduledSource].
    simpl. repeat split; auto.
    + intros n Hn. unfold setDelete in Hn. now apply filter_In in Hn.
    + apply NoDup_filter.
  - apply plain_is_playbackStep. unfold plainStep. cbn [step stepCalls scheduledSource].
    destruct (animationFrameRef w); [|repeat split; auto using incl_refl].
    rewrite visualize_sources.
    split; [apply visualize_objects|].
    repeat split; auto using incl_refl, starts_visualize, stops_visualize.
  - apply plain_is_playbackStep. unfold plainStep. cbn [step stepCalls scheduledSource].
    simpl. repeat split; auto using incl_refl.
Qed.
End PlaybackStep.

(** ** Source nodes are started once and stopped at most once *)

Section PlaybackProtocol.
Context {U : AudioUtils}.

Lemma orderlyPlayback_init : orderlyPlayback init.
Proof. split; simpl; auto; [constructor|intros x []]. Qed.

Lemma orderlyPlayback_step w e : orderlyPlayback w -> orderlyPlayback (step w e).
Proof.
  intros [Hknown Hnodup Hactive Honce Hstopped].
  destruct (step_is_playbackStep w e)
    as (Hobj & Hfresh & Hstarts & Hin & Hstops & Hgone & Hnd).
  assert (Hbelow : forall n, In n (sourcesRef w) -> n < objects w).
  { intros n Hn. destruct (Hactive n Hn) as [H1 _].
    destruct (Nat.lt_ge_cases n (objects w)) as [|Hge]; auto.
    rewrite (Hknown n Hge) in H1. discriminate. }
  assert (Hcount : forall n,
            count_occ Nat.eq_dec
              (sourcesRef w
               ++ match scheduledSource w e with Some f => [f] | None => [] end) n
            <= 1).
  { intros n. apply NoDup_count_occ.
    destruct (scheduledSource w e) as [f|] eqn:Hf; [|now rewrite app_nil_r].
    apply NoDup_app; auto.
    - repeat constructor. intros [].
    - intros x Hx [Hxf|[]]. subst x.
      destruct (Hfresh f eq_refl) as [-> _]. specialize (Hbelow _ Hx). lia. }
  assert (Hwhere : forall n,
            0 < stops n (stepCalls w e) ->
            In n (sourcesRef w) \/ scheduledSource w e = Some n).
  { intros n Hpos. specialize (Hstops n).
    assert (Hc : 0 < count_occ Nat.eq_dec
                       (sourcesRef w
                        ++ match scheduledSource w e with
                           | Some f => [f] | None => [] end) n) by lia.
    apply count_occ_In in Hc. apply in_app_or in Hc as [Hc|Hc]; auto.
    destruct (scheduledSource w e) as [f|]; [|destruct Hc].
    destruct Hc as [->|[]]. now right. }
  split; rewrite ?step_log.
  - intros n Hn. rewrite starts_app, Hstarts, Hknown by lia.
    destruct (scheduledSource w e) as [f|] eqn:Hf; auto.
    destruct (Hfresh f eq_refl) as [-> Hlt].
    destruct (Nat.eqb_spec n (objects w)); [lia|reflexivity].
  - now apply Hnd.
  - intros n Hn. rewrite starts_app, stops_app, Hstarts.
    assert (Hzero : stops n (stepCalls w e) = 0).
    { destruct (stops n (stepCalls w e)) eqn:E; auto.
      exfalso. apply (Hgone n); [lia|exact Hn]. }
    rewrite Hzero. destruct (Hin n Hn) as [Hold|Hnew].
    + destruct (Hactive n Hold) as [-> ->].
      destruct (scheduledSource w e) as [f|] eqn:Hf; auto.
      destruct (Hfresh f eq_refl) as [-> _].
      destruct (Nat.eqb_spec n (objects w)) as [->|]; auto.
      specialize (Hbelow _ Hold). lia.
    + rewrite Hnew, Nat.eqb_refl. destruct (Hfresh n Hnew) as [-> _].
      rewrite Hknown by lia.
      specialize (Hstopped (objects w)). rewrite Hknown in Hstopped by lia.
      split; lia.
  - intros n. rewrite starts_app, Hstarts.
    destruct (scheduledSource w e) as [f|] eqn:Hf; [|specialize (Honce n); lia].
    destruct (Hfresh f eq_refl) as [-> _].
    destruct (Nat.eqb_spec n (objects w)) as [->|]; [|specialize (Honce n); lia].
    rewrite Hknown by lia. lia.
  - intros n. rewrite starts_app, stops_app, Hstarts.
    destruct (stops n (stepCalls w e)) eqn:E.
    { specialize (Hstopped n). lia. }
    assert (Hone : S n0 <= 1) by (rewrite <- E; etransitivity; [apply Hstops|apply Hcount]).
    destruct (Hwhere n ltac:(lia)) as [Hold|Hnew].
    + destruct (Hactive n Hold) as [-> ->]. lia.
    + rewrite Hnew, Nat.eqb_refl. specialize (Hstopped n). lia.
Qed.

Lemma orderlyPlayback_run events : forall w,
  orderlyPlayback w -> orderlyPlayback (run events w).
Proof.
  induction events as [|e rest IH]; intros w Hw; simpl; auto.
  apply IH. now apply orderlyPlayback_step.
Qed.

(** Once a node is known and not active, it stays so and is not stopped. *)
Lemma retired_step w e n :
  n < objects w -> ~ In n (sourcesRef w) ->
  n < objects (step w e)
  /\ ~ In n (sourcesRef (step w e))
  /\ stops n (log (step w e)) = stops n (log w).
Proof.
  intros Hn Hout.
  destruct (step_is_playbackStep w e)
    as (Hobj & Hfresh & Hstarts & Hin & Hstops & Hgone & Hnd).
  assert (Hnot : scheduledSource w e <> Some n).
  { intros Hs. destruct (Hfresh n Hs) as [-> _]. lia. }
  split; [lia|]. split.
  - intros Hin'. destruct (Hin n Hin'); contradiction.
  - rewrite step_log, stops_app. specialize (Hstops n).
    rewrite count_occ_app in Hstops.
    rewrite (proj1 (count_occ_not_In Nat.eq_dec (sourcesRef w) n) Hout) in Hstops.
    destruct (scheduledSource w e) as [f|]; simpl in Hstops.
    + destruct (Nat.eq_dec f n) as [->|]; [congruence|lia].
    + lia.
Qed.

Lemma retired_run events : forall w n,
  n < objects w -> ~ In n (sourcesRef w) ->
  n < objects (run events w)
  /\ ~ In n (sourcesRef (run events w))
  /\ stops n (log (run events w)) = stops n (log w).
Proof.
  induction events as [|e rest IH]; intros w n Hn Hout; simpl; auto.
  destruct (retired_step w e n Hn Hout) as (Hn' & Hout' & Hs).
  destruct (IH _ n Hn' Hout') as (H1 & H2 & H3). rewrite H3, Hs. auto.
Qed.
End PlaybackProtocol.

(** X6: in every reachable world each source node has been started at
    most once; [stop()] has been called on it at most once and only if it was
    started; the active sources are distinct, each started exactly once and
    not yet stopped. *)
Theorem sources_follow_the_node_protocol {U : AudioUtils} w :
  reachable w ->
  (forall n, starts n (log w) <= 1)
  /\ (forall n, stops n (log w) <= starts n (log w))
  /\ NoDup (sourcesRef w)
  /\ (forall n, In n (sourcesRef w) -> starts n (log w) = 1 /\ stops n (log w) = 0).
Proof.
  intros [events ->].
  destruct (orderlyPlayback_run events init orderlyPlayback_init)
    as [_ Hnodup Hactive Honce Hstopped].
  auto.
Qed.

Lemma sources_follow_the_node_protocol_witness :
  let w := run (H := pcm16Utils)
             (opening ++ [OnMessage 0 (audioMessage "AAA=") 0%N;
                          OnMessage 0 interruptedMessage 0%N;
                          OnMessage 0 (audioMessage "AAA=") 1%N; ClickStop]) init in
  starts 6 (log w) = 1 /\ stops 6 (log w) = 1
  /\ (forall n, stops n (log w) <= starts n (log w)).
Proof.
  intros w.
  assert (Hr : reachable (H := pcm16Utils) w) by (eexists; reflexivity).
  split; [vm_compute; reflexivity|]. split; [vm_compute; reflexivity|].
  exact (proj1 (proj2 (sources_follow_the_node_protocol (U := pcm16Utils) w Hr))).
Defined.

(** X7: once the [ended] listener has removed a source from the active set,
    that source is never put back and [stop()] is never called on it again,
    whatever events follow (interruptions, teardowns, new sessions). *)
Theorem ended_source_is_never_stopped_again {U : AudioUtils} w n events :
  reachable w ->
  In n (sourcesRef w) ->
  let ended := step w (Ended n) in
  let later := run events ended in
  ~ In n (sourcesRef ended)
  /\ logSince w ended = []
  /\ ~ In n (sourcesRef later)
  /\ stops n (log later) = 0.
Proof.
  intros [history ->] Hn ended later.
  destruct (orderlyPlayback_run history init orderlyPlayback_init)
    as [Hknown Hnodup Hactive Honce Hstopped].
  destruct (Hactive n Hn) as [Hstarted Hnotstopped].
  assert (Hbelow : n < objects ended).
  { destruct (Nat.lt_ge_cases n (objects (run history init))) as [|Hge]; auto.
    rewrite (Hknown n Hge) in Hstarted. discriminate. }
  assert (Hout : ~ In n (sourcesRef ended)).
  { subst ended. cbn [step sourcesRef set_sourcesRef]. unfold setDelete.
    intros Hin. apply filter_In in Hin as [_ Hneq]. now rewrite Nat.eqb_refl in Hneq. }
  destruct (retired_run events ended n Hbelow Hout) as (_ & Hlater & Hstops).
  split; [exact Hout|]. split.
  - subst ended. apply logSince_app. cbn [step log set_sourcesRef]. now rewrite app_nil_r.
  - split; [exact Hlater|]. subst later. rewrite Hstops.
    subst ended. cbn [step log set_sourcesRef]. exact Hnotstopped.
Qed.

Lemma ended_source_is_never_stopped_again_witness :
  let later := run (H := pcm16Utils)
                 [OnMessage 0 interruptedMessage 5%N; ClickStop]
                 (step (H := pcm16Utils) playingWorld (Ended 6)) in
  In 6 (sourcesRef playingWorld)
  /\ stops 7 (log later) = 1
  /\ stops 6 (log later) = 0.
Proof.
  intros later.
  assert (Hin : In 6 (sourcesRef playingWorld)) by (vm_compute; auto).
  split; [exact Hin|]. split; [vm_compute; reflexivity|].
  exact (proj2 (proj2 (proj2
           (ended_source_is_never_stopped_again (U := pcm16Utils) playingWorld 6
              [OnMessage 0 interruptedMessage 5%N; ClickStop]
              playingWorld_reachable Hin)))).
Defined.

(** ** Frames sent to the transport *)





Section Capture.
Context {U : AudioUtils}.





End Capture.

Section CaptureReachable.
Context {U : AudioUtils}.

End CaptureReachable.



(** ** What a session acquires, its teardown releases *)

Section Balance.
Context {U : AudioUtils}.

Lemma visualize_refs w :
  mediaStreamRef (visualize w) = mediaStreamRef w
  /\ audioContextRef (visualize w) = audioContextRef w
  /\ outputAudioContextRef (visualize w) = outputAudioContextRef w
  /\ sessionPromiseRef (visualize w) = sessionPromiseRef w
  /\ scriptProcessorRef (visualize w) = scriptProcessorRef w.
Proof.
  unfold visualize. destruct (analyserRef w), (visualizerRef w); repeat split.
Qed.

Lemma sessionEvent_keeps w e stream inputCtx outputCtx session processor :
  isSessionEvent e = true ->
  holds w stream inputCtx outputCtx session processor ->
  holds (step w e) stream inputCtx outputCtx session processor.
Proof.
  intros He (H1 & H2 & H3 & H4 & H5). unfold holds.
  destruct e; try discriminate He; cbn [step]; unfold withCallbacks.
  - destruct (nth_error _ _); [|repeat split; assumption].
    rewrite onmessage_mediaStream, onmessage_audioContext, onmessage_output,
      onmessage_session, onmessage_scriptProcessor. repeat split; assumption.
  - rewrite H5. unfold onaudioprocess. rewrite H4. repeat split; assumption.
  - repeat split; assumption.
  - destruct (animationFrameRef w); [|repeat split; assumption].
    destruct (visualize_refs w) as (E1 & E2 & E3 & E4 & E5).
    rewrite E1, E2, E3, E4, E5. repeat split; assumption.
  - repeat split; assumption.
Qed.

Lemma sessionEvents_keep events : forall w stream inputCtx outputCtx session processor,
  Forall (fun e => isSessionEvent e = true) events ->
  holds w stream inputCtx outputCtx session processor ->
  holds (run events w) stream inputCtx outputCtx session processor.
Proof.
  induction events as [|e rest IH]; intros w stream inputCtx outputCtx session processor
    Hall Hw; simpl; auto.
  inversion Hall; subst. apply IH; auto. now apply sessionEvent_keeps.
Qed.

Lemma opened_holds w stream inputRunning outputRunning flushed :
  conversationState w = idle ->
  pendingStarts w = [] ->
  holds (run [ClickStart; UserMedia (Granted stream inputRunning outputRunning);
              OnOpen (List.length (callbacks w)) flushed] w)
    stream
    {| ctxId := objects w; state := if inputRunning then running else suspended |}
    {| ctxId := S (objects w); state := if outputRunning then running else suspended |}
    (List.length (callbacks w)) (3 + objects w).
Proof.
  intros Hidle Hpending.
  destruct w as [cs ts ct sp ms ac pr oc nx so an vi af ob pe cbs lg].
  simpl in Hidle, Hpending. subst cs pe.
  unfold run. cbn [fold_left step]. unfold startConversation.
  cbn [conversationState pendingStarts set_pendingStarts emit set_log
       set_currentTranscription set_transcriptions set_conversationState app log
       transcriptions currentTranscription sessionPromiseRef mediaStreamRef
       audioContextRef scriptProcessorRef outputAudioContextRef nextStartTimeRef
       sourcesRef analyserRef visualizerRef animationFrameRef objects callbacks].
  unfold startConversationResume, newAudioContext, withCallbacks.
  cbn [conversationState pendingStarts set_pendingStarts emit set_log
       set_currentTranscription set_transcriptions set_conversationState log
       transcriptions currentTranscription sessionPromiseRef mediaStreamRef
       audioContextRef scriptProcessorRef outputAudioContextRef nextStartTimeRef
       sourcesRef analyserRef visualizerRef animationFrameRef objects callbacks
       set_mediaStreamRef set_audioContextRef set_objects set_outputAudioContextRef
       set_nextStartTimeRef set_callbacks set_sessionPromiseRef].
  rewrite nth_error_app2, Nat.sub_diag by lia. cbn [nth_error].
  unfold onopen, holds.
  destruct flushed; cbn -[visualize];
    match goal with |- context [visualize ?x] =>
      destruct (visualize_refs x) as (-> & -> & -> & -> & ->) end;
    repeat split.
Qed.
End Balance.

(** X9: whatever a session acquired, its teardown releases.  Start a
    session from an idle world with no start pending, let the microphone be
    granted and the transport open, then let any number of session events
    happen (messages, captured blocks, ended sources, animation frames,
    renders): the teardown that follows, however triggered, requests the
    close of that session, stops every track of the stream, disconnects the
    script processor, closes both audio contexts and stops every source
    still active. *)
Theorem session_resources_are_released {U : AudioUtils}
    w stream inputRunning outputRunning flushed events e :
  conversationState w = idle ->
  pendingStarts w = [] ->
  Forall (fun e => isSessionEvent e = true) events ->
  let session := List.length (callbacks w) in
  let live :=
    run events
      (run [ClickStart; UserMedia (Granted stream inputRunning outputRunning);
            OnOpen session flushed] w) in
  isTeardown live e = true ->
  let calls := logSince live (step live e) in
  In (SessionClose session) calls
  /\ (forall track, In track (getTracks stream) -> In (TrackStop track) calls)
  /\ In (Disconnect (3 + objects w)) calls
  /\ In (ContextClose (objects w)) calls
  /\ In (ContextClose (S (objects w))) calls
  /\ (forall n, In n (sourcesRef live) -> In (SourceStop n) calls).
Proof.
  intros Hidle Hpending Hevents session live He calls.
  assert (Hholds : holds live stream
            {| ctxId := objects w; state := if inputRunning then running else suspended |}
            {| ctxId := S (objects w);
               state := if outputRunning then running else suspended |}
            session (3 + objects w)).
  { subst live. apply sessionEvents_keep; auto. now apply opened_holds. }
  destruct Hholds as (H1 & H2 & H3 & H4 & H5).
  subst calls. rewrite (teardown_step live e He), stopConversation_since.
  unfold teardownCalls. rewrite H1, H2, H3, H4, H5.
  assert (Hin : isClosed {| ctxId := objects w;
                            state := if inputRunning then running else suspended |}
                = false) by (now destruct inputRunning).
  assert (Hout : isClosed {| ctxId := S (objects w);
                             state := if outputRunning then running else suspended |}
                 = false) by (now destruct outputRunning).
  rewrite Hin, Hout. cbn [ctxId].
  split; [apply in_or_app; right; apply in_or_app; left; now left|].
  split.
  { intros track Ht. do 2 (apply in_or_app; right). apply in_or_app; left.
    now apply in_map. }
  split; [do 3 (apply in_or_app; right); apply in_or_app; left; now left|].
  split; [do 4 (apply in_or_app; right); apply in_or_app; left; now left|].
  split.
  - do 5 (apply in_or_app; right). apply in_or_app; right. now left.
  - intros n Hn. do 5 (apply in_or_app; right). apply in_or_app; left.
    now apply in_map.
Qed.

Lemma session_resources_are_released_witness :
  let events := [OnMessage 0 (audioMessage "AAA=") 0%N;
                 AudioProcess [S754_finite false 1 (-1)]; Render] in
  let live :=
    run (H := pcm16Utils) events
      (run (H := pcm16Utils)
         [ClickStart; UserMedia (Granted microphone true false); OnOpen 0 false] init) in
  Forall (fun e => isSessionEvent e = true) events
  /\ isTeardown live (OnError 0) = true
  /\ In (SessionClose 0) (logSince live (step (H := pcm16Utils) live (OnError 0)))
  /\ In (ContextClose 1) (logSince live (step (H := pcm16Utils) live (OnError 0))).
Proof.
  intros events live.
  assert (Hevents : Forall (fun e => isSessionEvent e = true) events)
    by (repeat constructor).
  assert (He : isTeardown live (OnError 0) = true) by (vm_compute; reflexivity).
  pose proof (session_resources_are_released (U := pcm16Utils) init microphone true false
                false events (OnError 0) eq_refl eq_refl Hevents He)
    as (Hclose & _ & _ & _ & Hctx & _).
  split; [exact Hevents|]. split; [exact He|]. split; [exact Hclose|exact Hctx].
Defined.

(** ** More on the PCM payload *)

Local Open Scope Z_scope.

Lemma int16Bytes_range v b : In b (int16Bytes v) -> 0 <= b < 256.
Proof.
  unfold int16Bytes. intros [<-|[<-|[]]].
  - apply Z.mod_pos_bound. reflexivity.
  - pose proof (Z.mod_pos_bound v (2 ^ 16) ltac:(reflexivity)) as H.
    change (2 ^ 16) with (256 * 256) in *.
    split; [apply Z.div_pos; lia|apply Z.div_lt_upper_bound; lia].
Qed.

Lemma payload_length (int16 : list Z) :
  List.length (flat_map int16Bytes int16) = (2 * List.length int16)%nat.
Proof. induction int16 as [|v rest IH]; simpl; auto. rewrite IH. lia. Qed.

Lemma scaledDen_pos x : 0 < scaledDen x.
Proof.
  destruct x as [s|s| |s m e]; simpl; first [lia|apply Z.pow_pos_nonneg; lia].
Qed.

Lemma scaled_negate x :
  scaledNum (negateSample x) = - scaledNum x
  /\ scaledDen (negateSample x) = scaledDen x.
Proof.
  destruct x as [s|s| |s m e]; simpl; auto. destruct s; simpl; split; auto; lia.
Qed.

(** X10: the payload of a frame has exactly two bytes per captured sample,
    each byte is in 0..255, and the two bytes of a sample give back the
    stored 16-bit value when read low byte first as a signed number. *)
Theorem payload_is_two_bytes_per_sample (inputData : list spec_float) :
  let int16 := toInt16Array inputData in
  let bytes := flat_map int16Bytes int16 in
  List.length bytes = (2 * List.length inputData)%nat
  /\ Forall (fun b => 0 <= b < 256) bytes
  /\ (forall i v low high,
        nth_error int16 i = Some v ->
        nth_error bytes (2 * i) = Some low ->
        nth_error bytes (2 * i + 1) = Some high ->
        let unsigned := low + 256 * high in
        v = if 2 ^ 15 <=? unsigned then unsigned - 2 ^ 16 else unsigned).
Proof.
  intros int16 bytes. subst int16 bytes.
  split; [rewrite payload_length; unfold toInt16Array; now rewrite length_map|].
  split.
  - apply Forall_forall. intros b Hb. apply in_flat_map in Hb as (v & _ & Hb).
    now apply int16Bytes_range in Hb.
  - intros i v low high Hv Hlow Hhigh unsigned. subst unsigned.
    destruct (int16Bytes_nth _ _ _ Hv) as [Hl Hh].
    rewrite Hl in Hlow. rewrite Hh in Hhigh.
    injection Hlow as <-. injection Hhigh as <-.
    unfold toInt16Array in Hv. rewrite nth_error_map in Hv.
    destruct (nth_error inputData i) as [sample|]; [|discriminate].
    injection Hv as <-.
    pose proof (ToInt16_range (times32768 sample)) as Hr.
    set (v := ToInt16 (times32768 sample)) in *.
    change (2 ^ 15) with 32768 in *. change (2 ^ 16) with 65536 in *.
    change (Z.pow_pos 2 16) with 65536 in *.
    assert (Hu : v mod 65536 mod 256 + 256 * (v mod 65536 / 256) = v mod 65536).
    { rewrite Z.add_comm. symmetry. apply Z.div_mod. lia. }
    rewrite Hu.
    destruct (Z_lt_le_dec v 0) as [Hneg|Hpos].
    + assert (E : v mod 65536 = v + 65536)
        by (symmetry; apply (Z.mod_unique _ _ (-1)); lia).
      rewrite E. destruct (Z.leb_spec 32768 (v + 65536)); lia.
    + rewrite Z.mod_small by lia. destruct (Z.leb_spec 32768 v); lia.
Qed.

Lemma payload_is_two_bytes_per_sample_witness :
  let inputData := [S754_finite true 3 (-2); S754_finite false 1 0] in
  let bytes := flat_map int16Bytes (toInt16Array inputData) in
  bytes = [0; 160; 0; 128]
  /\ nth_error (toInt16Array inputData) 0 = Some (-24576)
  /\ -24576 = (if 2 ^ 15 <=? 0 + 256 * 160 then 0 + 256 * 160 - 2 ^ 16 else 0 + 256 * 160).
Proof.
  intros inputData bytes.
  assert (Hv : nth_error (toInt16Array inputData) 0 = Some (-24576)) by reflexivity.
  split; [reflexivity|]. split; [exact Hv|].
  exact (proj2 (proj2 (payload_is_two_bytes_per_sample inputData))
           0%nat (-24576) 0 160 Hv eq_refl eq_refl).
Defined.

(** X11: for a finite sample whose scaled value fits the 16-bit range, the
    stored value is that value rounded toward zero: it has the sign of the
    sample, its magnitude does not exceed the exact product
    [sample * 32768] and falls short of it by less than one step; and
    negating such a sample negates the stored value (unless it is the most
    negative one, -32768, whose negation does not fit). *)
Theorem stored_value_rounds_toward_zero (sample : spec_float) :
  - 2 ^ 15 <= scaledTrunc sample < 2 ^ 15 ->
  let v := ToInt16 (times32768 sample) in
  let num := scaledNum sample in
  let den := scaledDen sample in
  (0 <= num -> v * den <= num < (v + 1) * den)
  /\ (num <= 0 -> (v - 1) * den < num <= v * den)
  /\ (- 2 ^ 15 < scaledTrunc sample ->
      ToInt16 (times32768 (negateSample sample)) = - v).
Proof.
  intros Hfit v num den. subst v num den.
  rewrite ToInt16_exact by (now rewrite truncate_times32768).
  rewrite truncate_times32768. unfold scaledTrunc in *.
  pose proof (scaledDen_pos sample) as Hden.
  set (num := scaledNum sample) in *. set (den := scaledDen sample) in *.
  pose proof (Z.quot_rem' num den) as Hqr.
  split; [|split].
  - intros Hnum. pose proof (Z.rem_bound_pos num den Hnum Hden). nia.
  - intros Hnum.
    pose proof (Z.rem_bound_pos_neg num den Hden Hnum) as Hrem.
    nia.
  - intros Hlow.
    destruct (scaled_negate sample) as [Hn Hd].
    rewrite ToInt16_exact; rewrite truncate_times32768; unfold scaledTrunc;
      rewrite Hn, Hd; fold num den; rewrite Z.quot_opp_l by lia; [reflexivity|lia].
Qed.

Lemma stored_value_rounds_toward_zero_witness :
  let sample := S754_finite true 3 (-17) in
  scaledTrunc sample = 0
  /\ scaledNum sample = -3 /\ scaledDen sample = 4
  /\ ToInt16 (times32768 (negateSample sample)) = - ToInt16 (times32768 sample).
Proof.
  intros sample.
  assert (Hfit : - 2 ^ 15 <= scaledTrunc sample < 2 ^ 15) by (vm_compute; split; [discriminate|reflexivity]).
  split; [reflexivity|]. split; [reflexivity|]. split; [reflexivity|].
  apply (proj2 (proj2 (stored_value_rounds_toward_zero sample Hfit))).
  vm_compute. reflexivity.
Defined.

Local Close Scope Z_scope.

(** * [bufferToWave] *)

Local Open Scope Z_scope.

Lemma uint32_recompose u :
  0 <= u < 2 ^ 32 ->
  u mod 256 + 256 * ((u / 256) mod 256) + 65536 * ((u / 65536) mod 256)
  + 16777216 * (u / 16777216) = u.
Proof.
  intros H. change (2 ^ 32) with 4294967296 in H.
  Z.div_mod_to_equations. lia.
Qed.

Lemma uint16_recompose u : u mod 256 + 256 * (u / 256) = u.
Proof. Z.div_mod_to_equations. lia. Qed.

Lemma int16_recompose v :
  - 2 ^ 15 <= v < 2 ^ 15 ->
  (let u := (v mod 2 ^ 16) mod 256 + 256 * (v mod 2 ^ 16 / 256) in
   if 2 ^ 15 <=? u then u - 2 ^ 16 else u) = v.
Proof.
  intros H. cbv zeta. rewrite uint16_recompose.
  change (2 ^ 15) with 32768 in *. change (2 ^ 16) with 65536 in *.
  destruct (Z_lt_le_dec v 0) as [Hneg|Hpos].
  - assert (E : v mod 65536 = v + 65536)
      by (symmetry; apply (Z.mod_unique _ _ (-1)); lia).
    rewrite E. destruct (Z.leb_spec 32768 (v + 65536)); lia.
  - rewrite Z.mod_small by lia. destruct (Z.leb_spec 32768 v); lia.
Qed.

Lemma setUint32_range data b : In b (Wave.setUint32 data) -> 0 <= b < 256.
Proof.
  unfold Wave.setUint32.
  pose proof (Z.mod_pos_bound data (2 ^ 32) ltac:(reflexivity)) as H.
  change (2 ^ 32) with 4294967296 in *.
  intros [<-|[<-|[<-|[<-|[]]]]]; Z.div_mod_to_equations; lia.
Qed.

Lemma setUint16_range data b : In b (Wave.setUint16 data) -> 0 <= b < 256.
Proof.
  unfold Wave.setUint16.
  pose proof (Z.mod_pos_bound data (2 ^ 16) ltac:(reflexivity)) as H.
  change (2 ^ 16) with 65536 in *.
  intros [<-|[<-|[]]]; Z.div_mod_to_equations; lia.
Qed.

Local Close Scope Z_scope.

(** Blocks of a fixed size laid end to end. *)
Lemma flat_map_blocks_length {A} (f : nat -> list A) c n : forall a,
  (forall k, List.length (f k) = c) ->
  List.length (flat_map f (seq a n)) = n * c.
Proof.
  induction n as [|n IH]; intros a Hc; simpl; auto.
  now rewrite length_app, Hc, IH.
Qed.

Lemma flat_map_blocks_nth {A} (f : nat -> list A) c d n : forall a i r,
  (forall k, List.length (f k) = c) ->
  i < n -> r < c ->
  nth (i * c + r) (flat_map f (seq a n)) d = nth r (f (a + i)) d.
Proof.
  induction n as [|n IH]; intros a i r Hc Hi Hr; [lia|].
  simpl. destruct i as [|i].
  - rewrite app_nth1 by (rewrite Hc; simpl; lia). simpl. now rewrite Nat.add_0_r.
  - rewrite app_nth2 by (rewrite Hc; simpl; lia). rewrite Hc.
    replace (S i * c + r - c) with (i * c + r) by (simpl; lia).
    rewrite IH by (auto; lia). f_equal. f_equal. lia.
Qed.

Lemma frameBytes_length abuffer i :
  List.length (Wave.frameBytes abuffer i) = Wave.numberOfChannels abuffer * 2.
Proof.
  unfold Wave.frameBytes. now apply flat_map_blocks_length.
Qed.

Lemma sampleBytes_length abuffer :
  List.length (Wave.sampleBytes abuffer)
  = Wave.length abuffer * (Wave.numberOfChannels abuffer * 2).
Proof.
  unfold Wave.sampleBytes. apply flat_map_blocks_length. apply frameBytes_length.
Qed.

Lemma header_length abuffer : List.length (Wave.header abuffer) = 44.
Proof. reflexivity. Qed.

(** X12: the WAV blob is exactly as long as the length computed for it, 44
    header bytes plus two bytes per sample of every channel; every byte is
    in 0..255; its type is [audio/wav]. *)
Theorem wave_has_the_computed_length (abuffer : Wave.AudioBuffer) :
  let file := Wave.bytes (Wave.bufferToWave abuffer) in
  List.length file = Wave.totalLength abuffer
  /\ List.length file = 44 + 2 * (Wave.length abuffer * Wave.numberOfChannels abuffer)
  /\ Forall (fun b => (0 <= b < 256)%Z) file
  /\ Wave.type (Wave.bufferToWave abuffer) = "audio/wav"%string.
Proof.
  cbv zeta. cbn [Wave.bufferToWave Wave.bytes Wave.type].
  rewrite length_app, header_length, sampleBytes_length. unfold Wave.totalLength.
  split; [lia|]. split; [lia|]. split; [|reflexivity].
  apply Forall_app. split.
  - unfold Wave.header. repeat (apply Forall_app; split);
      apply Forall_forall; intros b Hb;
      first [now apply setUint32_range in Hb | now apply setUint16_range in Hb].
  - apply Forall_forall. intros b Hb. unfold Wave.sampleBytes in Hb.
    apply in_flat_map in Hb as (i & _ & Hb). unfold Wave.frameBytes in Hb.
    apply in_flat_map in Hb as (j & _ & Hb). unfold Wave.setInt16 in Hb.
    now apply int16Bytes_range in Hb.
Qed.

Local Open Scope Z_scope.

(** X13: the header describes the file.  When the file is shorter than
    2^32 bytes and there are fewer than 2^15 channels, read back
    little-endian the header holds the tags RIFF, WAVE, fmt and data, the
    file length less 8, format 1 (PCM), the channel count, the sample rate,
    the byte rate [rate * 2 * channels], the block size [2 * channels], 16
    bits per sample, and a data size equal to the number of sample bytes that
    follow. *)
Theorem wave_header_describes_the_file (abuffer : Wave.AudioBuffer) :
  Z.of_nat (Wave.totalLength abuffer) < 2 ^ 32 ->
  Z.of_nat (Wave.numberOfChannels abuffer) < 2 ^ 15 ->
  let file := Wave.bytes (Wave.bufferToWave abuffer) in
  let channels := Z.of_nat (Wave.numberOfChannels abuffer) in
  Wave.uint32At file 0 = 0x46464952
  /\ Wave.uint32At file 4 = Z.of_nat (List.length file) - 8
  /\ Wave.uint32At file 8 = 0x45564157
  /\ Wave.uint32At file 12 = 0x20746d66
  /\ Wave.uint32At file 16 = 16
  /\ Wave.uint16At file 20 = 1
  /\ Wave.uint16At file 22 = channels
  /\ Wave.uint32At file 24 = Wave.sampleRate abuffer mod 2 ^ 32
  /\ Wave.uint32At file 28 = (Wave.sampleRate abuffer * 2 * channels) mod 2 ^ 32
  /\ Wave.uint16At file 32 = 2 * channels
  /\ Wave.uint16At file 34 = 16
  /\ Wave.uint32At file 36 = 0x61746164
  /\ Wave.uint32At file 40 = Z.of_nat (List.length (Wave.sampleBytes abuffer))
  /\ Z.of_nat (List.length file) = 44 + Wave.uint32At file 40.
Proof.
  intros Hlen Hchan file channels.
  assert (Hfile : List.length file = Wave.totalLength abuffer).
  { subst file. cbn [Wave.bufferToWave Wave.bytes].
    rewrite length_app, header_length, sampleBytes_length.
    unfold Wave.totalLength. lia. }
  assert (Hdata : Z.of_nat (List.length (Wave.sampleBytes abuffer))
                  = Z.of_nat (Wave.totalLength abuffer) - 44).
  { rewrite sampleBytes_length. unfold Wave.totalLength. lia. }
  rewrite Hfile, Hdata.
  assert (H44 : 44 <= Z.of_nat (Wave.totalLength abuffer))
    by (unfold Wave.totalLength; lia).
  subst file. cbn [Wave.bufferToWave Wave.bytes].
  unfold Wave.uint32At, Wave.uint16At, Wave.byteAt, Wave.header,
    Wave.setUint32, Wave.setUint16.
  cbn [app nth Nat.add].
  fold channels.
  change (2 ^ 15) with 32768 in *. change (2 ^ 32) with 4294967296 in *.
  change (2 ^ 16) with 65536.
  assert (Hc0 : 0 <= channels) by (subst channels; lia).
  repeat split;
    try (rewrite uint32_recompose by (apply Z.mod_pos_bound; reflexivity));
    try rewrite uint16_recompose;
    try (rewrite Z.mod_small by lia);
    try reflexivity; try lia.
Qed.

Lemma wave_header_describes_the_file_witness :
  let file := Wave.bytes (Wave.bufferToWave Wave.sampleBuffer) in
  List.length file = 56%nat
  /\ Wave.uint32At file 4 = 48
  /\ Wave.uint32At file 40 = 12.
Proof.
  intros file.
  assert (Hlen : Z.of_nat (Wave.totalLength Wave.sampleBuffer) < 2 ^ 32) by reflexivity.
  assert (Hchan : Z.of_nat (Wave.numberOfChannels Wave.sampleBuffer) < 2 ^ 15)
    by reflexivity.
  pose proof (wave_header_describes_the_file Wave.sampleBuffer Hlen Hchan) as H.
  cbv zeta in H.
  destruct H as (_ & Hriff & _ & _ & _ & _ & _ & _ & _ & _ & _ & _ & Hdata & _).
  split; [reflexivity|]. split; [exact Hriff|exact Hdata].
Defined.

(** ** Clamping *)

Lemma exceedsOne_false_nonneg m e :
  Wave.exceedsOne m e = false -> 0 <= e -> m = 1%positive /\ e = 0.
Proof.
  unfold Wave.exceedsOne. intros H He.
  destruct (Z.leb_spec 0 e); [|lia].
  apply Z.ltb_ge in H.
  assert (Hp : 1 <= 2 ^ e) by (apply Z.pow_le_mono_r with (b := 0) (c := e); lia).
  assert (Hm : Z.pos m * 2 ^ e = 1) by nia.
  assert (Hm1 : Z.pos m = 1) by nia.
  assert (Hp1 : 2 ^ e = 1) by nia.
  split; [lia|].
  destruct (Z.eq_dec e 0) as [|Hne]; auto.
  assert (2 ^ 1 <= 2 ^ e) by (apply Z.pow_le_mono_r; lia). simpl in *. lia.
Qed.

Lemma exceedsOne_false_neg m e :
  Wave.exceedsOne m e = false -> e < 0 -> Z.pos m <= 2 ^ (- e).
Proof.
  unfold Wave.exceedsOne. intros H He.
  destruct (Z.leb_spec 0 e); [lia|]. now apply Z.ltb_ge in H.
Qed.

Lemma truncate_scaled_positive m e :
  Wave.exceedsOne m e = false ->
  0 <= truncate (Wave.times32767 (S754_finite false m e)) <= 32767.
Proof.
  intros H. cbn [Wave.times32767 truncate].
  destruct (Z_le_gt_dec 0 e) as [He|He].
  - destruct (exceedsOne_false_nonneg m e H He) as [-> ->]. simpl. lia.
  - pose proof (exceedsOne_false_neg m e H ltac:(lia)) as Hm.
    rewrite Z.shiftl_div_pow2 by lia.
    assert (Hpos : 0 < 2 ^ (- e)) by (apply Z.pow_pos_nonneg; lia).
    split; [apply Z.div_pos; lia|].
    apply Z.div_le_upper_bound; lia.
Qed.

Lemma truncate_scaled_negative m e :
  Wave.exceedsOne m e = false ->
  - 32768 <= truncate (times32768 (S754_finite true m e)) <= 0.
Proof.
  intros H. cbn [times32768 truncate].
  assert (Hmag : 0 <= Z.shiftl (Z.pos m) (e + 15) <= 32768); [|lia].
  destruct (Z_le_gt_dec 0 e) as [He|He].
  - destruct (exceedsOne_false_nonneg m e H He) as [-> ->]. simpl. lia.
  - pose proof (exceedsOne_false_neg m e H ltac:(lia)) as Hm.
    destruct (Z_le_gt_dec 0 (e + 15)) as [Hk|Hk].
    + rewrite Z.shiftl_mul_pow2 by lia.
      assert (Hsplit : 2 ^ (- e) * 2 ^ (e + 15) = 2 ^ 15)
        by (rewrite <- Z.pow_add_r by lia; f_equal; lia).
      assert (0 < 2 ^ (e + 15)) by (apply Z.pow_pos_nonneg; lia).
      change (2 ^ 15) with 32768 in Hsplit. nia.
    + rewrite Z.shiftl_div_pow2 by lia.
      assert (Hsplit : 2 ^ (- e) = 32768 * 2 ^ (- (e + 15))).
      { change 32768 with (2 ^ 15). rewrite <- Z.pow_add_r by lia. f_equal. lia. }
      assert (Hpos : 0 < 2 ^ (- (e + 15))) by (apply Z.pow_pos_nonneg; lia).
      split; [apply Z.div_pos; lia|].
      apply Z.div_le_upper_bound; lia.
Qed.

Lemma scaleSample_fits x :
  - 32768 <= truncate (Wave.scaleSample x) <= 32767
  /\ (Wave.isNegative x = true -> truncate (Wave.scaleSample x) <= 0)
  /\ (Wave.isNegative x = false -> 0 <= truncate (Wave.scaleSample x)).
Proof.
  assert (Hcase : forall (negative : bool) v,
            (if negative then - 32768 <= v <= 0 else 0 <= v <= 32767) ->
            - 32768 <= v <= 32767
            /\ (negative = true -> v <= 0) /\ (negative = false -> 0 <= v)).
  { intros [|] v H; (split; [lia|split; intros; try discriminate; lia]). }
  unfold Wave.scaleSample.
  destruct x as [s|[|]| |[|] m e]; cbn [Wave.min1 Wave.maxMinus1];
    try (apply Hcase; simpl; lia).
  - destruct (Wave.exceedsOne m e) eqn:E; [apply Hcase; simpl; lia|].
    cbn [Wave.isNegative]. apply (Hcase true).
    apply (truncate_scaled_negative m e E).
  - destruct (Wave.exceedsOne m e) eqn:E; [apply Hcase; simpl; lia|].
    cbn [Wave.isNegative]. apply (Hcase false).
    apply (truncate_scaled_positive m e E).
Qed.

(** X14: [bufferToWave] clamps before it scales, so a stored sample never
    wraps: the 16-bit value written is the integer part of the clamped and
    scaled sample itself, between -32768 and 32767, non-positive for a
    negative sample and non-negative otherwise; every sample above 1
    (infinity included) is stored as 32767, every sample below -1 as
    -32768, and NaN as 0. *)
Theorem wave_samples_are_clamped (x : spec_float) :
  let v := ToInt16 (Wave.scaleSample x) in
  v = truncate (Wave.scaleSample x)
  /\ - 32768 <= v <= 32767
  /\ (Wave.isNegative x = true -> v <= 0)
  /\ (Wave.isNegative x = false -> 0 <= v)
  /\ (forall m e, Wave.exceedsOne m e = true ->
        ToInt16 (Wave.scaleSample (S754_finite false m e)) = 32767
        /\ ToInt16 (Wave.scaleSample (S754_finite true m e)) = - 32768)
  /\ ToInt16 (Wave.scaleSample (S754_infinity false)) = 32767
  /\ ToInt16 (Wave.scaleSample (S754_infinity true)) = - 32768
  /\ ToInt16 (Wave.scaleSample S754_nan) = 0.
Proof.
  intros v. subst v.
  destruct (scaleSample_fits x) as (Hfit & Hneg & Hpos).
  assert (E : ToInt16 (Wave.scaleSample x) = truncate (Wave.scaleSample x)).
  { apply ToInt16_exact. change (2 ^ 15) with 32768. lia. }
  rewrite E. repeat split; auto; try lia.
  - unfold Wave.scaleSample. cbn [Wave.min1 Wave.maxMinus1]. rewrite H. reflexivity.
  - unfold Wave.scaleSample. cbn [Wave.min1 Wave.maxMinus1]. rewrite H. reflexivity.
Qed.

Lemma wave_samples_are_clamped_witness :
  Wave.exceedsOne 3 0 = true
  /\ ToInt16 (Wave.scaleSample (S754_finite false 3 0)) = 32767
  /\ ToInt16 (times32768 (S754_finite false 3 0)) = - 32768.
Proof.
  assert (H : Wave.exceedsOne 3 0 = true) by reflexivity.
  split; [exact H|]. split; [|reflexivity].
  exact (proj1 (proj1 (proj2 (proj2 (proj2 (proj2
           (wave_samples_are_clamped S754_nan))))) 3%positive 0 H)).
Defined.

Local Close Scope Z_scope.

(** X15: the samples are interleaved by frame: the sample of channel [j]
    in frame [i] is the signed 16-bit number, low byte first, at offset
    [44 + 2 * (i * channels + j)] of the file. *)
Theorem wave_samples_are_interleaved (abuffer : Wave.AudioBuffer) i j :
  i < Wave.length abuffer ->
  j < Wave.numberOfChannels abuffer ->
  Wave.int16At (Wave.bytes (Wave.bufferToWave abuffer))
    (44 + 2 * (i * Wave.numberOfChannels abuffer + j))
  = ToInt16 (Wave.scaleSample (Wave.getChannelData abuffer j i)).
Proof.
  intros Hi Hj.
  set (c := Wave.numberOfChannels abuffer) in *.
  assert (Hbyte : forall r, r < 2 ->
            Wave.byteAt (Wave.bytes (Wave.bufferToWave abuffer))
              (44 + 2 * (i * c + j) + r)
            = nth r (Wave.setInt16 (Wave.scaleSample (Wave.getChannelData abuffer j i)))
                0%Z).
  { intros r Hr. unfold Wave.byteAt. cbn [Wave.bufferToWave Wave.bytes].
    rewrite app_nth2 by (rewrite header_length; lia). rewrite header_length.
    replace (44 + 2 * (i * c + j) + r - 44) with (i * (c * 2) + (j * 2 + r)) by lia.
    unfold Wave.sampleBytes.
    rewrite (flat_map_blocks_nth (Wave.frameBytes abuffer) (c * 2));
      auto using frameBytes_length; [|lia].
    unfold Wave.frameBytes. fold c.
    now rewrite (flat_map_blocks_nth _ 2) by (auto; lia). }
  pose proof (Hbyte 0 ltac:(lia)) as Hlow. rewrite Nat.add_0_r in Hlow.
  unfold Wave.int16At, Wave.uint16At.
  rewrite !Hlow, !(Hbyte 1) by lia.
  unfold Wave.setInt16, int16Bytes. cbn [nth].
  apply int16_recompose. apply ToInt16_range.
Qed.

Lemma wave_samples_are_interleaved_witness :
  Wave.int16At (Wave.bytes (Wave.bufferToWave Wave.sampleBuffer)) (44 + 2 * (1 * 2 + 1))
  = (-32768)%Z.
Proof.
  assert (Hi : 1 < Wave.length Wave.sampleBuffer) by (simpl; lia).
  assert (Hj : 1 < Wave.numberOfChannels Wave.sampleBuffer) by (simpl; lia).
  exact (wave_samples_are_interleaved Wave.sampleBuffer 1 1 Hi Hj).
Defined.
(** * The PDF compressor *)

Lemma compressLoop_closed_form outcome total remaining : forall i newResults st,
  let st' := Pdf.compressLoop outcome total i remaining newResults st in
  let added := Pdf.produced outcome i remaining (List.length (Pdf.blobs st)) in
  Pdf.files st' = Pdf.files st
  /\ Pdf.compressionLevel st' = Pdf.compressionLevel st
  /\ Pdf.isLoading st' = Pdf.isLoading st
  /\ Pdf.blobs st' = Pdf.blobs st ++ map Pdf.newSize added
  /\ Pdf.results st' = match added with
                       | [] => Pdf.results st
                       | _ => newResults ++ added
                       end.
Proof.
  induction remaining as [|file rest IH]; intros i newResults st; cbn zeta.
  - simpl. rewrite app_nil_r. auto.
  - cbn [Pdf.compressLoop Pdf.produced]. destruct (outcome i) as [reached|numPages len].
    + match goal with |- context [Pdf.compressLoop _ _ _ _ ?nr ?s] =>
        specialize (IH (S i) nr s) end.
      cbn zeta in IH. exact IH.
    + match goal with |- context [Pdf.compressLoop _ _ _ _ ?nr ?s] =>
        specialize (IH (S i) nr s) end.
      cbn zeta in IH.
      cbn [Pdf.files Pdf.compressionLevel Pdf.isLoading Pdf.blobs Pdf.results] in IH.
      destruct IH as (Hf & Hl & Hload & Hb & Hr).
      rewrite length_app in Hb, Hr. simpl in Hb, Hr.
      rewrite (Nat.add_1_r (List.length (Pdf.blobs st))) in Hb, Hr.
      split; [exact Hf|]. split; [exact Hl|]. split; [exact Hload|]. split.
      * rewrite Hb. cbn [map Pdf.newSize]. now rewrite <- app_assoc.
      * rewrite Hr.
        destruct (Pdf.produced outcome (S i) rest (S (List.length (Pdf.blobs st))));
          [reflexivity|now rewrite <- app_assoc].
Qed.

Lemma handleCompress_closed_form outcome (st : Pdf.State) :
  Pdf.files st <> [] ->
  let st' := Pdf.handleCompress outcome st in
  Pdf.results st' = Pdf.produced outcome 0 (Pdf.files st) (List.length (Pdf.blobs st))
  /\ Pdf.blobs st' = Pdf.blobs st ++ map Pdf.newSize (Pdf.results st')
  /\ Pdf.files st' = Pdf.files st
  /\ Pdf.compressionLevel st' = Pdf.compressionLevel st
  /\ Pdf.isLoading st' = false
  /\ Pdf.progressData st' = None.
Proof.
  intros Hne. cbv zeta. unfold Pdf.handleCompress.
  destruct (Pdf.files st) as [|file rest] eqn:Hfiles; [congruence|].
  match goal with |- context [Pdf.compressLoop ?o ?t ?i ?l ?nr ?s] =>
    pose proof (compressLoop_closed_form o t l i nr s) as H;
    set (finished := Pdf.compressLoop o t i l nr s) in * end.
  cbn zeta in H. cbn [Pdf.files Pdf.compressionLevel Pdf.blobs Pdf.results] in H.
  destruct H as (Hf & Hl & _ & Hb & Hr).
  set (added := Pdf.produced outcome 0 (file :: rest) (List.length (Pdf.blobs st))) in *.
  assert (Hres : Pdf.results finished = added).
  { rewrite Hr. now destruct added. }
  cbn [Pdf.results Pdf.files Pdf.isLoading Pdf.progressData Pdf.blobs
       Pdf.compressionLevel].
  rewrite Hres, Hb, Hf, Hl. repeat split; auto.
Qed.

Lemma produced_names outcome l : forall i base,
  map (fun r => (Pdf.resultName r, Pdf.originalSize r)) (Pdf.produced outcome i l base)
  = map (fun f => (Pdf.name f, Pdf.size f)) (Pdf.succeeded outcome i l).
Proof.
  induction l as [|file rest IH]; intros i base; simpl; auto.
  destruct (outcome i); simpl; now rewrite IH.
Qed.

Lemma produced_sizes outcome l : forall i base,
  map (fun r => (Pdf.resultName r, Pdf.originalSize r, Pdf.newSize r))
    (Pdf.produced outcome i l base)
  = map (fun p => (Pdf.name (fst p), Pdf.size (fst p), N.min (Pdf.size (fst p)) (snd p)))
      (Pdf.rebuilt outcome i l).
Proof.
  induction l as [|file rest IH]; intros i base; simpl; auto.
  destruct (outcome i) as [reached|numPages len]; simpl; rewrite IH; auto.
  do 2 f_equal. destruct (N.leb_spec (Pdf.size file) len); lia.
Qed.

Lemma rebuilt_succeeded outcome l : forall i,
  map fst (Pdf.rebuilt outcome i l) = Pdf.succeeded outcome i l.
Proof.
  induction l as [|file rest IH]; intros i; simpl; auto.
  destruct (outcome i); simpl; now rewrite IH.
Qed.

Lemma produced_from outcome l : forall i base r,
  In r (Pdf.produced outcome i l base) ->
  exists f, In f l /\ Pdf.name f = Pdf.resultName r /\ Pdf.size f = Pdf.originalSize r.
Proof.
  induction l as [|file rest IH]; intros i base r Hin; simpl in Hin; [destruct Hin|].
  destruct (outcome i) as [reached|numPages len].
  - destruct (IH _ _ _ Hin) as (f & Hf & Hrest). exists f. split; [now right|exact Hrest].
  - destruct Hin as [<-|Hin].
    + exists file. simpl. auto.
    + destruct (IH _ _ _ Hin) as (f & Hf & Hrest). exists f.
      split; [now right|exact Hrest].
Qed.

Lemma produced_never_grow outcome l : forall i base,
  Forall (fun r => (Pdf.newSize r <= Pdf.originalSize r)%N) (Pdf.produced outcome i l base).
Proof.
  induction l as [|file rest IH]; intros i base; simpl; auto.
  destruct (outcome i) as [reached|numPages len]; auto.
  constructor; auto. simpl. destruct (N.leb_spec (Pdf.size file) len); lia.
Qed.

Lemma produced_urls outcome l : forall i base k r,
  nth_error (Pdf.produced outcome i l base) k = Some r -> Pdf.url r = base + k.
Proof.
  induction l as [|file rest IH]; intros i base k r H; simpl in H.
  - destruct k; discriminate.
  - destruct (outcome i) as [reached|numPages len]; [now apply IH in H|].
    destruct k as [|k]; simpl in H.
    + injection H as <-. simpl. lia.
    + apply IH in H. lia.
Qed.

Lemma produced_blobs outcome l i (old : list N) r :
  let added := Pdf.produced outcome i l (List.length old) in
  In r added ->
  nth_error (old ++ map Pdf.newSize added) (Pdf.url r) = Some (Pdf.newSize r).
Proof.
  intros added Hin. apply In_nth_error in Hin as [k Hk].
  rewrite (produced_urls _ _ _ _ _ _ Hk).
  rewrite nth_error_app2 by lia.
  replace (List.length old + k - List.length old) with k by lia.
  rewrite nth_error_map. now rewrite Hk.
Qed.

Lemma totals_never_grow (l : list Pdf.Result) : forall a b,
  (a <= b)%N ->
  Forall (fun r => (Pdf.newSize r <= Pdf.originalSize r)%N) l ->
  (fold_left (fun acc res => acc + Pdf.newSize res) l a
   <= fold_left (fun acc res => acc + Pdf.originalSize res) l b)%N.
Proof.
  induction l as [|r l IH]; intros a b Hab Hall; simpl; auto.
  inversion Hall; subst. apply IH; auto. lia.
Qed.

(** X16: a compression run reports, for the files that did not fail and
    in their order, one result each with the file's name and size; the new
    size is the smaller of the original size and the size of the rebuilt
    document, so it never exceeds the original and neither does the total;
    the blob behind each result's URL has exactly the reported new size; the
    file list is kept and the loading flag and progress are cleared.  With no
    file selected the handler does nothing. *)
Theorem compression_never_reports_growth outcome (st : Pdf.State) :
  let st' := Pdf.handleCompress outcome st in
  (Pdf.files st = [] -> st' = st)
  /\ (Pdf.files st <> [] ->
      map (fun r => (Pdf.resultName r, Pdf.originalSize r)) (Pdf.results st')
      = map (fun f => (Pdf.name f, Pdf.size f)) (Pdf.succeeded outcome 0 (Pdf.files st))
      /\ map (fun r => (Pdf.resultName r, Pdf.originalSize r, Pdf.newSize r))
           (Pdf.results st')
         = map (fun p => (Pdf.name (fst p), Pdf.size (fst p),
                          N.min (Pdf.size (fst p)) (snd p)))
             (Pdf.rebuilt outcome 0 (Pdf.files st))
      /\ map fst (Pdf.rebuilt outcome 0 (Pdf.files st))
         = Pdf.succeeded outcome 0 (Pdf.files st)
      /\ Forall (fun r => (Pdf.newSize r <= Pdf.originalSize r)%N) (Pdf.results st')
      /\ (Pdf.totalNewSize st' <= Pdf.totalOriginalSize st')%N
      /\ (forall r, In r (Pdf.results st') ->
            nth_error (Pdf.blobs st') (Pdf.url r) = Some (Pdf.newSize r))
      /\ Pdf.files st' = Pdf.files st
      /\ Pdf.isLoading st' = false
      /\ Pdf.progressData st' = None).
Proof.
  cbv zeta. split.
  { intros Hnone. unfold Pdf.handleCompress. now rewrite Hnone. }
  intros Hne.
  destruct (handleCompress_closed_form outcome st Hne) as (Hr & Hb & Hf & _ & Hl & Hp).
  unfold Pdf.totalNewSize, Pdf.totalOriginalSize.
  rewrite Hb, Hr.
  split; [apply produced_names|].
  split; [apply produced_sizes|].
  split; [apply rebuilt_succeeded|].
  split; [apply produced_never_grow|].
  split; [apply totals_never_grow; [lia|apply produced_never_grow]|].
  split; [|repeat split; auto].
  intros r Hin. now apply produced_blobs.
Qed.

Lemma compression_never_reports_growth_witness :
  let st := Pdf.run [Pdf.Upload [Pdf.report; Pdf.photo; Pdf.broken; Pdf.scan]] Pdf.init in
  let st' := Pdf.handleCompress Pdf.sampleOutcome st in
  Pdf.files st = [Pdf.report; Pdf.broken; Pdf.scan]
  /\ Pdf.rebuilt Pdf.sampleOutcome 0 (Pdf.files st)
     = [(Pdf.report, 400%N); (Pdf.scan, 900%N)]
  /\ map Pdf.newSize (Pdf.results st') = [400%N; 200%N]
  /\ (Pdf.totalNewSize st' <= Pdf.totalOriginalSize st')%N.
Proof.
  intros st st'.
  assert (Hfiles : Pdf.files st <> []) by (vm_compute; discriminate).
  split; [reflexivity|]. split; [reflexivity|]. split; [reflexivity|].
  pose proof (proj2 (compression_never_reports_growth Pdf.sampleOutcome st) Hfiles)
    as (_ & _ & _ & _ & Htotal & _).
  exact Htotal.
Defined.

(** ** Only PDFs are kept *)

Lemma filter_no_pdf selected :
  Forall (fun f => Pdf.isPdf f = false) selected -> filter Pdf.isPdf selected = [].
Proof.
  induction 1 as [|f l Hf _ IH]; simpl; auto. now rewrite Hf.
Qed.

Lemma filter_all_pdf selected :
  Forall (fun f => Pdf.isPdf f = true) selected -> filter Pdf.isPdf selected = selected.
Proof.
  induction 1 as [|f l Hf _ IH]; simpl; auto. now rewrite Hf, IH.
Qed.

Lemma filter_shorter (l : list Pdf.File) y :
  In y l -> Pdf.isPdf y = false -> List.length (filter Pdf.isPdf l) < List.length l.
Proof.
  induction l as [|a rest IH]; intros Hy Ey; [destruct Hy|].
  simpl. destruct Hy as [Ha|Hy].
  - subst a. rewrite Ey. pose proof (filter_length_le Pdf.isPdf rest). lia.
  - specialize (IH Hy Ey). destruct (Pdf.isPdf a); simpl; lia.
Qed.

Lemma handleFileChange_tidy selected st :
  Pdf.tidy st -> Pdf.tidy (Pdf.handleFileChange selected st).
Proof.
  intros (Hfiles & Hload & Hprog & Hres & Hlisted & Hblobs).
  unfold Pdf.handleFileChange.
  destruct (filter Pdf.isPdf selected) as [|f l] eqn:E; simpl.
  - repeat split; auto.
  - split; [|repeat split; auto].
    rewrite <- E. apply Forall_forall. intros x Hx. now apply filter_In in Hx.
Qed.

Lemma step_tidy st e : Pdf.tidy st -> Pdf.tidy (Pdf.step st e).
Proof.
  intros Ht. destruct e as [selected| |level|outcome]; cbn [Pdf.step].
  - destruct (Pdf.uploadShown st); [|exact Ht].
    unfold Pdf.onFileUpload. destruct selected; auto.
    now apply handleFileChange_tidy.
  - destruct (Pdf.readyShown st || Pdf.completeShown st); [|exact Ht].
    destruct Ht as (_ & Hload & _). repeat split; simpl; auto.
  - destruct (Pdf.readyShown st); exact Ht.
  - destruct (Pdf.readyShown st) eqn:Hshown; [|exact Ht].
    destruct Ht as (Hfiles & Hload & Hprog & Hres & Hlisted & Hblobs).
    assert (Hne : Pdf.files st <> []).
    { unfold Pdf.readyShown in Hshown. destruct (Pdf.files st); [discriminate|congruence]. }
    destruct (handleCompress_closed_form outcome st Hne) as (Hr & Hb & Hf & _ & Hl & Hp).
    split; [now rewrite Hf|]. split; [exact Hl|]. split; [exact Hp|].
    split; [rewrite Hr; apply produced_never_grow|].
    split.
    + apply Forall_forall. intros r Hin. rewrite Hr in Hin.
      destruct (produced_from _ _ _ _ _ Hin) as (f & Hin' & Hrest).
      exists f. rewrite Hf. auto.
    + apply Forall_forall. intros r Hin. rewrite Hb. rewrite Hr in *.
      now apply produced_blobs.
Qed.

Lemma run_tidy events : forall st, Pdf.tidy st -> Pdf.tidy (Pdf.run events st).
Proof.
  induction events as [|e rest IH]; intros st Ht; simpl; auto.
  apply IH. now apply step_tidy.
Qed.

Lemma init_tidy : Pdf.tidy Pdf.init.
Proof.
  repeat split; simpl; auto.
Qed.

(** X17: only PDFs are ever kept.  In every state the component can reach,
    all files in the list are PDFs, nothing is loading, no result reports a
    size above the original, every result is for a listed file, and the URL
    of every result leads to a blob of the reported size.  A selection
    handed to the component replaces the list by its PDFs, in order, clears
    the results and sets the level back to medium, with a notice exactly
    when something was left out; a selection without any PDF changes
    nothing but the error message, and an empty one changes nothing. *)
Theorem only_pdfs_are_kept (events : list Pdf.Event) (selected : list Pdf.File) :
  let st := Pdf.run events Pdf.init in
  let st' := Pdf.onFileUpload selected st in
  Pdf.tidy st
  /\ (selected = [] -> st' = st)
  /\ (selected <> [] -> Forall (fun f => Pdf.isPdf f = false) selected ->
      Pdf.files st' = Pdf.files st /\ Pdf.results st' = Pdf.results st
      /\ Pdf.compressionLevel st' = Pdf.compressionLevel st
      /\ Pdf.error st' = Some "No valid PDF files were selected."%string)
  /\ (existsb Pdf.isPdf selected = true ->
      Pdf.files st' = filter Pdf.isPdf selected
      /\ Pdf.results st' = []
      /\ Pdf.compressionLevel st' = Pdf.medium
      /\ (Pdf.error st' = None <-> Forall (fun f => Pdf.isPdf f = true) selected)
      /\ (Pdf.error st' = Some "Some non-PDF files were ignored."%string
          <-> ~ Forall (fun f => Pdf.isPdf f = true) selected)).
Proof.
  intros st st'. subst st'.
  split; [apply run_tidy, init_tidy|].
  split; [intros ->; reflexivity|].
  split.
  - intros Hne Hnone. unfold Pdf.onFileUpload, Pdf.handleFileChange.
    destruct selected as [|f l]; [congruence|].
    rewrite (filter_no_pdf _ Hnone). simpl. auto.
  - intros Hsome. unfold Pdf.onFileUpload, Pdf.handleFileChange.
    destruct selected as [|f l]; [discriminate|].
    apply existsb_exists in Hsome as (x & Hx & Hpdf).
    assert (Hin : In x (filter Pdf.isPdf (f :: l))) by (apply filter_In; auto).
    destruct (filter Pdf.isPdf (f :: l)) as [|p ps] eqn:E; [destruct Hin|].
    cbn [List.length Nat.eqb Pdf.files Pdf.results Pdf.compressionLevel Pdf.error].
    split; [reflexivity|]. split; [reflexivity|]. split; [reflexivity|].
    match goal with |- context [Nat.ltb ?a ?b] =>
      destruct (Nat.ltb_spec a b) as [Hlt|Hge] end.
    + assert (Hnot : ~ Forall (fun f => Pdf.isPdf f = true) (f :: l)).
      { intros Hall. apply filter_all_pdf in Hall. rewrite E in Hall.
        apply (f_equal (@List.length _)) in Hall. simpl in Hall, Hlt. lia. }
      split; split; auto; try discriminate. intros Hall. now destruct Hnot.
    + assert (Hall : Forall (fun f => Pdf.isPdf f = true) (f :: l)).
      { apply Forall_forall. intros y Hy.
        destruct (Pdf.isPdf y) eqn:Ey; auto. exfalso.
        pose proof (filter_shorter (f :: l) y Hy Ey) as Hlen.
        rewrite E in Hlen. simpl in Hlen, Hge. lia. }
      split; split; auto; try discriminate. intros Hnot. now destruct Hnot.
Qed.

Lemma only_pdfs_are_kept_witness :
  let events := [Pdf.Upload [Pdf.report; Pdf.scan]; Pdf.Compress Pdf.sampleOutcome;
                 Pdf.Reset] in
  let st' := Pdf.onFileUpload [Pdf.photo; Pdf.scan] (Pdf.run events Pdf.init) in
  existsb Pdf.isPdf [Pdf.photo; Pdf.scan] = true
  /\ Pdf.files st' = [Pdf.scan]
  /\ Pdf.error st' = Some "Some non-PDF files were ignored."%string.
Proof.
  intros events st'.
  assert (Hsome : existsb Pdf.isPdf [Pdf.photo; Pdf.scan] = true) by reflexivity.
  destruct (proj2 (proj2 (proj2 (only_pdfs_are_kept events [Pdf.photo; Pdf.scan]))) Hsome)
    as (Hfiles & _ & _ & _ & Herr).
  split; [exact Hsome|]. split; [exact Hfiles|].
  apply Herr. intros Hall. inversion Hall; discriminate.
Defined.

(** ** Object URLs *)

Lemma step_blobs st e : exists more, Pdf.blobs (Pdf.step st e) = Pdf.blobs st ++ more.
Proof.
  destruct e as [selected| |level|outcome]; cbn [Pdf.step].
  - destruct (Pdf.uploadShown st); [|exists []; now rewrite app_nil_r].
    unfold Pdf.onFileUpload, Pdf.handleFileChange.
    destruct selected; [exists []; now rewrite app_nil_r|].
    destruct (Nat.eqb _ 0); exists []; now rewrite app_nil_r.
  - destruct (_ || _); exists []; now rewrite app_nil_r.
  - destruct (Pdf.readyShown st); exists []; now rewrite app_nil_r.
  - destruct (Pdf.readyShown st); [|exists []; now rewrite app_nil_r].
    destruct (Pdf.files st) as [|file rest] eqn:E.
    + unfold Pdf.handleCompress. rewrite E. exists []. now rewrite app_nil_r.
    + assert (Hne : Pdf.files st <> []) by congruence.
      destruct (handleCompress_closed_form outcome st Hne) as (_ & Hb & _).
      eexists. exact Hb.
Qed.

Lemma run_blobs events : forall st,
  exists more, Pdf.blobs (Pdf.run events st) = Pdf.blobs st ++ more.
Proof.
  induction events as [|e rest IH]; intros st; simpl.
  - exists []. now rewrite app_nil_r.
  - destruct (IH (Pdf.step st e)) as [more Hmore].
    destruct (step_blobs st e) as [more' Hmore'].
    exists (more' ++ more). now rewrite Hmore, Hmore', app_assoc.
Qed.

(** X18: object URLs are never released.  A URL created for a result keeps
    leading to the same blob whatever the user does afterwards, also after
    the results were cleared or replaced; the blobs only accumulate. *)
Theorem object_urls_are_never_released (earlier later : list Pdf.Event)
    (url : nat) (blobSize : N) :
  nth_error (Pdf.blobs (Pdf.run earlier Pdf.init)) url = Some blobSize ->
  nth_error (Pdf.blobs (Pdf.run (earlier ++ later) Pdf.init)) url = Some blobSize
  /\ List.length (Pdf.blobs (Pdf.run earlier Pdf.init))
     <= List.length (Pdf.blobs (Pdf.run (earlier ++ later) Pdf.init)).
Proof.
  intros Hurl. unfold Pdf.run in *. rewrite fold_left_app.
  destruct (run_blobs later (fold_left Pdf.step earlier Pdf.init)) as [more Hmore].
  unfold Pdf.run in Hmore. rewrite Hmore. split.
  - rewrite nth_error_app1; [exact Hurl|]. apply nth_error_Some. congruence.
  - rewrite length_app. lia.
Qed.

Lemma object_urls_are_never_released_witness :
  let earlier := [Pdf.Upload [Pdf.report; Pdf.scan]; Pdf.Compress Pdf.sampleOutcome] in
  let later := [Pdf.Reset; Pdf.Upload [Pdf.scan]; Pdf.Compress Pdf.sampleOutcome] in
  nth_error (Pdf.blobs (Pdf.run earlier Pdf.init)) 0 = Some 400%N
  /\ Pdf.results (Pdf.run (earlier ++ [Pdf.Reset]) Pdf.init) = []
  /\ nth_error (Pdf.blobs (Pdf.run (earlier ++ later) Pdf.init)) 0 = Some 400%N.
Proof.
  intros earlier later.
  assert (Hurl : nth_error (Pdf.blobs (Pdf.run earlier Pdf.init)) 0 = Some 400%N)
    by reflexivity.
  split; [exact Hurl|]. split; [reflexivity|].
  exact (proj1 (object_urls_are_never_released earlier later 0 400%N Hurl)).
Defined.

(** * A microphone that no teardown stops (C5) *)

Section Leak.
Context {U : AudioUtils}.
Variable track : nat.

Lemma teardownCalls_trackStop w :
  In (TrackStop track) (teardownCalls w) ->
  exists stream, mediaStreamRef w = Some stream /\ In track (getTracks stream).
Proof.
  unfold teardownCalls. intros H.
  repeat (apply in_app_or in H as [H|H]).
  - destruct (animationFrameRef w); simpl in H; intuition discriminate.
  - destruct (sessionPromiseRef w); simpl in H; intuition discriminate.
  - destruct (mediaStreamRef w) as [stream|]; [|destruct H].
    apply in_map_iff in H as (x & [= ->] & Hx). now exists stream.
  - destruct (scriptProcessorRef w); simpl in H; intuition discriminate.
  - destruct (audioContextRef w) as [ctx|]; [|destruct H].
    destruct (isClosed ctx); simpl in H; intuition discriminate.
  - destruct (outputAudioContextRef w) as [ctx|]; [|destruct H].
    destruct (isClosed ctx); [destruct H|].
    apply in_app_or in H as [H|H]; [|simpl in H; intuition discriminate].
    apply in_map_iff in H as (source & Hs & _). discriminate.
Qed.

Lemma not_delivered stream :
  existsb (Nat.eqb track) (getTracks stream) = false -> ~ In track (getTracks stream).
Proof.
  intros Hnone Hin.
  assert (Hsome : existsb (Nat.eqb track) (getTracks stream) = true).
  { apply existsb_exists. exists track. split; [exact Hin|apply Nat.eqb_refl]. }
  congruence.
Qed.

Lemma stepCalls_trackStop w e :
  deliversTrack track e = false ->
  In (TrackStop track) (stepCalls w e) ->
  exists stream, mediaStreamRef w = Some stream /\ In track (getTracks stream).
Proof.
  intros Hfresh H.
  destruct e as [| | |o|session flushed|session m t|session|session|
                 inputData|source| |]; cbn [stepCalls] in H.
  - destruct (conversationState w); simpl in H; intuition discriminate.
  - now apply teardownCalls_trackStop.
  - now apply teardownCalls_trackStop.
  - destruct (pendingStarts w); [destruct H|].
    destruct o as [|stream|stream a b].
    + now apply teardownCalls_trackStop.
    + apply teardownCalls_trackStop in H as (stream' & [= <-] & Hin).
      now apply not_delivered in Hfresh.
    + simpl in H. intuition discriminate.
  - destruct (knownSession w session); [|destruct H].
    destruct (audioContextRef w); [|destruct H].
    unfold visualizeCalls in H.
    destruct flushed, (visualizerRef w); simpl in H; intuition discriminate.
  - destruct (knownSession w session); [|destruct H].
    apply in_app_or in H as [H|H].
    + destruct (schedules m w); simpl in H; intuition discriminate.
    + destruct (isInterrupted m); [|destruct H].
      apply in_map_iff in H as (x & Hx & _). discriminate.
  - destruct (knownSession w session); [|destruct H].
    now apply teardownCalls_trackStop.
  - destruct (knownSession w session); [|destruct H].
    now apply teardownCalls_trackStop.
  - destruct (scriptProcessorRef w), (sessionPromiseRef w); simpl in H;
      intuition discriminate.
  - destruct H.
  - destruct (animationFrameRef w); [|destruct H].
    unfold visualizeCalls in H.
    destruct (analyserRef w), (visualizerRef w); simpl in H; intuition discriminate.
  - destruct H.
Qed.

Lemma step_mediaStream w e stream :
  mediaStreamRef (step w e) = Some stream ->
  mediaStreamRef w = Some stream
  \/ exists inputRunning outputRunning,
       e = UserMedia (Granted stream inputRunning outputRunning).
Proof.
  destruct e as [| | |o|session flushed|session m t|session|session|
                 inputData|source| |]; cbn [step]; unfold withCallbacks.
  - unfold startConversation. destruct (conversationState w); simpl; auto.
  - rewrite stopConversation_closed_form. discriminate.
  - rewrite stopConversation_closed_form. discriminate.
  - destruct (pendingStarts w) as [|captured rest]; [auto|].
    destruct o as [|stream'|stream' a b]; unfold startConversationResume.
    + rewrite stopConversation_closed_form. discriminate.
    + rewrite stopConversation_closed_form. discriminate.
    + simpl. intros [= ->]. right. eauto.
  - destruct (nth_error _ _); [|auto]. unfold onopen.
    destruct flushed; simpl; destruct (audioContextRef w); simpl; auto;
      intros H; left; now rewrite (proj1 (visualize_refs _)) in H.
  - destruct (nth_error _ _); [|auto]. rewrite onmessage_mediaStream. auto.
  - destruct (nth_error _ _); [|auto]. unfold onclose.
    rewrite stopConversation_closed_form. discriminate.
  - destruct (nth_error _ _); [|auto]. rewrite onerror_is_stop.
    rewrite stopConversation_closed_form. discriminate.
  - destruct (scriptProcessorRef w); [|auto]. unfold onaudioprocess.
    destruct (sessionPromiseRef w); simpl; auto.
  - simpl. auto.
  - destruct (animationFrameRef w); [|auto].
    rewrite (proj1 (visualize_refs _)). auto.
  - simpl. auto.
Qed.

Lemma neverStopped_step w e :
  deliversTrack track e = false -> neverStopped track w -> neverStopped track (step w e).
Proof.
  intros Hfresh (Hheld & Hlog). split.
  - intros stream Hs. apply step_mediaStream in Hs as [Hs|(a & b & ->)].
    + now apply Hheld.
    + now apply not_delivered.
  - rewrite step_log. intros Hin. apply in_app_or in Hin as [Hin|Hin]; [auto|].
    destruct (stepCalls_trackStop w e Hfresh Hin) as (stream & Hs & Ht).
    exact (Hheld stream Hs Ht).
Qed.

Lemma neverStopped_run later : forall w,
  Forall (fun e => deliversTrack track e = false) later ->
  neverStopped track w -> neverStopped track (run later w).
Proof.
  induction later as [|e rest IH]; intros w Hfresh Hw; simpl; auto.
  inversion Hfresh; subst. apply IH; auto. now apply neverStopped_step.
Qed.
End Leak.

(** C5: the code does not stop every microphone track.  After
    [overlappingStarts] the first granted stream is in use by the session
    connected for it, but [mediaStreamRef] holds the second one (line 101
    overwrote it).  From then on no teardown and nothing else ever calls
    [stop()] on a track of the first stream, whatever events follow (as long
    as no later [getUserMedia] hands the same track out again), although
    every teardown leaves the active sources empty and [mediaStreamRef]
    null. *)
Theorem overlapping_starts_leak_the_microphone {U : AudioUtils}
    (later : list Event) (track : nat) :
  let leaked := run overlappingStarts init in
  let w := run later leaked in
  In track (getTracks firstStream) ->
  Forall (fun e => deliversTrack track e = false) later ->
  map cbStream (callbacks leaked) = [microphone; firstStream; secondStream]
  /\ mediaStreamRef leaked = Some secondStream
  /\ ~ In (TrackStop track) (log w)
  /\ (forall e, isTeardown w e = true ->
        let w' := step w e in
        sourcesRef w' = [] /\ mediaStreamRef w' = None
        /\ ~ In (TrackStop track) (log w')).
Proof.
  intros leaked w Htrack Hfresh.
  assert (Hleaked : neverStopped track leaked).
  { split.
    - intros stream Hs. vm_compute in Hs. injection Hs as <-.
      simpl in Htrack |- *. intros Hin.
      destruct Htrack as [<-|[<-|[]]];
        repeat (destruct Hin as [Hin|Hin]; [discriminate|]); exact Hin.
    - intros Hin. vm_compute in Hin. simpl in Htrack.
      destruct Htrack as [<-|[<-|[]]];
        repeat (destruct Hin as [Hin|Hin]; [discriminate|]); exact Hin. }
  assert (Hw : neverStopped track w) by (now apply neverStopped_run).
  split; [vm_compute; reflexivity|].
  split; [vm_compute; reflexivity|].
  split; [exact (proj2 Hw)|].
  intros e He w'. subst w'.
  assert (Hr : reachable w).
  { exists (overlappingStarts ++ later). subst w leaked. unfold run.
    now rewrite fold_left_app. }
  split; [rewrite (teardown_step w e He); now apply reachable_stop_sources|].
  split; [rewrite (teardown_step w e He); now rewrite stopConversation_closed_form|].
  assert (Hfresh' : deliversTrack track e = false) by (now destruct e).
  exact (proj2 (neverStopped_step track w e Hfresh' Hw)).
Qed.

Lemma overlapping_starts_leak_the_microphone_witness :
  let leaked := run (H := pcm16Utils) overlappingStarts init in
  let later := [OnOpen 2 true; Render; AudioProcess []; ClickStop] in
  let w := run (H := pcm16Utils) later leaked in
  In 100 (getTracks firstStream)
  /\ Forall (fun e => deliversTrack 100 e = false) later
  /\ conversationState w = idle
  /\ mediaStreamRef w = None
  /\ In (TrackStop 102) (log w)
  /\ ~ In (TrackStop 100) (log w).
Proof.
  intros leaked later w.
  assert (Htrack : In 100 (getTracks firstStream)) by (simpl; auto).
  assert (Hfresh : Forall (fun e => deliversTrack 100 e = false) later)
    by (repeat constructor).
  pose proof (overlapping_starts_leak_the_microphone (U := pcm16Utils) later 100
                Htrack Hfresh) as (_ & _ & Hnever & _).
  split; [exact Htrack|]. split; [exact Hfresh|].
  split; [vm_compute; reflexivity|]. split; [vm_compute; reflexivity|].
  split; [|exact Hnever].
  vm_compute. repeat (first [left; reflexivity | right]).
Defined.
